(** * Verification of the commit-validation core of the indigo relay

    The development embeds three parts of the repository:

    - [Crypto]: [PrivateKeyP256.HashAndSign] and
      [PublicKeyP256.HashAndVerify] (package [crypto]);
    - [Relay]: [ParseCommitOps], [VerifyCommitSignature],
      [VerifyCommitMessage], [HandleCommit], [HandleSync] and
      [NewValidator] (package [relay], the validator);
    - [Locks]: the interleavings of concurrent [lockUser] calls over the
      shared [userLocks] table.

    Go's standard library ([ecdsa], [sha256], [time]) and the packages the
    validator calls into ([syntax], [repo], [identity]) are parameters of
    the sections below. *)

From stdpp Require Import base numbers option list strings gmap fin_maps.
From Stdlib Require Import ZArith Lia Strings.Byte.

Local Open Scope Z_scope.

(** ** Go-style results: a value or an [error] *)

Inductive result (E A : Type) : Type :=
| Ok (a : A)
| Err (e : E).
Arguments Ok {E A} a.
Arguments Err {E A} e.

Definition is_Ok {E A} (r : result E A) : bool :=
  match r with Ok _ => true | Err _ => false end.

(** A Go pointer that may be nil is an [option]; [nonnil p] is [p != nil]. *)
Definition nonnil {A} (p : option A) : bool :=
  match p with Some _ => true | None => false end.

(** ** Bytes and [math/big] conversions *)

Definition Z_of_byte (b : byte) : Z := Z.of_N (Byte.to_N b).

Definition byte_of_Z (z : Z) : byte :=
  match Byte.of_N (Z.to_N (z mod 256)) with
  | Some b => b
  | None => Byte.x00
  end.

(** [big.Int.SetBytes]: the bytes read as a big-endian unsigned integer. *)
Definition SetBytes (buf : list byte) : Z :=
  fold_left (fun acc b => acc * 256 + Z_of_byte b) buf 0.

(** The big-endian digits of [x], on exactly [len] bytes (high digits that
    do not fit are dropped; [FillBytes] below refuses such an [x]). *)
Fixpoint be_digits (len : nat) (x : Z) : list byte :=
  match len with
  | O => []
  | S k => be_digits k (x / 256) ++ [byte_of_Z x]
  end.

(** [big.Int.FillBytes(buf)]: the absolute value of [x] as a zero-extended
    big-endian byte slice of [len(buf)] bytes; it panics ([None]) when [x]
    does not fit. *)
Definition FillBytes (x : Z) (len : nat) : option (list byte) :=
  if Z.abs x <? 256 ^ Z.of_nat len then Some (be_digits len (Z.abs x)) else None.

(** ** Package crypto: the P-256 key type *)

Module Crypto.

(** The order [N] of the NIST P-256 group, [elliptic.P256().Params().N]. *)
Definition curveP256Order : Z :=
  0xFFFFFFFF00000000FFFFFFFFFFFFFFFFBCE6FAADA7179E84F3B9CAC2FC632551.

(** Modelled from the spec: [sigSIsLowS_P256] is called by
    [HashAndVerify] but its body is not among the sources. The spec (4.1)
    requires low-S form, "reject any signature where s > n/2", so [s] is
    low-S when it is at most half the curve order. *)
Definition sigSIsLowS_P256 (s : Z) : bool :=
  negb (curveP256Order / 2 <? s).

(** Modelled from the spec: [sigSToLowS_P256] is called by [HashAndSign]
    but its body is not among the sources. The spec (4.1) says that
    signing "must emit low-S"; a high [s] is replaced by [n - s], the only
    other value that ECDSA accepts for the same [r], and a low [s] is
    returned unchanged. *)
Definition sigSToLowS_P256 (s : Z) : Z :=
  if sigSIsLowS_P256 s then s else curveP256Order - s.

Inductive crypto_error :=
| ErrSigningFailed          (* "crypto error signing with P-256/secp256r1 private key: %w" *)
| ErrSignatureLength (len : nat)
                            (* "crypto: P-256 signatures must be 64 bytes, got len=%d" *)
| ErrInvalidSignature.

(** What a call of [HashAndSign] can do: return a signature, return an
    error, or panic inside [FillBytes]. *)
Inductive sign_outcome :=
| Signed (sig : list byte)
| SignError (e : crypto_error)
| SignPanic.

(** Go's [crypto/ecdsa], [crypto/sha256] and [crypto/rand], which the key
    type calls into. *)
Class ECDSA := {
  ecdsa_PrivateKey : Type;
  ecdsa_PublicKey : Type;
  Digest : Type;
  Rand : Type;
  sha256_Sum256 : list byte -> Digest;
  (* ecdsa.Sign(rand.Reader, priv, hash); None is its error *)
  ecdsa_Sign : Rand -> ecdsa_PrivateKey -> Digest -> option (Z * Z);
  ecdsa_Verify : ecdsa_PublicKey -> Digest -> Z -> Z -> bool;
  (* priv.Public() *)
  ecdsa_Public : ecdsa_PrivateKey -> ecdsa_PublicKey;
  (* PublicKeyP256.ensureBytes: on the curve and exportable *)
  pub_ensureBytes : ecdsa_PublicKey -> bool
}.

Section P256.

Context `{ECDSA}.

Record PrivateKeyP256 := { privP256 : ecdsa_PrivateKey }.
Record PublicKeyP256 := { pubP256 : ecdsa_PublicKey }.

Definition Public (k : PrivateKeyP256) : option PublicKeyP256 :=
  let pub := {| pubP256 := ecdsa_Public (privP256 k) |} in
  if pub_ensureBytes (pubP256 pub) then Some pub else None.

Definition HashAndSign (rand : Rand) (k : PrivateKeyP256) (content : list byte)
  : sign_outcome :=
  let hash := sha256_Sum256 content in
  match ecdsa_Sign rand (privP256 k) hash with
  | None => SignError ErrSigningFailed
  | Some (r, s) =>
      let s := sigSToLowS_P256 s in
      match FillBytes r 32, FillBytes s 32 with
      | Some rb, Some sb => Signed (rb ++ sb)
      | _, _ => SignPanic
      end
  end.

Definition HashAndVerify (k : PublicKeyP256) (content sig : list byte)
  : result crypto_error unit :=
  let hash := sha256_Sum256 content in
  if negb (length sig =? 64)%nat then Err (ErrSignatureLength (length sig))
  else
    let r := SetBytes (take 32 sig) in
    let s := SetBytes (drop 32 sig) in
    if negb (ecdsa_Verify (pubP256 k) hash r s) then Err ErrInvalidSignature
    else if negb (sigSIsLowS_P256 s) then Err ErrInvalidSignature
    else Ok tt.

End P256.

(** A stand-in for Go's ECDSA, small enough to evaluate: keys and nonces
    are numbers, the public key of [d] is [d + 1], a signature is
    [(d + 1, nonce)], and verification compares [r] with the public key
    and wants [0 < s < n]. It accepts [n - s] whenever it accepts [s], as
    ECDSA does. *)
Definition demo_ecdsa : ECDSA := {|
  ecdsa_PrivateKey := Z;
  ecdsa_PublicKey := Z;
  Digest := list byte;
  Rand := Z;
  sha256_Sum256 := fun content => content;
  ecdsa_Sign := fun nonce d _ =>
    if (0 <? d) && (d <? curveP256Order - 1) && (0 <? nonce) && (nonce <? curveP256Order)
    then Some (d + 1, nonce) else None;
  ecdsa_Verify := fun pub _ r s =>
    (r =? pub) && (0 <? s) && (s <? curveP256Order);
  ecdsa_Public := fun d => d + 1;
  pub_ensureBytes := fun _ => true
|}.

Definition demo_key : @PrivateKeyP256 demo_ecdsa :=
  @Build_PrivateKeyP256 demo_ecdsa 5.
Definition demo_pub : @PublicKeyP256 demo_ecdsa :=
  @Build_PublicKeyP256 demo_ecdsa 6.
Definition demo_content : list byte := [x68; x69].

(** A signature on [demo_content] that the stand-in verification accepts,
    with [s = n - 1] in the upper half of the curve order. *)
Definition demo_high_sig : list byte :=
  be_digits 32 6 ++ be_digits 32 (curveP256Order - 1).

(** The other signature with the same [r]: [s = 1], in the lower half. *)
Definition demo_low_sig : list byte :=
  be_digits 32 6 ++ be_digits 32 1.

End Crypto.

(** ** Package relay: the validator *)

Module Relay.

(** [cid.Cid] is a struct around one string; [util.LexLink] is the same
    type, and the source converts pointers between the two. *)
Record Cid := { cid_str : string }.

Definition Cid_eqb (a b : Cid) : bool := String.eqb (cid_str a) (cid_str b).

(** [time.Time] instants and [time.Duration], both in nanoseconds; a
    [Duration] is an int64. *)
Definition Time := Z.
Definition Duration := Z.

Definition maxDuration : Duration := 2 ^ 63 - 1.
Definition minDuration : Duration := - 2 ^ 63.
Definition time_Hour : Duration := 3600 * 1000000000.

Definition Time_Before (t u : Time) : bool := t <? u.
Definition Time_After (t u : Time) : bool := u <? t.
Definition Time_Add (t : Time) (d : Duration) : Time := t + d.

(** [t.Sub(u)]: the duration [t - u], or the largest (smallest) duration
    when the difference does not fit. *)
Definition Time_Sub (t u : Time) : Duration :=
  if maxDuration <? t - u then maxDuration
  else if t - u <? minDuration then minDuration
  else t - u.

Definition defaultMaxRevFuture : Duration := time_Hour.

(** [comatproto.SyncSubscribeRepos_RepoOp], one op on the wire. The slice
    the validator ranges over holds pointers to such structs; they are
    taken to be non-nil. *)
Record RepoOp := {
  Action : string;
  Cid_ : option Cid;       (* Cid *util.LexLink *)
  Path : string;
  Prev : option Cid        (* Prev *util.LexLink *)
}.

(** [repo.Operation] *)
Record Operation := {
  op_Path : string;
  op_Prev : option Cid;
  op_Value : option Cid
}.

(** [comatproto.SyncSubscribeRepos_Commit], the fields the validator reads. *)
Record SyncSubscribeRepos_Commit := {
  Blocks : list byte;
  Ops : list RepoOp;
  PrevData : option Cid;
  Rebase : bool;
  Repo_ : string;
  Rev : string;
  Seq : Z;
  Time_ : string;
  TooBig : bool
}.

(** [comatproto.SyncSubscribeRepos_Sync] *)
Record SyncSubscribeRepos_Sync := {
  sync_Blocks : list byte;
  sync_Did : string;
  sync_Rev : string;
  sync_Seq : Z;
  sync_Time : string
}.

(** [repo.Commit], the commit block of a CAR file. *)
Record Commit := {
  commit_DID : string;
  commit_Version : Z;
  commit_Data : Cid;
  commit_Rev : string;
  commit_Prev : option Cid;
  commit_Sig : list byte
}.

(** [models.Host] and [models.Account], the fields the validator reads. *)
Record Host := { Hostname : string }.
Record Account := { UID : Z }.

(** The packages the validator calls into: [atproto/syntax],
    [atproto/repo] (CAR loading and the MST) and [atproto/identity].
    [ExtErr] is the type of the errors they return. *)
Class Packages := {
  ExtErr : Type;
  (* atproto/syntax *)
  DID : Type;
  TID : Type;
  ParseDID : string -> result ExtErr DID;
  DID_String : DID -> string;
  ParseTID : string -> result ExtErr TID;
  TID_String : TID -> string;
  TID_Time : TID -> Time;
  ParseDatetime : string -> result ExtErr unit;
  ParseRepoPath : string -> result ExtErr (string * string);
  (* atproto/repo *)
  Repo : Type;
  Tree : Type;
  LoadRepoFromCAR : list byte -> result ExtErr (Commit * Repo);
  LoadCommitFromCAR : list byte -> result ExtErr Commit;
  GetRecordCID : Repo -> string -> string -> result ExtErr Cid;
  GetRecordBytes : Repo -> string -> string -> result ExtErr (list byte);
  MST : Repo -> Tree;
  Tree_Copy : Tree -> Tree;
  Tree_RootCID : Tree -> result ExtErr Cid;
  NormalizeOps : list Operation -> result ExtErr (list Operation);
  (* InvertOp(&tree, &op) updates the tree in place *)
  InvertOp : Tree -> Operation -> result ExtErr Tree;
  (* atproto/identity and the key it yields *)
  Directory : Type;
  Identity : Type;
  PublicKey : Type;
  LookupDID : Directory -> DID -> result ExtErr Identity;
  Identity_PublicKey : Identity -> result ExtErr PublicKey;
  Commit_VerifySignature : Commit -> PublicKey -> result ExtErr unit
}.

Section Validator.

Context `{Packages}.

(** Arguments of a [fmt.Errorf] call, kept unformatted. *)
Inductive fmt_arg :=
| ArgString (s : string)
| ArgDuration (d : Duration)
| ArgError (e : ExtErr).        (* %w *)

(** The errors the validator returns. *)
Inductive error :=
| External (e : ExtErr)                              (* a callee's error, unchanged *)
| Errorf (format : string) (args : list fmt_arg)     (* fmt.Errorf(format, args...) *)
| revOutOfOrderError (dt : Duration).                (* &revOutOfOrderError{dt} *)

(** What a validation does besides returning: counters incremented, log
    lines written, the directory and signature calls it makes, and the
    user lock taken and released. *)
Inductive event :=
| commitVerifyStarts
| commitVerifyErrors (hostname reason : string)
| commitVerifyWarnings (hostname reason : string)
| commitVerifyOkish (hostname reason : string)
| commitVerifyOk (hostname : string)
| syncVerifyErrors (hostname reason : string)
| logWarn (msg : string) (seq : Z) (host repo : string)
| logDebug (msg action : string)
| callLookupDID (did : DID)
| callVerifySignature (commit : Commit)
| userLocked (uid : Z)            (* lockUser(uid) returned *)
| userUnlocked (uid : Z).         (* the release function ran *)

(** The state a validation threads: its local [hasWarning] and the events
    so far. *)
Record vstate := { hasWarning : bool; events : list event }.

Definition M (A : Type) : Type := vstate -> result error A * vstate.

Definition ret {A} (a : A) : M A := fun s => (Ok a, s).

Definition fail {A} (e : error) : M A := fun s => (Err e, s).

Definition bind {A B} (m : M A) (f : A -> M B) : M B :=
  fun s => match m s with
           | (Ok a, s') => f a s'
           | (Err e, s') => (Err e, s')
           end.

Definition emit (ev : event) : M unit :=
  fun s => (Ok tt, {| hasWarning := hasWarning s; events := events s ++ [ev] |}).

Definition setWarning (b : bool) : M unit :=
  fun s => (Ok tt, {| hasWarning := b; events := events s |}).

Definition getWarning : M bool := fun s => (Ok (hasWarning s), s).

(** [defer cleanup()] around a body: the cleanup runs on every return. *)
Definition defer {A} (cleanup : M unit) (body : M A) : M A :=
  fun s => let (r, s') := body s in (r, snd (cleanup s')).

Notation "'let*' x ':=' m 'in' k" := (bind m (fun x => k))
  (at level 10, x pattern, m at level 100, k at level 200).
Notation "'run' m 'in' k" := (bind m (fun _ => k))
  (at level 10, m at level 100, k at level 200).

(** [v, err := call; if err != nil { counter.Inc(); return nil, wrap(err) }] *)
Definition orFail {A} (r : result ExtErr A) (counter : event)
  (wrap : ExtErr -> error) : M A :=
  match r with
  | Ok a => ret a
  | Err e => run emit counter in fail (wrap e)
  end.

Record Validator := {
  directory : option Directory;
  maxRevFuture : Duration;
  ErrRevTooFarFuture : error;
  AllowSignatureNotFound : bool
}.

Definition NewValidator (directory : option Directory) : Validator :=
  let maxRevFuture := defaultMaxRevFuture in
  let ErrRevTooFarFuture :=
    Errorf "new rev is > %s in the future" [ArgDuration maxRevFuture] in
  {| directory := directory;
     maxRevFuture := maxRevFuture;
     ErrRevTooFarFuture := ErrRevTooFarFuture;
     AllowSignatureNotFound := true |}.

(** [lockUser] as [HandleCommit] sees it: the call returns once the user
    lock is held, and hands back the release function. What the two do
    to the lock table is the subject of module [Locks]. *)
Definition lockUser (uid : Z) : M (M unit) :=
  run emit (userLocked uid) in ret (emit (userUnlocked uid)).

Fixpoint ParseCommitOps_loop (ops : list RepoOp) (out : list Operation)
  : result error (list Operation) :=
  match ops with
  | [] => Ok out
  | rop :: rest =>
      if String.eqb (Action rop) "create" then
        match Cid_ rop, Prev rop with
        | Some c, None =>
            let op := {| op_Path := Path rop; op_Prev := None; op_Value := Some c |} in
            ParseCommitOps_loop rest (out ++ [op])
        | _, _ => Err (Errorf "invalid repoOp: create" [])
        end
      else if String.eqb (Action rop) "delete" then
        match Cid_ rop, Prev rop with
        | None, Some p =>
            let op := {| op_Path := Path rop; op_Prev := Some p; op_Value := None |} in
            ParseCommitOps_loop rest (out ++ [op])
        | _, _ => Err (Errorf "invalid repoOp: delete" [])
        end
      else if String.eqb (Action rop) "update" then
        match Cid_ rop, Prev rop with
        | Some c, Some p =>
            let op := {| op_Path := Path rop; op_Prev := Some p; op_Value := Some c |} in
            ParseCommitOps_loop rest (out ++ [op])
        | _, _ => Err (Errorf "invalid repoOp: update" [])
        end
      else Err (Errorf "invalid repoOp action: %s" [ArgString (Action rop)])
  end.

Definition ParseCommitOps (ops : list RepoOp) : result error (list Operation) :=
  ParseCommitOps_loop ops [].

Definition VerifyCommitSignature (val : Validator) (commit : Commit)
  (hostname : string) (hasWarning_nonnil : bool) : M unit :=
  match directory val with
  | None => ret tt
  | Some dir =>
      let* xdid := orFail (ParseDID (commit_DID commit))
                     (commitVerifyErrors hostname "sig1")
                     (fun err => Errorf "bad car DID: %w" [ArgError err]) in
      run emit (callLookupDID xdid) in
      match LookupDID dir xdid with
      | Err err =>
          if AllowSignatureNotFound val then
            (* allow not-found conditions to pass without signature check *)
            run emit (commitVerifyWarnings hostname "nok") in
            run (if hasWarning_nonnil then setWarning true else ret tt) in
            ret tt
          else
            run emit (commitVerifyErrors hostname "sig2") in
            fail (Errorf "DID lookup failed: %w" [ArgError err])
      | Ok ident =>
          let* pk := orFail (Identity_PublicKey ident)
                       (commitVerifyErrors hostname "sig3")
                       (fun err => Errorf "no atproto pubkey: %w" [ArgError err]) in
          run emit (callVerifySignature commit) in
          let* _ := orFail (Commit_VerifySignature commit pk)
                      (commitVerifyErrors hostname "sig4")
                      (fun err => Errorf "invalid signature: %w" [ArgError err]) in
          ret tt
      end
  end.

(** The loop "load out all the records" of [VerifyCommitMessage]. *)
Fixpoint VerifyCommitMessage_loadRecords (hostname : string)
  (repoFragment : Repo) (ops : list RepoOp) : M unit :=
  match ops with
  | [] => ret tt
  | op :: rest =>
      run (if (String.eqb (Action op) "create" || String.eqb (Action op) "update")
              && nonnil (Cid_ op) then
             match Cid_ op with
             | Some c =>
                 let* (nsid, rkey) :=
                   orFail (ParseRepoPath (Path op))
                     (commitVerifyErrors hostname "opp")
                     (fun err => Errorf "invalid repo path in ops list: %w" [ArgError err]) in
                 let* val := orFail (GetRecordCID repoFragment nsid rkey)
                               (commitVerifyErrors hostname "rcid") External in
                 run (if negb (Cid_eqb c val) then
                        run emit (commitVerifyErrors hostname "opc") in
                        fail (Errorf "record op doesn't match MST tree value" [])
                      else ret tt) in
                 let* _ := orFail (GetRecordBytes repoFragment nsid rkey)
                             (commitVerifyErrors hostname "rec") External in
                 ret tt
             | None => ret tt
             end
           else ret tt) in
      VerifyCommitMessage_loadRecords hostname repoFragment rest
  end.

(** The loop over legacy ops of [VerifyCommitMessage]: [true] when it
    reached a [return repoFragment, nil]. *)
Fixpoint VerifyCommitMessage_legacyOps (host : Host)
  (msg : SyncSubscribeRepos_Commit) (ops : list RepoOp) : M bool :=
  match ops with
  | [] => ret false
  | o :: rest =>
      if String.eqb (Action o) "delete" then
        match Prev o with
        | None =>
            run emit (logDebug "can't invert legacy op" (Action o)) in
            run emit (logWarn "commit delete op" (Seq msg) (Hostname host) (Repo_ msg)) in
            run emit (commitVerifyOkish (Hostname host) "del") in
            ret true
        | Some _ => VerifyCommitMessage_legacyOps host msg rest
        end
      else if String.eqb (Action o) "update" then
        match Prev o with
        | None =>
            run emit (logDebug "can't invert legacy op" (Action o)) in
            run emit (logWarn "commit update op" (Seq msg) (Hostname host) (Repo_ msg)) in
            run emit (commitVerifyOkish (Hostname host) "up") in
            ret true
        | Some _ => VerifyCommitMessage_legacyOps host msg rest
        end
      else VerifyCommitMessage_legacyOps host msg rest
  end.

(** The loop that inverts the normalized ops on the copied tree. *)
Fixpoint VerifyCommitMessage_invertOps (hostname : string) (invTree : Tree)
  (ops : list Operation) : M Tree :=
  match ops with
  | [] => ret invTree
  | op :: rest =>
      let* invTree := orFail (InvertOp invTree op)
                        (commitVerifyErrors hostname "inv") External in
      VerifyCommitMessage_invertOps hostname invTree rest
  end.

(** [VerifyCommitMessage] from its first statement through the loop that
    loads the records. *)
Definition VerifyCommitMessage_records (val : Validator) (host : Host)
  (msg : SyncSubscribeRepos_Commit) (prevRev : option TID) (now : Time)
  : M Repo :=
  let hostname := Hostname host in
  run setWarning false in
  run emit commitVerifyStarts in
  let* did := orFail (ParseDID (Repo_ msg))
                (commitVerifyErrors hostname "did") External in
  let* rev := orFail (ParseTID (Rev msg))
                (commitVerifyErrors hostname "tid") External in
  run (match prevRev with
       | Some prevRev =>
           let curTime := TID_Time rev in
           let prevTime := TID_Time prevRev in
           if Time_Before curTime prevTime then
             run emit (commitVerifyErrors hostname "revb") in
             let dt := Time_Sub prevTime curTime in
             fail (revOutOfOrderError dt)
           else ret tt
       | None => ret tt
       end) in
  run (if Time_After (TID_Time rev) (Time_Add now (maxRevFuture val)) then
         run emit (commitVerifyErrors hostname "revf") in
         fail (ErrRevTooFarFuture val)
       else ret tt) in
  let* _ := orFail (ParseDatetime (Time_ msg))
              (commitVerifyErrors hostname "time") External in
  run (if TooBig msg then
         run emit (commitVerifyWarnings hostname "big") in
         run emit (logWarn "commit tooBig" (Seq msg) (Hostname host) (Repo_ msg)) in
         setWarning true
       else ret tt) in
  run (if Rebase msg then
         run emit (commitVerifyWarnings hostname "reb") in
         run emit (logWarn "commit rebase" (Seq msg) (Hostname host) (Repo_ msg)) in
         setWarning true
       else ret tt) in
  let* (commit, repoFragment) :=
    orFail (LoadRepoFromCAR (Blocks msg))
      (commitVerifyErrors hostname "car") External in
  run (if negb (String.eqb (commit_Rev commit) (TID_String rev)) then
         run emit (commitVerifyErrors hostname "rev") in
         fail (Errorf "rev did not match commit" [])
       else ret tt) in
  run (if negb (String.eqb (commit_DID commit) (DID_String did)) then
         run emit (commitVerifyErrors hostname "did2") in
         fail (Errorf "rev did not match commit" [])
       else ret tt) in
  run VerifyCommitSignature val commit hostname true in
  run VerifyCommitMessage_loadRecords hostname repoFragment (Ops msg) in
  ret repoFragment.

(** [VerifyCommitMessage] from the legacy-op loop to its last statement. *)
Definition VerifyCommitMessage_prevData (val : Validator) (host : Host)
  (msg : SyncSubscribeRepos_Commit) (prevData : option Cid)
  (repoFragment : Repo) : M Repo :=
  let hostname := Hostname host in
  let* returned := VerifyCommitMessage_legacyOps host msg (Ops msg) in
  if returned : bool then ret repoFragment
  else
    match PrevData msg with
    | Some c =>
        run (match prevData with
             | Some prevData =>
                 if negb (Cid_eqb c prevData) then
                   run emit (commitVerifyWarnings hostname "pr") in
                   run emit (logWarn "commit prevData mismatch"
                               (Seq msg) (Hostname host) (Repo_ msg)) in
                   setWarning true
                 else ret tt
             | None => ret tt
             end) in
        (* check internal consistency that claimed previous root matches
           the rest of this message *)
        let* ops := match ParseCommitOps (Ops msg) with
                    | Ok ops => ret ops
                    | Err err =>
                        run emit (commitVerifyErrors hostname "pop") in fail err
                    end in
        let* ops := orFail (NormalizeOps ops)
                      (commitVerifyErrors hostname "nop") External in
        let invTree := Tree_Copy (MST repoFragment) in
        let* invTree := VerifyCommitMessage_invertOps hostname invTree ops in
        let* computed := orFail (Tree_RootCID invTree)
                           (commitVerifyErrors hostname "it") External in
        run (if negb (Cid_eqb computed c) then
               (* this is self-inconsistent malformed data *)
               run emit (commitVerifyErrors hostname "pd") in
               fail (Errorf "inverted tree root didn't match prevData" [])
             else ret tt) in
        let* hasWarning := getWarning in
        run (match prevData with
             | None => emit (commitVerifyOkish hostname "new")
             | Some _ =>
                 if hasWarning : bool then emit (commitVerifyOkish hostname "warn")
                 else emit (commitVerifyOk hostname)
             end) in
        ret repoFragment
    | None =>
        (* this source is still on old protocol without new prevData field *)
        run emit (commitVerifyOkish hostname "old") in
        ret repoFragment
    end.

Definition VerifyCommitMessage (val : Validator) (host : Host)
  (msg : SyncSubscribeRepos_Commit) (prevRev : option TID)
  (prevData : option Cid) (now : Time) : M Repo :=
  let* repoFragment := VerifyCommitMessage_records val host msg prevRev now in
  VerifyCommitMessage_prevData val host msg prevData repoFragment.

Definition HandleCommit (val : Validator) (host : Host) (account : Account)
  (commit : SyncSubscribeRepos_Commit) (prevRev : option TID)
  (prevData : option Cid) (now : Time) : M Cid :=
  let uid := UID account in
  let* unlock := lockUser uid in
  defer unlock
    (let* repoFragment := VerifyCommitMessage val host commit prevRev prevData now in
     let* newRootCid := match Tree_RootCID (MST repoFragment) with
                        | Ok c => ret c
                        | Err err => fail (External err)
                        end in
     ret newRootCid).

(** [HandleSync] checks the signed commit of a #sync message. *)
Definition HandleSync (val : Validator) (host : Host)
  (msg : SyncSubscribeRepos_Sync) (now : Time) : M Cid :=
  let hostname := Hostname host in
  run setWarning false in
  let* did := orFail (ParseDID (sync_Did msg))
                (syncVerifyErrors hostname "did") External in
  let* rev := orFail (ParseTID (sync_Rev msg))
                (syncVerifyErrors hostname "tid") External in
  run (if Time_After (TID_Time rev) (Time_Add now (maxRevFuture val)) then
         run emit (syncVerifyErrors hostname "revf") in
         fail (ErrRevTooFarFuture val)
       else ret tt) in
  let* _ := orFail (ParseDatetime (sync_Time msg))
              (syncVerifyErrors hostname "time") External in
  let* commit := orFail (LoadCommitFromCAR (sync_Blocks msg))
                   (commitVerifyErrors hostname "car") External in
  run (if negb (String.eqb (commit_Rev commit) (TID_String rev)) then
         run emit (commitVerifyErrors hostname "rev") in
         fail (Errorf "rev did not match commit" [])
       else ret tt) in
  run (if negb (String.eqb (commit_DID commit) (DID_String did)) then
         run emit (commitVerifyErrors hostname "did2") in
         fail (Errorf "rev did not match commit" [])
       else ret tt) in
  run VerifyCommitSignature val commit hostname true in
  ret (commit_Data commit).

(** *** Vocabulary of the statements *)

(** The invariant of the data model on one op: a create has a [cid] and
    no [prev], a delete has a [prev] and no [cid], an update has both. *)
Definition RepoOp_invariant (rop : RepoOp) : Prop :=
  (Action rop = "create"%string /\ Cid_ rop <> None /\ Prev rop = None)
  \/ (Action rop = "delete"%string /\ Cid_ rop = None /\ Prev rop <> None)
  \/ (Action rop = "update"%string /\ Cid_ rop <> None /\ Prev rop <> None).

(** The operation with the same path, [Value = Cid] and [Prev]. *)
Definition Operation_of (rop : RepoOp) : Operation :=
  {| op_Path := Path rop; op_Prev := Prev rop; op_Value := Cid_ rop |}.

(** A delete or update op whose [Prev] is nil. *)
Definition legacy_op (o : RepoOp) : bool :=
  (String.eqb (Action o) "delete" || String.eqb (Action o) "update")
  && negb (nonnil (Prev o)).

Definition has_legacy_op (ops : list RepoOp) : bool := existsb legacy_op ops.

(** The tree after [InvertOp] on each op in turn, or the first error. *)
Fixpoint invert_all (t : Tree) (ops : list Operation) : result ExtErr Tree :=
  match ops with
  | [] => Ok t
  | op :: rest =>
      match InvertOp t op with
      | Ok t' => invert_all t' rest
      | Err e => Err e
      end
  end.

(** What [VerifyCommitMessage] returns once the records are loaded, as a
    function of the message and the repo fragment alone. *)
Definition prevData_outcome (msg : SyncSubscribeRepos_Commit)
  (repoFragment : Repo) : result error Repo :=
  if has_legacy_op (Ops msg) then Ok repoFragment
  else
    match PrevData msg with
    | None => Ok repoFragment
    | Some c =>
        match ParseCommitOps (Ops msg) with
        | Err err => Err err
        | Ok ops =>
            match NormalizeOps ops with
            | Err err => Err (External err)
            | Ok ops =>
                match invert_all (Tree_Copy (MST repoFragment)) ops with
                | Err err => Err (External err)
                | Ok invTree =>
                    match Tree_RootCID invTree with
                    | Err err => Err (External err)
                    | Ok computed =>
                        if Cid_eqb computed c then Ok repoFragment
                        else Err (Errorf "inverted tree root didn't match prevData" [])
                    end
                end
            end
        end
    end.

Definition lock_event (ev : event) : Prop :=
  match ev with
  | userLocked _ | userUnlocked _ => True
  | _ => False
  end.

(** The error a new validator returns for a rev too far in the future. *)
Definition future_error : error :=
  Errorf "new rev is > %s in the future" [ArgDuration defaultMaxRevFuture].

(** Classes of errors and of events. *)
Definition any_error (e : error) : Prop := True.
Definition other_error (e : error) : Prop := e <> future_error.
Definition future_only (P : Prop) (e : error) : Prop := e = future_error -> P.
Definition other_event (ev : event) : Prop := ~ lock_event ev.

(** [follows PE Q m]: a run of [m] only appends events, all of them in
    [Q], and an error it returns is in [PE]. *)
Definition follows {A} (PE : error -> Prop) (Q : event -> Prop) (m : M A) : Prop :=
  forall s,
    (exists evs, events (snd (m s)) = events s ++ evs /\ Forall Q evs)
    /\ (forall e, fst (m s) = Err e -> PE e).

(** [keeps_warning m]: a run of [m] does not clear [hasWarning]. *)
Definition keeps_warning {A} (m : M A) : Prop :=
  forall s, hasWarning s = true -> hasWarning (snd (m s)) = true.

End Validator.

(** *** A small instance of the packages, to evaluate the validator on

    DIDs are strings that start with "did:"; a TID is a non-empty string
    whose time is one second per character; a repository is the list of
    its records, which also serves as its tree, and the CID of a tree is
    the text of its entries; a CAR file is one byte that selects among
    two repositories; the directory is a list of the DIDs it knows. *)

Definition demo_cid (s : string) : Cid := {| cid_str := s |}.

Fixpoint demo_remove (path : string) (t : list (string * Cid)) : list (string * Cid) :=
  match t with
  | [] => []
  | (k, c) :: t =>
      if String.eqb k path then demo_remove path t else (k, c) :: demo_remove path t
  end.

Fixpoint demo_lookup (path : string) (t : list (string * Cid)) : option Cid :=
  match t with
  | [] => None
  | (k, c) :: t => if String.eqb k path then Some c else demo_lookup path t
  end.

Definition demo_root (t : list (string * Cid)) : Cid :=
  demo_cid (fold_right (fun kc acc => (fst kc ++ "=" ++ cid_str (snd kc) ++ ";" ++ acc)%string)
              ""%string t).

Definition demo_invert (t : list (string * Cid)) (op : Operation)
  : result string (list (string * Cid)) :=
  match op_Value op, op_Prev op with
  | Some v, None =>                                    (* create: delete it *)
      match demo_lookup (op_Path op) t with
      | Some c => if Cid_eqb c v then Ok (demo_remove (op_Path op) t)
                  else Err "inconsistent op"%string
      | None => Err "inconsistent op"%string
      end
  | _, Some p => Ok ((op_Path op, p) :: demo_remove (op_Path op) t)
  | None, None => Err "inconsistent op"%string
  end.

Definition demo_commit : Commit :=
  {| commit_DID := "did:plc:alice"; commit_Version := 3;
     commit_Data := demo_cid "post/1=B;"; commit_Rev := "aaa";
     commit_Prev := None; commit_Sig := [x01] |}.

Definition demo_packages : Packages := {|
  ExtErr := string;
  DID := string;
  TID := string;
  ParseDID := fun s =>
    if String.prefix "did:" s then Ok s else Err "not a DID"%string;
  DID_String := fun d => d;
  ParseTID := fun s =>
    if String.eqb s "" then Err "not a TID"%string else Ok s;
  TID_String := fun t => t;
  TID_Time := fun t => Z.of_nat (String.length t) * 1000000000;
  ParseDatetime := fun s =>
    if String.eqb s "" then Err "not a datetime"%string else Ok tt;
  ParseRepoPath := fun s =>
    match String.index 0 "/" s with
    | Some n => Ok (String.substring 0 n s,
                    String.substring (S n) (String.length s - S n) s)
    | None => Err "not a repo path"%string
    end;
  Repo := list (string * Cid);
  Tree := list (string * Cid);
  LoadRepoFromCAR := fun blocks =>
    match blocks with
    | [x01] => Ok (demo_commit, [("post/1"%string, demo_cid "B")])
    | _ => Err "bad CAR"%string
    end;
  LoadCommitFromCAR := fun blocks =>
    match blocks with
    | [x01] => Ok demo_commit
    | _ => Err "bad CAR"%string
    end;
  GetRecordCID := fun r nsid rkey =>
    match demo_lookup (nsid ++ "/" ++ rkey) r with
    | Some c => Ok c
    | None => Err "record not found"%string
    end;
  GetRecordBytes := fun r nsid rkey =>
    match demo_lookup (nsid ++ "/" ++ rkey) r with
    | Some c => Ok []
    | None => Err "record not found"%string
    end;
  MST := fun r => r;
  Tree_Copy := fun t => t;
  Tree_RootCID := fun t => Ok (demo_root t);
  NormalizeOps := fun ops => Ok ops;
  InvertOp := demo_invert;
  Directory := list string;
  Identity := string;
  PublicKey := string;
  LookupDID := fun dir did =>
    if existsb (String.eqb did) dir then Ok did else Err "DID not found"%string;
  Identity_PublicKey := fun ident => Ok ident;
  Commit_VerifySignature := fun c pk =>
    match commit_Sig c with
    | [x01] => Ok tt
    | _ => Err "invalid signature"%string
    end
|}.

Definition demo_host : Host := {| Hostname := "pds.example" |}.
Definition demo_account : Account := {| UID := 7 |}.

Definition demo_state : @vstate demo_packages :=
  {| hasWarning := false; events := [] |}.

(** A commit that updates post/1 from CID A to CID B, with the root of the
    tree before the update as its [prevData]. *)
Definition demo_update : RepoOp :=
  {| Action := "update"; Cid_ := Some (demo_cid "B"); Path := "post/1";
     Prev := Some (demo_cid "A") |}.

Definition demo_msg : SyncSubscribeRepos_Commit :=
  {| Blocks := [x01]; Ops := [demo_update];
     PrevData := Some (demo_cid "post/1=A;");
     Rebase := false; Repo_ := "did:plc:alice"; Rev := "aaa"; Seq := 42;
     Time_ := "2024-01-01T00:00:00Z"; TooBig := false |}.

(** The same commit with a [prevData] that is not the root before the
    update. *)
Definition demo_msg_bad_prevData : SyncSubscribeRepos_Commit :=
  {| Blocks := [x01]; Ops := [demo_update];
     PrevData := Some (demo_cid "post/1=C;");
     Rebase := false; Repo_ := "did:plc:alice"; Rev := "aaa"; Seq := 42;
     Time_ := "2024-01-01T00:00:00Z"; TooBig := false |}.

(** The same commit from a sender that leaves [prev] out of its ops. *)
Definition demo_msg_legacy : SyncSubscribeRepos_Commit :=
  {| Blocks := [x01];
     Ops := [{| Action := "update"; Cid_ := Some (demo_cid "B");
                Path := "post/1"; Prev := None |}];
     PrevData := Some (demo_cid "post/1=C;");
     Rebase := false; Repo_ := "did:plc:alice"; Rev := "aaa"; Seq := 42;
     Time_ := "2024-01-01T00:00:00Z"; TooBig := false |}.

(** The same commit from a sender of the old protocol, without
    [prevData]. *)
Definition demo_msg_old : SyncSubscribeRepos_Commit :=
  {| Blocks := [x01]; Ops := [demo_update];
     PrevData := None;
     Rebase := false; Repo_ := "did:plc:alice"; Rev := "aaa"; Seq := 42;
     Time_ := "2024-01-01T00:00:00Z"; TooBig := false |}.

(** The same commit with the deprecated [tooBig] flag set. *)
Definition demo_msg_tooBig : SyncSubscribeRepos_Commit :=
  {| Blocks := [x01]; Ops := [demo_update];
     PrevData := Some (demo_cid "post/1=A;");
     Rebase := false; Repo_ := "did:plc:alice"; Rev := "aaa"; Seq := 42;
     Time_ := "2024-01-01T00:00:00Z"; TooBig := true |}.

Definition demo_sync : SyncSubscribeRepos_Sync :=
  {| sync_Blocks := [x01]; sync_Did := "did:plc:alice"; sync_Rev := "aaa";
     sync_Seq := 43; sync_Time := "2024-01-01T00:00:00Z" |}.

(** A validator whose directory knows nobody, and one that knows alice. *)
Definition demo_validator : @Validator demo_packages :=
  @NewValidator demo_packages (Some []).

Definition demo_validator_alice : @Validator demo_packages :=
  @NewValidator demo_packages (Some ["did:plc:alice"%string]).

End Relay.

(** ** The user-lock table under concurrent [lockUser] calls *)

Module Locks.

(** Addresses of the [userLock] structs that [lockUser] allocates. *)
Definition loc := positive.

(** Arithmetic of [atomic.Int32]. *)
Definition wrap32 (z : Z) : Z := (z + 2 ^ 31) mod 2 ^ 32 - 2 ^ 31.

Record userLock := {
  lk : bool;            (* sync.Mutex: true while locked *)
  waiters : Z           (* atomic.Int32 *)
}.

(** The fields of [Validator] that [lockUser] works on, with the structs
    the map points to. *)
Record Validator := {
  lklk : bool;                    (* sync.Mutex: true while locked *)
  userLocks : gmap Z loc;         (* map[uint64]*userLock *)
  heap : gmap loc userLock
}.

(** [NewValidator]: [userLocks: make(map[uint64]*userLock)]. *)
Definition NewValidator : Validator :=
  {| lklk := false; userLocks := ∅; heap := ∅ |}.

(** What an attempt to run a piece of code that takes a mutex does: it
    runs, it has to wait, or the runtime aborts ("unlock of unlocked
    mutex"). *)
Inductive attempt (A : Type) :=
| Done (a : A)
| Blocked
| Fatal.
Arguments Done {A} a.
Arguments Blocked {A}.
Arguments Fatal {A}.

Definition add_waiters (d : Z) (l : userLock) : userLock :=
  {| lk := lk l; waiters := wrap32 (waiters l + d) |}.

Definition set_lk (b : bool) (l : userLock) : userLock :=
  {| lk := b; waiters := waiters l |}.

(** [lockUser] from [val.lklk.Lock()] to [val.lklk.Unlock()]: look the
    user's lock up or create it, and count one more waiter. *)
Definition lockUser_enter (uid : Z) (val : Validator) : attempt (loc * Validator) :=
  if lklk val then Blocked
  else
    let '(ulk, userLocks1, heap1) :=
      match userLocks val !! uid with
      | Some ulk => (ulk, userLocks val, heap val)
      | None =>
          let ulk := fresh (dom (heap val)) in
          (ulk, <[uid := ulk]> (userLocks val),
           <[ulk := {| lk := false; waiters := 0 |}]> (heap val))
      end in
    Done (ulk, {| lklk := false;
                  userLocks := userLocks1;
                  heap := alter (add_waiters 1) ulk heap1 |}).

(** [ulk.lk.Lock()], after which [lockUser] returns the release function. *)
Definition lockUser_lock (ulk : loc) (val : Validator) : attempt Validator :=
  match heap val !! ulk with
  | Some l =>
      if lk l then Blocked
      else Done {| lklk := lklk val;
                   userLocks := userLocks val;
                   heap := <[ulk := set_lk true l]> (heap val) |}
  | None => Fatal
  end.

(** The release function, from [val.lklk.Lock()] through [ulk.lk.Unlock()]. *)
Definition release_unlock (ulk : loc) (val : Validator) : attempt Validator :=
  if lklk val then Blocked
  else
    match heap val !! ulk with
    | Some l =>
        if lk l then
          Done {| lklk := true;
                  userLocks := userLocks val;
                  heap := <[ulk := set_lk false l]> (heap val) |}
        else Fatal
    | None => Fatal
    end.

(** The release function, from [ulk.waiters.Add(-1)] to the deferred
    [val.lklk.Unlock()]. *)
Definition release_finish (uid : Z) (ulk : loc) (val : Validator) : Validator :=
  let heap1 := alter (add_waiters (-1)) ulk (heap val) in
  let nv := match heap1 !! ulk with Some l => waiters l | None => 0 end in
  {| lklk := false;
     userLocks := if nv =? 0 then delete uid (userLocks val) else userLocks val;
     heap := heap1 |}.

(** Where a call of [lockUser] and of the release function it returned
    stands. *)
Inductive call :=
| Entered (uid : Z) (ulk : loc)      (* counted as a waiter, in [ulk.lk.Lock()] *)
| Locked (uid : Z) (ulk : loc)       (* [lockUser] returned, release not yet called *)
| Unlocking (uid : Z) (ulk : loc)    (* in the release function, past [ulk.lk.Unlock()] *)
| Released.                          (* the release function returned *)

Record state := { validator : Validator; calls : list call }.

Definition init : state := {| validator := NewValidator; calls := [] |}.

Inductive step : state -> state -> Prop :=
| step_enter uid ulk val' s :
    lockUser_enter uid (validator s) = Done (ulk, val') ->
    step s {| validator := val'; calls := calls s ++ [Entered uid ulk] |}
| step_lock i uid ulk val' s :
    calls s !! i = Some (Entered uid ulk) ->
    lockUser_lock ulk (validator s) = Done val' ->
    step s {| validator := val'; calls := <[i := Locked uid ulk]> (calls s) |}
| step_unlock i uid ulk val' s :
    calls s !! i = Some (Locked uid ulk) ->
    release_unlock ulk (validator s) = Done val' ->
    step s {| validator := val'; calls := <[i := Unlocking uid ulk]> (calls s) |}
| step_finish i uid ulk s :
    calls s !! i = Some (Unlocking uid ulk) ->
    step s {| validator := release_finish uid ulk (validator s);
              calls := <[i := Released]> (calls s) |}.

Fixpoint count (f : call -> bool) (cs : list call) : Z :=
  match cs with
  | [] => 0
  | c :: cs => (if f c then 1 else 0) + count f cs
  end.

(** The call holds a pointer to the lock of [uid] and is counted in its
    [waiters]. *)
Definition waits_on (uid : Z) (c : call) : bool :=
  match c with
  | Entered u _ | Locked u _ | Unlocking u _ => u =? uid
  | Released => false
  end.

(** The call holds the mutex of the lock of [uid]. *)
Definition holds (uid : Z) (c : call) : bool :=
  match c with
  | Locked u _ => u =? uid
  | _ => false
  end.

Definition in_flight (c : call) : bool :=
  match c with Released => false | _ => true end.

Definition unlocking (c : call) : bool :=
  match c with Unlocking _ _ => true | _ => false end.

(** Executions from a new validator in which fewer than [2^31] calls are
    under way at any time. *)
Inductive reachable : state -> Prop :=
| reachable_init : reachable init
| reachable_step s s' :
    reachable s -> step s s' -> count in_flight (calls s') < 2 ^ 31 ->
    reachable s'.

(** Every [lockUser] call has been matched by its release. *)
Definition balanced (s : state) : Prop :=
  Forall (fun c => c = Released) (calls s).

(** The user and the lock struct a call that is under way refers to. *)
Definition call_ref (c : call) : option (Z * loc) :=
  match c with
  | Entered u p | Locked u p | Unlocking u p => Some (u, p)
  | Released => None
  end.

(** What holds of the table between any two steps: [lklk] is held by the
    one call inside the release function; a user has an entry exactly
    when calls wait on it, its [waiters] counts them, and its mutex is
    locked exactly when one of them holds it; every call under way points
    to the struct the table has for its user; no two users share a
    struct. *)
Record Inv (s : state) : Prop := {
  inv_bound : count in_flight (calls s) < 2 ^ 31;
  inv_lklk :
    count unlocking (calls s) = if lklk (validator s) then 1 else 0;
  inv_free : forall uid,
    userLocks (validator s) !! uid = None ->
    count (waits_on uid) (calls s) = 0;
  inv_entry : forall uid p,
    userLocks (validator s) !! uid = Some p ->
    exists l, heap (validator s) !! p = Some l
      /\ waiters l = count (waits_on uid) (calls s)
      /\ 0 < waiters l
      /\ count (holds uid) (calls s) = if lk l then 1 else 0;
  inv_ref : forall c uid p,
    c ∈ calls s -> call_ref c = Some (uid, p) ->
    userLocks (validator s) !! uid = Some p;
  inv_inj : forall u1 u2 p,
    userLocks (validator s) !! u1 = Some p ->
    userLocks (validator s) !! u2 = Some p -> u1 = u2
}.

(** [lockUser] and the release function when nothing else runs in between. *)
Definition lockUser (uid : Z) (val : Validator) : attempt (loc * Validator) :=
  match lockUser_enter uid val with
  | Done (ulk, val1) =>
      match lockUser_lock ulk val1 with
      | Done val2 => Done (ulk, val2)
      | Blocked => Blocked
      | Fatal => Fatal
      end
  | Blocked => Blocked
  | Fatal => Fatal
  end.

Definition release (uid : Z) (ulk : loc) (val : Validator) : attempt Validator :=
  match release_unlock ulk val with
  | Done val1 => Done (release_finish uid ulk val1)
  | Blocked => Blocked
  | Fatal => Fatal
  end.

(** A schedule names the steps of an execution; [exec] and [run] carry
    it out, and stop with [None] at a step that cannot be taken. *)
Inductive action :=
| Enter (uid : Z)
| Lock (i : nat)
| Unlock (i : nat)
| Finish (i : nat).

Definition exec (a : action) (s : state) : option state :=
  match a with
  | Enter uid =>
      match lockUser_enter uid (validator s) with
      | Done (ulk, val') =>
          Some {| validator := val'; calls := calls s ++ [Entered uid ulk] |}
      | _ => None
      end
  | Lock i =>
      match calls s !! i with
      | Some (Entered uid ulk) =>
          match lockUser_lock ulk (validator s) with
          | Done val' =>
              Some {| validator := val'; calls := <[i := Locked uid ulk]> (calls s) |}
          | _ => None
          end
      | _ => None
      end
  | Unlock i =>
      match calls s !! i with
      | Some (Locked uid ulk) =>
          match release_unlock ulk (validator s) with
          | Done val' =>
              Some {| validator := val'; calls := <[i := Unlocking uid ulk]> (calls s) |}
          | _ => None
          end
      | _ => None
      end
  | Finish i =>
      match calls s !! i with
      | Some (Unlocking uid ulk) =>
          Some {| validator := release_finish uid ulk (validator s);
                  calls := <[i := Released]> (calls s) |}
      | _ => None
      end
  end.

Fixpoint run (sched : list action) (s : state) : option state :=
  match sched with
  | [] => Some s
  | a :: sched =>
      match exec a s with
      | Some s' =>
          if count in_flight (calls s') <? 2 ^ 31 then run sched s' else None
      | None => None
      end
  end.

(** Two calls for user 7 that overlap, and one for user 9 in between. *)
Definition demo_schedule : list action :=
  [Enter 7; Enter 7; Lock 0; Enter 9; Lock 2; Unlock 0; Finish 0;
   Lock 1; Unlock 2; Finish 2; Unlock 1; Finish 1].

Definition demo_state : state :=
  default init (run demo_schedule init).

(** The same schedule, stopped while the first call for user 7 holds the
    lock and the second waits for it. *)
Definition demo_contended : state :=
  default init (run (take 5 demo_schedule) init).

End Locks.

(** ** Package lexicon: the catalog of schemas *)

Module Lexicon.

(** [strings.Contains(s, substr)] *)
Fixpoint Contains (s substr : string) : bool :=
  String.prefix substr s
  || match s with
     | EmptyString => false
     | String _ s' => Contains s' substr
     end.

(** The dynamic type of [SchemaDef.Inner], as far as [AddSchemaFile]
    tells the cases apart; [P] is what a definition holds besides. *)
Inductive SchemaInner (P : Type) : Type :=
| SchemaRecord (p : P)
| SchemaQuery (p : P)
| SchemaProcedure (p : P)
| SchemaSubscription (p : P)
| SchemaToken (fullName : string) (p : P)
| SchemaOther (p : P).
Arguments SchemaRecord {P} p.
Arguments SchemaQuery {P} p.
Arguments SchemaProcedure {P} p.
Arguments SchemaSubscription {P} p.
Arguments SchemaToken {P} fullName p.
Arguments SchemaOther {P} p.

(** The methods of [SchemaDef] that [AddSchemaFile] calls. *)
Class SchemaOps := {
  Payload : Type;
  CheckErr : Type;
  (* def.SetBase(base), on a pointer receiver: the definition after the call *)
  SetBase : SchemaInner Payload -> string -> SchemaInner Payload;
  (* def.CheckSchema() *)
  CheckSchema : SchemaInner Payload -> option CheckErr
}.

Section Catalog.

Context `{SchemaOps}.

Record SchemaDef := { Inner : SchemaInner Payload }.

Record Schema := { ID : string; Def : SchemaInner Payload }.

(** [SchemaFile]; [Defs] is a Go map, given here by its entries in the
    order in which a [range] over it visits them. *)
Record SchemaFile := {
  sf_ID : string;
  Defs : list (string * SchemaDef)
}.

Inductive error :=
| ErrEmptyName                      (* "tried to resolve empty string name" *)
| ErrNotFound (ref : string)        (* "schema not found in catalog: %s" *)
| ErrNameInvalid (frag : string)    (* "schema name invalid: %s" *)
| ErrAlreadyContained (name : string)
                                    (* "catalog already contained a schema with name: %s" *)
| ErrNotMain (frag : string)
        (* "record, query, procedure, and subscription types must be 'main', not: %s" *)
| ErrCheckSchema (e : CheckErr).    (* the error of def.CheckSchema() *)

(** [BaseCatalog], a struct around [schemas map[string]Schema]. *)
Record BaseCatalog := { schemas : gmap string Schema }.

Definition NewBaseCatalog : BaseCatalog := {| schemas := ∅ |}.

Definition Resolve (c : BaseCatalog) (ref : string) : result error Schema :=
  if String.eqb ref "" then Err ErrEmptyName
  else
    (* default to #main if name doesn't have a fragment *)
    let ref := if negb (Contains ref "#") then (ref ++ "#main")%string else ref in
    match schemas c !! ref with
    | Some s => Ok s
    | None => Err (ErrNotFound ref)
    end.

(** The body of the loop of [AddSchemaFile] for one entry of [sf.Defs]:
    the catalog after it, and the error it returns with, if any. *)
Definition AddSchemaFile_entry (base : string) (c : BaseCatalog)
  (frag : string) (def : SchemaDef) : BaseCatalog * option error :=
  if (String.length frag =? 0)%nat || Contains frag "#" || Contains frag "." then
    (c, Some (ErrNameInvalid frag))
  else
    let name := (base ++ "#" ++ frag)%string in
    match schemas c !! name with
    | Some _ => (c, Some (ErrAlreadyContained name))
    | None =>
        let checked : result error SchemaDef :=
          match Inner def with
          | SchemaRecord _ | SchemaQuery _ | SchemaProcedure _
          | SchemaSubscription _ =>
              if negb (String.eqb frag "main") then Err (ErrNotMain frag)
              else Ok def
          | SchemaToken _ p =>
              (* add fully-qualified name to token *)
              Ok {| Inner := SchemaToken name p |}
          | SchemaOther _ => Ok def
          end in
        match checked with
        | Err e => (c, Some e)
        | Ok def =>
            let def := {| Inner := SetBase (Inner def) base |} in
            match CheckSchema (Inner def) with
            | Some err => (c, Some (ErrCheckSchema err))
            | None =>
                let s := {| ID := name; Def := Inner def |} in
                ({| schemas := <[name := s]> (schemas c) |}, None)
            end
        end
    end.

Fixpoint AddSchemaFile_range (base : string) (c : BaseCatalog)
  (defs : list (string * SchemaDef)) : BaseCatalog * option error :=
  match defs with
  | [] => (c, None)
  | (frag, def) :: rest =>
      match AddSchemaFile_entry base c frag def with
      | (c', None) => AddSchemaFile_range base c' rest
      | (c', Some err) => (c', Some err)
      end
  end.

(** [AddSchemaFile] works on the catalog in place: the catalog it leaves
    behind, and its error. *)
Definition AddSchemaFile (c : BaseCatalog) (sf : SchemaFile)
  : BaseCatalog * option error :=
  let base := sf_ID sf in
  AddSchemaFile_range base c (Defs sf).

(** The schema [AddSchemaFile] stores for an entry it accepts. *)
Definition stored (base frag : string) (def : SchemaDef) : Schema :=
  let name := (base ++ "#" ++ frag)%string in
  let inner := match Inner def with
               | SchemaToken _ p => SchemaToken name p
               | inner => inner
               end in
  {| ID := name; Def := SetBase inner base |}.

(** The definition has one of the primary types. *)
Definition primary (def : SchemaDef) : bool :=
  match Inner def with
  | SchemaRecord _ | SchemaQuery _ | SchemaProcedure _ | SchemaSubscription _ => true
  | _ => false
  end.

(** What [AddSchemaFile] asks of an entry, besides a free name: a
    fragment that is not empty and has no '#' and no '.', the fragment
    "main" for a primary type, and a definition that passes
    [CheckSchema] once its base is set. *)
Definition entry_valid (base frag : string) (def : SchemaDef) : Prop :=
  frag <> ""%string
  /\ Contains frag "#" = false
  /\ Contains frag "." = false
  /\ (primary def = true -> frag = "main"%string)
  /\ CheckSchema (Def (stored base frag def)) = None.

(** The names and schemas that [AddSchemaFile] stores for a list of
    entries it accepts. *)
Definition entries (base : string) (defs : list (string * SchemaDef))
  : list (string * Schema) :=
  map (fun fd => ((base ++ "#" ++ fst fd)%string, stored base (fst fd) (snd fd)))
      defs.

(** Every schema of the catalog is stored under its own [ID]. *)
Definition well_keyed (c : BaseCatalog) : Prop :=
  forall name s, schemas c !! name = Some s -> ID s = name.

End Catalog.

(** A small instance: definitions hold a number, [SetBase] leaves them as
    they are, and [CheckSchema] refuses the number 0. *)
Definition demo_ops : SchemaOps := {|
  Payload := Z;
  CheckErr := string;
  SetBase := fun inner _ => inner;
  CheckSchema := fun inner =>
    match inner with
    | SchemaRecord 0 | SchemaQuery 0 | SchemaProcedure 0
    | SchemaSubscription 0 | SchemaToken _ 0 | SchemaOther 0 =>
        Some "empty definition"%string
    | _ => None
    end
|}.

Definition demo_file : @SchemaFile demo_ops :=
  {| sf_ID := "app.bsky.feed.post";
     Defs := [("main"%string, @Build_SchemaDef demo_ops (SchemaRecord 1));
              ("replyRef"%string, @Build_SchemaDef demo_ops (SchemaOther 2));
              ("pinned"%string, @Build_SchemaDef demo_ops (SchemaToken "" 3))] |}.

(** The same file as a [range] in another order visits it. *)
Definition demo_file_reordered : @SchemaFile demo_ops :=
  {| sf_ID := "app.bsky.feed.post";
     Defs := [("pinned"%string, @Build_SchemaDef demo_ops (SchemaToken "" 3));
              ("main"%string, @Build_SchemaDef demo_ops (SchemaRecord 1));
              ("replyRef"%string, @Build_SchemaDef demo_ops (SchemaOther 2))] |}.

Definition demo_catalog : @BaseCatalog demo_ops :=
  fst (AddSchemaFile (H := demo_ops) NewBaseCatalog demo_file).

End Lexicon.

(** ** Package engine: de-duplication and circuit breakers of actions *)

Module Engine.

(** [countstore.PeriodTotal], [PeriodDay] and [PeriodHour]. *)
Inductive Period := PeriodTotal | PeriodDay | PeriodHour.

(** What the functions below call into: the count store behind
    [eng.Counters], the helpers [dedupeStrings] and [ReasonShortName], and
    the quotas of the package. *)
Class Deps := {
  Store : Type;
  StoreErr : Type;
  (* eng.Counters.GetCount(ctx, name, val, period) *)
  GetCount : Store -> string -> string -> Period -> result StoreErr Z;
  (* eng.Counters.Increment(ctx, name, val): the store after the call,
     and its error *)
  Increment : Store -> string -> string -> Store * option StoreErr;
  dedupeStrings : list string -> list string;
  ReasonShortName : string -> string;
  QuotaModReportDay : Z;
  QuotaModEscalationDay : Z;
  QuotaModTakedownDay : Z
}.

Record ModReport := { ReasonType : string; Comment : string }.

Inductive logline :=
| Debug (msg : string)
| Warn (msg : string).

Section Actions.

Context `{Deps}.

(** [fmt.Errorf(msg + ": %w", err)] *)
Inductive error :=
| Errorf (msg : string) (err : StoreErr).

(** The fields of [Engine] the functions work on. *)
Record Engine := { Counters : Store; Logger : list logline }.

Definition logged (l : logline) (eng : Engine) : Engine :=
  {| Counters := Counters eng; Logger := Logger eng ++ [l] |}.

Definition counted (st : Store) (eng : Engine) : Engine :=
  {| Counters := st; Logger := Logger eng |}.

(** [for _, e := range es { if val == e { exists = true; break } }] *)
Fixpoint range_match (val : string) (es : list string) (exists_ : bool) : bool :=
  match es with
  | [] => exists_
  | e :: es => if String.eqb val e then true else range_match val es exists_
  end.

Fixpoint dedupeLabelActions_range (vals existing existingNegated : list string)
  (newLabels : list string) : list string :=
  match vals with
  | [] => newLabels
  | val :: vals =>
      let exists_ := false in
      let exists_ := range_match val existingNegated exists_ in
      let exists_ := range_match val existing exists_ in
      let newLabels := if negb exists_ then newLabels ++ [val] else newLabels in
      dedupeLabelActions_range vals existing existingNegated newLabels
  end.

Definition dedupeLabelActions (labels existing existingNegated : list string)
  : list string :=
  dedupeLabelActions_range (dedupeStrings labels) existing existingNegated [].

Fixpoint dedupeFlagActions_range (vals existing : list string)
  (newFlags : list string) : list string :=
  match vals with
  | [] => newFlags
  | val :: vals =>
      let exists_ := false in
      let exists_ := range_match val existing exists_ in
      let newFlags := if negb exists_ then newFlags ++ [val] else newFlags in
      dedupeFlagActions_range vals existing newFlags
  end.

Definition dedupeFlagActions (flags existing : list string) : list string :=
  dedupeFlagActions_range (dedupeStrings flags) existing [].

Definition counterName (r : ModReport) : string :=
  ("automod-account-report-" ++ ReasonShortName (ReasonType r))%string.

Fixpoint dedupeReportActions_range (subject : string) (reports : list ModReport)
  (newReports : list ModReport) (eng : Engine)
  : Engine * result error (list ModReport) :=
  match reports with
  | [] => (eng, Ok newReports)
  | r :: reports =>
      match GetCount (Counters eng) (counterName r) subject PeriodDay with
      | Err err => (eng, Err (Errorf "checking report de-dupe counts" err))
      | Ok existing =>
          if 0 <? existing then
            let eng := logged (Debug "skipping account report due to counter") eng in
            dedupeReportActions_range subject reports newReports eng
          else
            match Increment (Counters eng) (counterName r) subject with
            | (st, Some err) =>
                (counted st eng, Err (Errorf "incrementing report de-dupe count" err))
            | (st, None) =>
                dedupeReportActions_range subject reports (newReports ++ [r])
                  (counted st eng)
            end
      end
  end.

Definition dedupeReportActions (subject : string) (reports : list ModReport)
  (eng : Engine) : Engine * result error (list ModReport) :=
  dedupeReportActions_range subject reports [] eng.

Definition circuitBreakReports (reports : list ModReport) (eng : Engine)
  : Engine * result error (list ModReport) :=
  if (length reports =? 0)%nat then (eng, Ok [])
  else
    match GetCount (Counters eng) "automod-quota" "report" PeriodDay with
    | Err err => (eng, Err (Errorf "checking report action quota" err))
    | Ok c =>
        if QuotaModReportDay <=? c then
          (logged (Warn "CIRCUIT BREAKER: automod reports") eng, Ok [])
        else
          match Increment (Counters eng) "automod-quota" "report" with
          | (st, Some err) =>
              (counted st eng, Err (Errorf "incrementing report action quota" err))
          | (st, None) => (counted st eng, Ok reports)
          end
    end.

Definition circuitBreakEscalation (escalate : bool) (eng : Engine)
  : Engine * result error bool :=
  if negb escalate then (eng, Ok false)
  else
    match GetCount (Counters eng) "automod-quota" "escalate" PeriodDay with
    | Err err => (eng, Err (Errorf "checking escalate action quota" err))
    | Ok c =>
        if QuotaModEscalationDay <=? c then
          (logged (Warn "CIRCUIT BREAKER: automod escalation") eng, Ok false)
        else
          match Increment (Counters eng) "automod-quota" "escalate" with
          | (st, Some err) =>
              (counted st eng, Err (Errorf "incrementing escalate action quota" err))
          | (st, None) => (counted st eng, Ok escalate)
          end
    end.

Definition circuitBreakTakedown (takedown : bool) (eng : Engine)
  : Engine * result error bool :=
  if negb takedown then (eng, Ok false)
  else
    match GetCount (Counters eng) "automod-quota" "takedown" PeriodDay with
    | Err err => (eng, Err (Errorf "checking takedown action quota" err))
    | Ok c =>
        if QuotaModTakedownDay <=? c then
          (logged (Warn "CIRCUIT BREAKER: automod takedowns") eng, Ok false)
        else
          match Increment (Counters eng) "automod-quota" "takedown" with
          | (st, Some err) =>
              (counted st eng, Err (Errorf "incrementing takedown action quota" err))
          | (st, None) => (counted st eng, Ok takedown)
          end
    end.

(** What is asked of a count store for the de-duplication of reports to
    work: counts are not negative, and a successful [Increment] adds one
    to the count of the day of its counter and leaves the other counters
    as they are. *)
Record store_laws : Prop := {
  law_nonneg : forall st name val k,
    GetCount st name val PeriodDay = Ok k -> 0 <= k;
  law_incr : forall st st' name val k,
    Increment st name val = (st', None) ->
    GetCount st name val PeriodDay = Ok k ->
    GetCount st' name val PeriodDay = Ok (k + 1);
  law_frame : forall st st' name val name' val',
    Increment st name val = (st', None) ->
    (name', val') <> (name, val) ->
    GetCount st' name' val' PeriodDay = GetCount st name' val' PeriodDay
}.

End Actions.

(** A count store in memory: the list of the increments made, a counter
    and a value each; the count of the day is the number of increments of
    that counter and value. [dedupeStrings] keeps the first occurrence of each string,
    and [ReasonShortName] leaves the reason as it is. *)
Fixpoint demo_dedupe (seen : list string) (l : list string) : list string :=
  match l with
  | [] => []
  | v :: l =>
      if existsb (String.eqb v) seen then demo_dedupe seen l
      else v :: demo_dedupe (v :: seen) l
  end.

Definition demo_count (name val : string) (st : list (string * string)) : nat :=
  length (List.filter (fun e => String.eqb (fst e) name && String.eqb (snd e) val) st).

Definition demo_deps : Deps := {|
  Store := list (string * string);
  StoreErr := string;
  GetCount := fun st name val _ => Ok (Z.of_nat (demo_count name val st));
  Increment := fun st name val => ((name, val) :: st, None);
  dedupeStrings := demo_dedupe [];
  ReasonShortName := fun s => s;
  QuotaModReportDay := 2;
  QuotaModEscalationDay := 2;
  QuotaModTakedownDay := 2
|}.

Definition demo_engine : @Engine demo_deps :=
  @Build_Engine demo_deps ([] : list (string * string)) [].

Definition demo_reports : list ModReport :=
  [{| ReasonType := "spam"; Comment := "first" |};
   {| ReasonType := "rude"; Comment := "second" |};
   {| ReasonType := "spam"; Comment := "third" |}].

End Engine.

(** ** More vocabulary for the validator *)

Section ValidatorVocabulary.

Import Relay.

Context `{Packages}.

(** What the loop that loads the records has established of one op when
    it goes on to the next: a create or update with a CID names a path
    whose record is in the repo fragment under that CID, with its bytes. *)
Definition record_checked (repoFragment : Repo) (op : RepoOp) : Prop :=
  Action op = "create"%string \/ Action op = "update"%string ->
  forall c, Cid_ op = Some c ->
  exists nsid rkey,
    ParseRepoPath (Path op) = Ok (nsid, rkey)
    /\ GetRecordCID repoFragment nsid rkey = Ok c
    /\ is_Ok (GetRecordBytes repoFragment nsid rkey) = true.

(** The message with its [tooBig] and [rebase] flags cleared. *)
Definition clear_flags (msg : SyncSubscribeRepos_Commit) : SyncSubscribeRepos_Commit :=
  {| Blocks := Blocks msg; Ops := Ops msg; PrevData := PrevData msg;
     Rebase := false; Repo_ := Repo_ msg; Rev := Rev msg; Seq := Seq msg;
     Time_ := Time_ msg; TooBig := false |}.

(** [agree m m']: the two computations return the same value or error,
    from whatever states they start. *)
Definition agree {A} (m m' : M A) : Prop :=
  forall s s', fst (m s) = fst (m' s').

End ValidatorVocabulary.

(** * Proofs *)

(** ** Byte strings and big integers *)

Section Bytes.

Lemma Z_of_byte_range b : 0 <= Z_of_byte b < 256.
Proof.
  unfold Z_of_byte. pose proof (Byte.to_N_bounded b). lia.
Qed.

Lemma Z_of_byte_of_Z z : Z_of_byte (byte_of_Z z) = z mod 256.
Proof.
  unfold byte_of_Z, Z_of_byte.
  pose proof (Z.mod_pos_bound z 256 ltac:(lia)) as Hz.
  destruct (Byte.of_N (Z.to_N (z mod 256))) as [b|] eqn:E.
  - apply Byte.to_of_N in E. rewrite E. lia.
  - apply Byte.of_N_None_iff in E. lia.
Qed.

Lemma SetBytes_snoc buf b : SetBytes (buf ++ [b]) = SetBytes buf * 256 + Z_of_byte b.
Proof. unfold SetBytes. by rewrite fold_left_app. Qed.

Lemma length_be_digits len x : length (be_digits len x) = len.
Proof.
  revert x. induction len as [|len IH]; intros x; simpl; [done |].
  rewrite length_app, IH. simpl. lia.
Qed.

Lemma SetBytes_be_digits len x :
  SetBytes (be_digits len x) = x mod 256 ^ Z.of_nat len.
Proof.
  revert x. induction len as [|len IH]; intros x.
  - simpl. by rewrite Z.mod_1_r.
  - cbn [be_digits]. rewrite SetBytes_snoc, IH, Z_of_byte_of_Z.
    rewrite Nat2Z.inj_succ, Z.pow_succ_r by lia.
    rewrite Z.rem_mul_r by lia. lia.
Qed.

Lemma FillBytes_SetBytes x len buf :
  0 <= x -> FillBytes x len = Some buf ->
  length buf = len /\ SetBytes buf = x.
Proof.
  unfold FillBytes. intros Hx Hfill. rewrite Z.abs_eq in Hfill by done.
  destruct (Z.ltb_spec x (256 ^ Z.of_nat len)); simplify_eq.
  split; [apply length_be_digits |].
  rewrite SetBytes_be_digits. apply Z.mod_small. lia.
Qed.

End Bytes.

(** ** P-256 signatures *)

Section P256Proofs.

Import Crypto.

Context `{ECDSA}.

Lemma curveP256Order_bound : 2 < curveP256Order < 256 ^ Z.of_nat 32.
Proof. by vm_compute. Qed.

Lemma sigSIsLowS_P256_spec s :
  sigSIsLowS_P256 s = true <-> s <= curveP256Order / 2.
Proof.
  unfold sigSIsLowS_P256. rewrite negb_true_iff, Z.ltb_ge. done.
Qed.

Lemma sigSToLowS_P256_low s :
  0 < s < curveP256Order ->
  0 < sigSToLowS_P256 s < curveP256Order
  /\ sigSIsLowS_P256 (sigSToLowS_P256 s) = true.
Proof.
  intros Hs. unfold sigSToLowS_P256.
  destruct (sigSIsLowS_P256 s) eqn:Hlow; [done |].
  apply not_true_iff_false in Hlow. rewrite sigSIsLowS_P256_spec in Hlow.
  split; [lia |]. apply sigSIsLowS_P256_spec.
  assert (curveP256Order = 2 * (curveP256Order / 2) + 1) by (by vm_compute).
  lia.
Qed.

Lemma HashAndVerify_Ok_iff (k : PublicKeyP256) (content sig : list byte) :
  HashAndVerify k content sig = Ok tt <->
  length sig = 64%nat
  /\ ecdsa_Verify (pubP256 k) (sha256_Sum256 content)
       (SetBytes (take 32 sig)) (SetBytes (drop 32 sig)) = true
  /\ SetBytes (drop 32 sig) <= curveP256Order / 2.
Proof.
  unfold HashAndVerify. rewrite <- sigSIsLowS_P256_spec.
  destruct (Nat.eqb_spec (length sig) 64) as [Hlen | Hlen]; simpl.
  - destruct (ecdsa_Verify _ _ _ _); simpl.
    + destruct (sigSIsLowS_P256 _); simpl; [done |].
      split; [done | by intros (_ & _ & ?)].
    + split; [done | by intros (_ & ? & _)].
  - split; [done | by intros (? & _)].
Qed.

(** C3: [HashAndVerify] rejects every 64-byte signature whose [s] is above
    half the curve order, whatever ECDSA verification says of it, and it
    returns nil exactly when the signature has 64 bytes, ECDSA
    verification of the SHA-256 digest succeeds and [s] is low-S. *)
Theorem HashAndVerify_requires_low_S (k : PublicKeyP256) (content sig : list byte) :
  let r := SetBytes (take 32 sig) in
  let s := SetBytes (drop 32 sig) in
  (length sig = 64%nat -> curveP256Order / 2 < s ->
   HashAndVerify k content sig = Err ErrInvalidSignature)
  /\ (HashAndVerify k content sig = Ok tt <->
      length sig = 64%nat
      /\ ecdsa_Verify (pubP256 k) (sha256_Sum256 content) r s = true
      /\ s <= curveP256Order / 2).
Proof.
  intros r s. split; [|apply HashAndVerify_Ok_iff].
  intros Hlen Hhigh. unfold HashAndVerify. fold r s.
  rewrite Hlen. simpl.
  destruct (ecdsa_Verify (pubP256 k) (sha256_Sum256 content) r s); [|done].
  simpl. destruct (sigSIsLowS_P256 s) eqn:Hlow; [|done].
  apply sigSIsLowS_P256_spec in Hlow. lia.
Qed.

Lemma SetBytes_nonneg buf : 0 <= SetBytes buf.
Proof.
  unfold SetBytes.
  assert (Hfold : forall acc, 0 <= acc ->
            0 <= fold_left (fun acc b => acc * 256 + Z_of_byte b) buf acc).
  { induction buf as [|b buf IH]; intros acc Hacc; simpl; [done |].
    apply IH. pose proof (Z_of_byte_range b). lia. }
  by apply Hfold.
Qed.

(** X12: [HashAndVerify] accepts at most one of the two signatures that
    ECDSA accepts for one [r]: when it accepts a signature [(r, s)], it
    rejects the signature with the same [r] and [n - s] in place of [s]. *)
Theorem HashAndVerify_not_malleable (k : PublicKeyP256) (content sig : list byte) :
  HashAndVerify k content sig = Ok tt ->
  HashAndVerify k content
    (take 32 sig ++ be_digits 32 (curveP256Order - SetBytes (drop 32 sig)))
  = Err ErrInvalidSignature.
Proof.
  intros (Hlen & _ & Hlow)%HashAndVerify_Ok_iff.
  pose proof (SetBytes_nonneg (drop 32 sig)) as Hs.
  pose proof curveP256Order_bound as Hn.
  assert (Hodd : curveP256Order = 2 * (curveP256Order / 2) + 1) by (by vm_compute).
  assert (Htake : length (take 32 sig) = 32%nat) by (rewrite length_take; lia).
  pose proof (length_be_digits 32 (curveP256Order - SetBytes (drop 32 sig)))
    as Hlsb.
  pose proof (SetBytes_be_digits 32 (curveP256Order - SetBytes (drop 32 sig)))
    as Hsb.
  rewrite Z.mod_small in Hsb by lia.
  set (sb := be_digits 32 (curveP256Order - SetBytes (drop 32 sig))) in *.
  clearbody sb. unfold HashAndVerify.
  rewrite length_app, Htake, Hlsb. simpl.
  rewrite drop_app_length', Hsb by done.
  destruct (ecdsa_Verify _ _ _ _); [|done]. simpl.
  destruct (sigSIsLowS_P256 _) eqn:Hlow'; [|done].
  apply sigSIsLowS_P256_spec in Hlow'. lia.
Qed.

Section RoundTrip.

(** What the round trip needs of Go's ECDSA: [Sign] returns [r] and [s]
    in [1, n-1]; what it returns verifies under the public key of the
    signing key; and [(r, n - s)] verifies whenever [(r, s)] does. *)
Hypothesis ecdsa_Sign_range : forall rand priv hash r s,
  ecdsa_Sign rand priv hash = Some (r, s) ->
  0 < r < curveP256Order /\ 0 < s < curveP256Order.
Hypothesis ecdsa_Sign_Verify : forall rand priv hash r s,
  ecdsa_Sign rand priv hash = Some (r, s) ->
  ecdsa_Verify (ecdsa_Public priv) hash r s = true.
Hypothesis ecdsa_Verify_neg : forall pub hash r s,
  0 < s < curveP256Order ->
  ecdsa_Verify pub hash r s = true ->
  ecdsa_Verify pub hash r (curveP256Order - s) = true.

(** C9: [HashAndSign] does not panic; when [ecdsa.Sign] succeeds it
    returns a 64-byte signature, and [HashAndVerify] of the public key of
    the signing key accepts that signature on the same content. *)
Theorem HashAndSign_HashAndVerify rand (k : PrivateKeyP256) (content : list byte) :
  match HashAndSign rand k content with
  | Signed sig =>
      length sig = 64%nat
      /\ forall pub, Public k = Some pub -> HashAndVerify pub content sig = Ok tt
  | SignError e =>
      ecdsa_Sign rand (privP256 k) (sha256_Sum256 content) = None
  | SignPanic => False
  end.
Proof.
  unfold HashAndSign.
  destruct (ecdsa_Sign rand (privP256 k) (sha256_Sum256 content))
    as [[r s]|] eqn:Hsign; [|done].
  destruct (ecdsa_Sign_range _ _ _ _ _ Hsign) as [Hr Hs].
  destruct (sigSToLowS_P256_low s Hs) as [Hs' Hlow].
  pose proof curveP256Order_bound as Hn.
  assert (Hfr : FillBytes r 32 = Some (be_digits 32 r)).
  { unfold FillBytes. rewrite Z.abs_eq by lia.
    by destruct (Z.ltb_spec r (256 ^ Z.of_nat 32)); [|lia]. }
  assert (Hfs : FillBytes (sigSToLowS_P256 s) 32
                = Some (be_digits 32 (sigSToLowS_P256 s))).
  { unfold FillBytes. rewrite Z.abs_eq by lia.
    by destruct (Z.ltb_spec (sigSToLowS_P256 s) (256 ^ Z.of_nat 32)); [|lia]. }
  rewrite Hfr, Hfs.
  destruct (FillBytes_SetBytes r 32 _ (Z.lt_le_incl _ _ (proj1 Hr)) Hfr)
    as [Hlr Hvr].
  destruct (FillBytes_SetBytes _ 32 _ (Z.lt_le_incl _ _ (proj1 Hs')) Hfs)
    as [Hls Hvs].
  split; [rewrite length_app; lia |].
  intros pub Hpub. unfold Public in Hpub.
  destruct (pub_ensureBytes _); simplify_eq.
  apply HashAndVerify_Ok_iff.
  rewrite take_app_length' by done. rewrite drop_app_length' by done.
  rewrite Hvr, Hvs, length_app, Hlr, Hls. simpl.
  split; [done |].
  split; [| by apply sigSIsLowS_P256_spec].
  unfold sigSToLowS_P256.
  destruct (sigSIsLowS_P256 s); eauto.
Qed.

(** X13: when [HashAndSign] returns a signature, it is the 64 bytes of
    the [r] that [ecdsa.Sign] produced followed by those of its [s] or,
    when that [s] is above half the curve order, of [n - s]; the [s] of
    the signature returned is never above half the curve order. *)
Theorem HashAndSign_low_S rand (k : PrivateKeyP256) (content sig : list byte) :
  HashAndSign rand k content = Signed sig ->
  exists r s,
    ecdsa_Sign rand (privP256 k) (sha256_Sum256 content) = Some (r, s)
    /\ length sig = 64%nat
    /\ SetBytes (take 32 sig) = r
    /\ SetBytes (drop 32 sig)
       = (if s <=? curveP256Order / 2 then s else curveP256Order - s)
    /\ SetBytes (drop 32 sig) <= curveP256Order / 2.
Proof.
  unfold HashAndSign.
  destruct (ecdsa_Sign rand (privP256 k) (sha256_Sum256 content))
    as [[r s]|] eqn:Hsign; [|done].
  destruct (ecdsa_Sign_range _ _ _ _ _ Hsign) as [Hr Hs].
  destruct (sigSToLowS_P256_low s Hs) as [Hs' Hlow].
  destruct (FillBytes r 32) as [rb|] eqn:Hfr; [|done].
  destruct (FillBytes (sigSToLowS_P256 s) 32) as [sb|] eqn:Hfs; [|done].
  intros [= <-].
  destruct (FillBytes_SetBytes r 32 _ (Z.lt_le_incl _ _ (proj1 Hr)) Hfr)
    as [Hlr Hvr].
  destruct (FillBytes_SetBytes _ 32 _ (Z.lt_le_incl _ _ (proj1 Hs')) Hfs)
    as [Hls Hvs].
  exists r, s. split; [done |].
  rewrite take_app_length', drop_app_length' by done.
  rewrite length_app, Hlr, Hls, Hvr, Hvs.
  split; [done |]. split; [done |]. split.
  - unfold sigSToLowS_P256, sigSIsLowS_P256.
    destruct (Z.leb_spec s (curveP256Order / 2)),
             (Z.ltb_spec (curveP256Order / 2) s); simpl; lia.
  - by apply sigSIsLowS_P256_spec.
Qed.

End RoundTrip.

End P256Proofs.

Section P256Witnesses.

Import Crypto.

Lemma HashAndVerify_requires_low_S_witness :
  ecdsa_Verify (ECDSA := demo_ecdsa) (pubP256 demo_pub) (sha256_Sum256 demo_content)
    (SetBytes (take 32 demo_high_sig)) (SetBytes (drop 32 demo_high_sig)) = true
  /\ HashAndVerify demo_pub demo_content demo_high_sig = Err ErrInvalidSignature.
Proof.
  split; [by vm_compute |].
  apply (proj1 (HashAndVerify_requires_low_S (H := Crypto.demo_ecdsa) demo_pub demo_content demo_high_sig));
    by vm_compute.
Defined.

Lemma HashAndSign_HashAndVerify_witness :
  exists sig,
    HashAndSign (H := demo_ecdsa) (curveP256Order - 1) demo_key demo_content
    = Signed sig
    /\ HashAndVerify demo_pub demo_content sig = Ok tt.
Proof.
  pose proof (HashAndSign_HashAndVerify (H := Crypto.demo_ecdsa)) as Hrt.
  eexists. split; [by vm_compute |].
  refine (proj2 (Hrt _ _ _ (curveP256Order - 1) demo_key demo_content)
            demo_pub eq_refl).
  - simpl. intros nonce d _ r s Hsign.
    destruct (_ && _) eqn:E in Hsign; simplify_eq.
    repeat (apply andb_prop in E as [E ?]). lia.
  - simpl. intros nonce d _ r s Hsign.
    destruct (_ && _) eqn:E in Hsign; simplify_eq.
    repeat (apply andb_prop in E as [E ?]).
    repeat (apply andb_true_intro; split); lia.
  - simpl. intros pub _ r s Hs E.
    repeat (apply andb_prop in E as [E ?]).
    repeat (apply andb_true_intro; split); lia.
Defined.

End P256Witnesses.

(** ** The validator *)

Section ValidatorProofs.

Import Relay.

Context `{Packages}.

(** *** Rules for [follows] and [keeps_warning] *)

Lemma bind_run {A B} (m : M A) (f : A -> M B) s a s' :
  m s = (Ok a, s') -> bind m f s = f a s'.
Proof. unfold bind. by intros ->. Qed.

Lemma follows_ret {A} PE Q (a : A) : follows PE Q (ret a).
Proof.
  intros s. simpl. split; [|done].
  exists []. by rewrite app_nil_r.
Qed.

Lemma follows_fail {A} (PE : error -> Prop) Q e :
  PE e -> follows (A := A) PE Q (fail e).
Proof.
  intros He s. simpl. split; [|by intros ? [= <-]].
  exists []. by rewrite app_nil_r.
Qed.

Lemma follows_emit PE (Q : event -> Prop) ev : Q ev -> follows PE Q (emit ev).
Proof.
  intros Hev s. simpl. split; [|done].
  exists [ev]. split; [done | by constructor].
Qed.

Lemma follows_setWarning PE Q b : follows PE Q (setWarning b).
Proof.
  intros s. simpl. split; [|done].
  exists []. by rewrite app_nil_r.
Qed.

Lemma follows_getWarning PE Q : follows PE Q getWarning.
Proof.
  intros s. simpl. split; [|done].
  exists []. by rewrite app_nil_r.
Qed.

Lemma follows_bind {A B} PE Q (m : M A) (f : A -> M B) :
  follows PE Q m -> (forall a, follows PE Q (f a)) -> follows PE Q (bind m f).
Proof.
  intros Hm Hf s. unfold bind.
  destruct (Hm s) as ((evs & Hevs & HQ) & Herr).
  destruct (m s) as [[a | e] s1]; simpl in *.
  - destruct (Hf a s1) as ((evs' & Hevs' & HQ') & Herr').
    split; [|eauto].
    exists (evs ++ evs'). rewrite Hevs', Hevs, app_assoc.
    split; [done | by apply Forall_app].
  - split; [by exists evs |].
    intros e0 [= <-]. by apply Herr.
Qed.

Lemma follows_bind_ret {A B} PE Q (a : A) (f : A -> M B) :
  follows PE Q (f a) -> follows PE Q (bind (ret a) f).
Proof. intros Hf s. apply Hf. Qed.

Lemma follows_orFail {A} (PE : error -> Prop) (Q : event -> Prop)
    (r : result ExtErr A) counter wrap :
  Q counter -> (forall e, PE (wrap e)) -> follows PE Q (orFail r counter wrap).
Proof.
  intros Hc Hw. destruct r as [a | e]; simpl.
  - apply follows_ret.
  - apply follows_bind; [by apply follows_emit | intros _; by apply follows_fail].
Qed.

Lemma follows_weaken {A} (PE PE' : error -> Prop) (Q Q' : event -> Prop) (m : M A) :
  follows PE Q m -> (forall e, PE e -> PE' e) -> (forall ev, Q ev -> Q' ev) ->
  follows PE' Q' m.
Proof.
  intros Hm HPE HQ s. destruct (Hm s) as ((evs & Hevs & Hall) & Herr).
  split; [|eauto].
  exists evs. split; [done |]. eapply Forall_impl; eauto.
Qed.

Lemma keeps_warning_ret {A} (a : A) : keeps_warning (ret a).
Proof. by intros s. Qed.

Lemma keeps_warning_fail {A} e : keeps_warning (A := A) (fail e).
Proof. by intros s. Qed.

Lemma keeps_warning_emit ev : keeps_warning (emit ev).
Proof. by intros s. Qed.

Lemma keeps_warning_setWarning : keeps_warning (setWarning true).
Proof. by intros s. Qed.

Lemma keeps_warning_getWarning : keeps_warning getWarning.
Proof. by intros s. Qed.

Lemma keeps_warning_bind {A B} (m : M A) (f : A -> M B) :
  keeps_warning m -> (forall a, keeps_warning (f a)) -> keeps_warning (bind m f).
Proof.
  intros Hm Hf s Hs. unfold bind. specialize (Hm s Hs).
  destruct (m s) as [[a | e] s1]; simpl in *; [by apply Hf | done].
Qed.

Lemma keeps_warning_orFail {A} (r : result ExtErr A) counter wrap :
  keeps_warning (orFail r counter wrap).
Proof. destruct r; by intros s. Qed.

Lemma other_error_future_only P e : other_error e -> future_only P e.
Proof. by intros Hne Heq. Qed.

Ltac follows_step :=
  match goal with
  | |- follows _ _ (bind (ret _) _) => apply follows_bind_ret
  | |- follows _ _ (bind _ _) => apply follows_bind; [| intros ?]
  | |- follows _ _ (ret _) => apply follows_ret
  | |- follows _ _ (fail _) => apply follows_fail
  | |- follows _ _ (emit _) => apply follows_emit
  | |- follows _ _ (setWarning _) => apply follows_setWarning
  | |- follows _ _ getWarning => apply follows_getWarning
  | |- follows _ _ (orFail _ _ _) => apply follows_orFail; [| intros ?]
  | |- follows _ _ (if ?b then _ else _) => destruct b
  | |- follows _ _ (match ?x with _ => _ end) => destruct x
  | |- keeps_warning (bind _ _) => apply keeps_warning_bind; [| intros ?]
  | |- keeps_warning (ret _) => apply keeps_warning_ret
  | |- keeps_warning (fail _) => apply keeps_warning_fail
  | |- keeps_warning (emit _) => apply keeps_warning_emit
  | |- keeps_warning (setWarning true) => apply keeps_warning_setWarning
  | |- keeps_warning getWarning => apply keeps_warning_getWarning
  | |- keeps_warning (orFail _ _ _) => apply keeps_warning_orFail
  | |- keeps_warning (if ?b then _ else _) => destruct b
  | |- keeps_warning (match ?x with _ => _ end) => destruct x
  | |- any_error _ => exact I
  | |- other_error _ => by (unfold other_error, future_error)
  | |- future_only _ _ => by (unfold future_only, future_error; intros [=])
  | |- other_event _ => by (unfold other_event; simpl; intros [])
  | |- other_event _ => by (unfold other_event; simpl; auto)
  end.

Ltac follows_auto := repeat follows_step.

Lemma follows_VerifyCommitSignature val commit hostname ptr :
  follows other_error other_event (VerifyCommitSignature val commit hostname ptr).
Proof. unfold VerifyCommitSignature. follows_auto. Qed.

Lemma follows_loadRecords hostname repoFragment ops :
  follows other_error other_event
    (VerifyCommitMessage_loadRecords hostname repoFragment ops).
Proof.
  induction ops as [|op ops IH]; simpl; follows_auto; exact IH.
Qed.

Lemma follows_legacyOps host msg ops :
  follows other_error other_event (VerifyCommitMessage_legacyOps host msg ops).
Proof.
  induction ops as [|o ops IH]; simpl; follows_auto; exact IH.
Qed.

Lemma follows_invertOps hostname invTree ops :
  follows other_error other_event
    (VerifyCommitMessage_invertOps hostname invTree ops).
Proof.
  revert invTree. induction ops as [|op ops IH]; intros invTree; simpl;
    follows_auto; apply IH.
Qed.

Lemma keeps_warning_invertOps hostname invTree ops :
  keeps_warning (VerifyCommitMessage_invertOps hostname invTree ops).
Proof.
  revert invTree. induction ops as [|op ops IH]; intros invTree; simpl;
    follows_auto; apply IH.
Qed.

Lemma ParseCommitOps_loop_other ops out e :
  ParseCommitOps_loop ops out = Err e -> other_error e.
Proof.
  revert out. induction ops as [|rop ops IH]; intros out; simpl; [done |].
  repeat (case_match; try by intros [= <-]); eauto.
Qed.

Lemma follows_prevData val host msg prevData repoFragment :
  follows other_error other_event
    (VerifyCommitMessage_prevData val host msg prevData repoFragment).
Proof.
  unfold VerifyCommitMessage_prevData.
  apply follows_bind; [apply follows_legacyOps | intros returned].
  destruct returned; [apply follows_ret |].
  destruct (PrevData msg) as [c|]; [|follows_auto].
  apply follows_bind; [follows_auto | intros _].
  apply follows_bind.
  { destruct (ParseCommitOps (Ops msg)) eqn:E; [follows_auto |].
    apply follows_bind; [follows_auto | intros _].
    apply follows_fail. by eapply ParseCommitOps_loop_other. }
  intros ops. apply follows_bind; [follows_auto | intros nops].
  apply follows_bind; [apply follows_invertOps | intros invTree].
  follows_auto.
Qed.

(** *** The loops of [VerifyCommitMessage] *)

Lemma legacyOps_none host msg ops s :
  has_legacy_op ops = false ->
  VerifyCommitMessage_legacyOps host msg ops s = (Ok false, s).
Proof.
  induction ops as [|o ops IH]; simpl; [done |].
  intros [Ho Hops]%orb_false_elim. unfold legacy_op in Ho.
  destruct (String.eqb (Action o) "delete") eqn:Hd;
    [| destruct (String.eqb (Action o) "update") eqn:Hu];
    simpl in Ho; destruct (Prev o); simplify_eq/=; auto.
Qed.

Lemma legacyOps_some host msg ops s :
  has_legacy_op ops = true ->
  exists o lbl,
    o ∈ ops /\ Prev o = None
    /\ ((Action o = "delete"%string /\ lbl = "del"%string)
        \/ (Action o = "update"%string /\ lbl = "up"%string))
    /\ VerifyCommitMessage_legacyOps host msg ops s
       = (Ok true,
          {| hasWarning := hasWarning s;
             events := events s ++
               [logDebug "can't invert legacy op" (Action o);
                logWarn ("commit " ++ Action o ++ " op") (Seq msg)
                  (Hostname host) (Repo_ msg);
                commitVerifyOkish (Hostname host) lbl] |}).
Proof.
  induction ops as [|o ops IH]; simpl; [done |].
  destruct (legacy_op o) eqn:Ho; simpl.
  - intros _. unfold legacy_op in Ho.
    apply andb_prop in Ho as [Hact Hprev].
    destruct (Prev o) eqn:Hp; [done |].
    destruct (String.eqb_spec (Action o) "delete") as [Hd | Hd].
    + exists o, "del"%string. rewrite Hd.
      split; [apply elem_of_cons; by left |].
      split; [done |]. split; [by left |].
      unfold bind, emit; simpl. by rewrite <- !app_assoc.
    + destruct (String.eqb_spec (Action o) "update") as [Hu | Hu]; [|done].
      exists o, "up"%string. rewrite Hu.
      split; [apply elem_of_cons; by left |].
      split; [done |]. split; [by right |].
      unfold bind, emit; simpl. by rewrite <- !app_assoc.
  - intros Hops. destruct (IH Hops) as (o' & lbl & Hin & Hp & Hact & Hrun).
    exists o', lbl. split; [apply elem_of_cons; by right |].
    split; [done |]. split; [done |].
    unfold legacy_op in Ho.
    destruct (String.eqb (Action o) "delete") eqn:Hd;
      [| destruct (String.eqb (Action o) "update") eqn:Hu];
      simpl in Ho; destruct (Prev o); simplify_eq/=; auto.
Qed.

Lemma invertOps_run hostname invTree ops s :
  VerifyCommitMessage_invertOps hostname invTree ops s
  = match invert_all invTree ops with
    | Ok t => (Ok t, s)
    | Err e => (Err (External e),
                {| hasWarning := hasWarning s;
                   events := events s ++ [commitVerifyErrors hostname "inv"] |})
    end.
Proof.
  revert invTree. induction ops as [|op ops IH]; intros invTree; simpl; [done |].
  unfold bind. destruct (InvertOp invTree op) as [t | e]; simpl; [apply IH | done].
Qed.

(** The value [VerifyCommitMessage] returns after the records are loaded
    depends on neither the [prevData] argument nor the state. *)
Lemma prevData_result val host msg prevData repoFragment s :
  fst (VerifyCommitMessage_prevData val host msg prevData repoFragment s)
  = prevData_outcome msg repoFragment.
Proof.
  unfold VerifyCommitMessage_prevData, prevData_outcome, bind.
  destruct (has_legacy_op (Ops msg)) eqn:Hleg.
  - destruct (legacyOps_some host msg (Ops msg) s Hleg)
      as (o & lbl & _ & _ & _ & ->). done.
  - rewrite legacyOps_none by done.
    destruct (PrevData msg) as [c|]; [|done].
    destruct prevData as [p|]; [destruct (Cid_eqb c p) |]; simpl;
      (destruct (ParseCommitOps (Ops msg)) as [ops | e]; simpl; [|done]);
      (destruct (NormalizeOps ops) as [nops | e]; simpl; [|done]);
      rewrite invertOps_run;
      (destruct (invert_all _ nops) as [invTree | e]; [|done]);
      (destruct (Tree_RootCID invTree) as [computed | e]; simpl; [|done]);
      (destruct (Cid_eqb computed c); simpl; [|done]);
      try done; by destruct (hasWarning s).
Qed.

(** *** [ParseCommitOps] *)

Lemma RepoOp_invariant_cases rop :
  RepoOp_invariant rop <->
  (if String.eqb (Action rop) "create" then
     nonnil (Cid_ rop) = true /\ nonnil (Prev rop) = false
   else if String.eqb (Action rop) "delete" then
     nonnil (Cid_ rop) = false /\ nonnil (Prev rop) = true
   else if String.eqb (Action rop) "update" then
     nonnil (Cid_ rop) = true /\ nonnil (Prev rop) = true
   else False).
Proof.
  unfold RepoOp_invariant.
  destruct (String.eqb_spec (Action rop) "create") as [-> | Hc];
    [| destruct (String.eqb_spec (Action rop) "delete") as [-> | Hd];
       [| destruct (String.eqb_spec (Action rop) "update") as [-> | Hu]]];
    destruct (Cid_ rop), (Prev rop); simpl; intuition congruence.
Qed.

Lemma ParseCommitOps_loop_spec ops out :
  match ParseCommitOps_loop ops out with
  | Ok res => Forall RepoOp_invariant ops /\ res = out ++ map Operation_of ops
  | Err _ => ~ Forall RepoOp_invariant ops
  end.
Proof.
  revert out. induction ops as [|rop ops IH]; intros out; simpl.
  - by rewrite app_nil_r.
  - pose proof (RepoOp_invariant_cases rop) as Hrop.
    assert (Hstep : forall op,
      RepoOp_invariant rop -> op = Operation_of rop ->
      match ParseCommitOps_loop ops (out ++ [op]) with
      | Ok res => Forall RepoOp_invariant (rop :: ops)
                  /\ res = out ++ Operation_of rop :: map Operation_of ops
      | Err _ => ~ Forall RepoOp_invariant (rop :: ops)
      end).
    { intros op Hinv ->. specialize (IH (out ++ [Operation_of rop])).
      destruct (ParseCommitOps_loop ops _) as [res | e].
      - destruct IH as [Hall ->]. split; [by constructor |].
        by rewrite <- app_assoc.
      - intros Hall. apply IH. by eapply Forall_cons_1. }
    assert (Hbad : ~ RepoOp_invariant rop -> ~ Forall RepoOp_invariant (rop :: ops)).
    { intros Hn Hall. apply Hn. by eapply Forall_cons_1. }
    destruct (String.eqb (Action rop) "create");
      [| destruct (String.eqb (Action rop) "delete");
         [| destruct (String.eqb (Action rop) "update")]];
      destruct (Cid_ rop) as [c|] eqn:Hc, (Prev rop) as [p|] eqn:Hp; simpl in *;
      try (apply Hbad; rewrite Hrop; by intros []);
      try (apply Hbad; by rewrite Hrop);
      (apply Hstep; [by apply Hrop | unfold Operation_of; by rewrite Hc, Hp]).
Qed.

(** C6: [ParseCommitOps] succeeds exactly on the lists in which every op
    satisfies the invariant of its action (create: cid and no prev;
    delete: prev and no cid; update: both; no other action), and then it
    returns, in the order of the input, the operation with the same path,
    [Value = Cid] and [Prev] for each op; on any other list it returns an
    error. *)
Theorem ParseCommitOps_spec (ops : list RepoOp) :
  match ParseCommitOps ops with
  | Ok out => Forall RepoOp_invariant ops /\ out = map Operation_of ops
  | Err _ => ~ Forall RepoOp_invariant ops
  end.
Proof. apply (ParseCommitOps_loop_spec ops []). Qed.

(** *** [VerifyCommitSignature] *)

(** C10: [NewValidator] sets [AllowSignatureNotFound]; and with it set, a
    directory configured and the commit's DID well-formed, whatever error
    [LookupDID] returns, [VerifyCommitSignature] returns nil, sets the
    flag [hasWarning] points to, counts the warning "nok", and neither
    asks for the public key nor verifies the signature. *)
Theorem VerifyCommitSignature_lookup_error
    (val : Validator) (commit : Commit) (hostname : string)
    (hasWarning_nonnil : bool) (s : vstate) dir xdid err :
  (forall d, AllowSignatureNotFound (NewValidator d) = true)
  /\ (AllowSignatureNotFound val = true ->
      directory val = Some dir ->
      ParseDID (commit_DID commit) = Ok xdid ->
      LookupDID dir xdid = Err err ->
      VerifyCommitSignature val commit hostname hasWarning_nonnil s
      = (Ok tt,
         {| hasWarning := if hasWarning_nonnil then true else hasWarning s;
            events := events s ++
              [callLookupDID xdid; commitVerifyWarnings hostname "nok"] |})).
Proof.
  split; [done |]. intros Hallow Hdir Hdid Hlookup.
  unfold VerifyCommitSignature, bind. rewrite Hdir, Hdid. simpl.
  rewrite Hlookup, Hallow. simpl. rewrite <- app_assoc.
  by destruct hasWarning_nonnil.
Qed.

(** *** [VerifyCommitMessage]: the checks on the rev *)

Lemma Time_Sub_exact (t u : Time) :
  minDuration <= t - u <= maxDuration -> Time_Sub t u = t - u.
Proof.
  unfold Time_Sub. intros Hd.
  destruct (Z.ltb_spec maxDuration (t - u)); [lia |].
  destruct (Z.ltb_spec (t - u) minDuration); [lia | done].
Qed.

Lemma Time_Sub_pos (t u : Time) : u < t -> 0 < Time_Sub t u.
Proof.
  unfold Time_Sub, maxDuration, minDuration. intros Hd.
  destruct (Z.ltb_spec (2 ^ 63 - 1) (t - u)); [lia |].
  destruct (Z.ltb_spec (t - u) (- 2 ^ 63)); lia.
Qed.

(** C4: with a [prevRev], and the DID and rev of the message well-formed:
    when the time of the rev is before that of [prevRev], the validation
    fails with a [revOutOfOrderError] whose [dt] is [prevTime.Sub(curTime)],
    which is not zero and is [prevTime - curTime] whenever that fits a
    [Duration]; when the time of the rev is that of [prevRev] or later,
    the validation goes on as it does without a [prevRev]. *)
Theorem VerifyCommitMessage_rev_order
    (val : Validator) (host : Host) (msg : SyncSubscribeRepos_Commit)
    (prevRev : TID) (prevData : option Cid) (now : Time) (s : vstate) did rev :
  ParseDID (Repo_ msg) = Ok did ->
  ParseTID (Rev msg) = Ok rev ->
  let curTime := TID_Time rev in
  let prevTime := TID_Time prevRev in
  (curTime < prevTime ->
   fst (VerifyCommitMessage val host msg (Some prevRev) prevData now s)
   = Err (revOutOfOrderError (Time_Sub prevTime curTime))
   /\ Time_Sub prevTime curTime <> 0
   /\ (prevTime - curTime <= maxDuration ->
       Time_Sub prevTime curTime = prevTime - curTime))
  /\ (prevTime <= curTime ->
      VerifyCommitMessage val host msg (Some prevRev) prevData now s
      = VerifyCommitMessage val host msg None prevData now s).
Proof.
  intros Hdid Htid curTime prevTime.
  unfold VerifyCommitMessage, VerifyCommitMessage_records, bind. simpl.
  rewrite Hdid, Htid. simpl. unfold Time_Before. fold curTime prevTime.
  split; intros Hcmp.
  - destruct (Z.ltb_spec curTime prevTime); [|lia]. simpl.
    split; [done |]. split.
    + pose proof (Time_Sub_pos prevTime curTime Hcmp). lia.
    + intros Hfit. apply Time_Sub_exact. unfold minDuration. lia.
  - by destruct (Z.ltb_spec curTime prevTime); [lia |].
Qed.

Ltac follows_call :=
  first
    [ apply other_error_future_only
    | eapply follows_weaken;
      [ first [ apply follows_VerifyCommitSignature
              | apply follows_loadRecords
              | apply follows_prevData ]
      | intros ? ?; first [ exact I | by apply other_error_future_only | done ]
      | intros ? ?; first [ exact I | done ] ] ].

(** Whatever the validator and the arguments, [VerifyCommitMessage]
    neither takes nor releases the user lock. *)
Lemma follows_VerifyCommitMessage val host msg prevRev prevData now :
  follows any_error other_event
    (VerifyCommitMessage val host msg prevRev prevData now).
Proof.
  unfold VerifyCommitMessage, VerifyCommitMessage_records.
  repeat (follows_step || follows_call).
Qed.

(** With a new validator, the error for a rev in the future comes from
    the check of the rev against the clock and from nowhere else. *)
Lemma future_error_source d host msg prevRev prevData now did rev :
  ParseDID (Repo_ msg) = Ok did ->
  ParseTID (Rev msg) = Ok rev ->
  follows (future_only (now + time_Hour < TID_Time rev)) other_event
    (VerifyCommitMessage (NewValidator d) host msg prevRev prevData now).
Proof.
  intros Hdid Htid.
  unfold VerifyCommitMessage, VerifyCommitMessage_records.
  rewrite Hdid, Htid. simpl orFail.
  apply follows_bind; [|intros repoFragment; follows_call].
  do 4 follows_step.
  apply follows_bind; [follows_auto | intros _].
  apply follows_bind.
  { destruct (Time_After _ _) eqn:Hafter; [|follows_auto].
    apply follows_bind; [follows_auto | intros _].
    apply follows_fail. intros _.
    unfold Time_After, Time_Add in Hafter. simpl in Hafter. by apply Z.ltb_lt. }
  intros _. repeat (follows_step || follows_call).
Qed.

(** C5: with a new validator, whose [maxRevFuture] is one hour, and the
    DID and rev of the message well-formed: [VerifyCommitMessage] returns
    the validator's [ErrRevTooFarFuture] exactly when the rev is not
    before [prevRev] and the time of the rev is after
    [now + maxRevFuture], so a rev at or before that bound passes the
    check. The check against [prevRev] comes first: a rev before
    [prevRev] fails with [revOutOfOrderError] wherever the clock stands. *)
Theorem VerifyCommitMessage_future_bound
    (d : option Directory) (host : Host) (msg : SyncSubscribeRepos_Commit)
    (prevRev : option TID) (prevData : option Cid) (now : Time) (s : vstate)
    did rev :
  let val := NewValidator d in
  ParseDID (Repo_ msg) = Ok did ->
  ParseTID (Rev msg) = Ok rev ->
  maxRevFuture val = time_Hour
  /\ (fst (VerifyCommitMessage val host msg prevRev prevData now s)
      = Err (ErrRevTooFarFuture val)
      <-> (forall p, prevRev = Some p -> TID_Time p <= TID_Time rev)
          /\ now + maxRevFuture val < TID_Time rev)
  /\ (forall p, prevRev = Some p -> TID_Time rev < TID_Time p ->
      fst (VerifyCommitMessage val host msg prevRev prevData now s)
      = Err (revOutOfOrderError (Time_Sub (TID_Time p) (TID_Time rev)))).
Proof.
  intros val Hdid Htid.
  assert (Hbefore : forall p, prevRev = Some p -> TID_Time rev < TID_Time p ->
            fst (VerifyCommitMessage val host msg prevRev prevData now s)
            = Err (revOutOfOrderError (Time_Sub (TID_Time p) (TID_Time rev)))).
  { intros p -> Hlt.
    unfold VerifyCommitMessage, VerifyCommitMessage_records, bind. simpl.
    rewrite Hdid, Htid. simpl. unfold Time_Before.
    by destruct (Z.ltb_spec (TID_Time rev) (TID_Time p)); [|lia]. }
  split; [done |]. split; [|exact Hbefore]. split.
  - intros Herr. split.
    + intros p Hp.
      destruct (Z.le_gt_cases (TID_Time p) (TID_Time rev)) as [Hle | Hlt];
        [done |].
      rewrite (Hbefore p Hp Hlt) in Herr. discriminate Herr.
    + by apply (proj2 (future_error_source d host msg prevRev prevData now
                         did rev Hdid Htid s) _ Herr).
  - intros [Hmono Hafter].
    unfold VerifyCommitMessage, VerifyCommitMessage_records, bind. simpl.
    rewrite Hdid, Htid. simpl.
    assert (Hcheck : forall s' : vstate,
      match prevRev with
      | Some p =>
          if Time_Before (TID_Time rev) (TID_Time p)
          then bind (emit (commitVerifyErrors (Hostname host) "revb"))
                 (fun _ => fail (revOutOfOrderError
                                   (Time_Sub (TID_Time p) (TID_Time rev))))
          else ret tt
      | None => ret tt
      end s' = (Ok tt, s')).
    { intros s'. destruct prevRev as [p|]; [|done].
      specialize (Hmono p eq_refl). unfold Time_Before.
      by destruct (Z.ltb_spec (TID_Time rev) (TID_Time p)); [lia |]. }
    unfold bind in Hcheck. rewrite Hcheck.
    unfold Time_After, Time_Add.
    change (now + defaultMaxRevFuture < TID_Time rev) in Hafter.
    by destruct (Z.ltb_spec (now + defaultMaxRevFuture) (TID_Time rev)); [|lia].
Qed.

(** *** [VerifyCommitMessage]: legacy ops and [prevData] *)

Lemma Cid_eqb_spec (a b : Cid) : Cid_eqb a b = true <-> a = b.
Proof.
  unfold Cid_eqb. rewrite String.eqb_eq.
  destruct a, b; simpl. split; congruence.
Qed.

Lemma Cid_eqb_neq (a b : Cid) : a <> b -> Cid_eqb a b = false.
Proof.
  intros Hne. apply not_true_iff_false. by rewrite Cid_eqb_spec.
Qed.

Lemma VerifyCommitMessage_result val host msg prevRev prevData now s repoFragment s1 :
  VerifyCommitMessage_records val host msg prevRev now s = (Ok repoFragment, s1) ->
  fst (VerifyCommitMessage val host msg prevRev prevData now s)
  = prevData_outcome msg repoFragment.
Proof.
  intros Hrec. unfold VerifyCommitMessage.
  rewrite (bind_run _ _ _ _ _ Hrec). apply prevData_result.
Qed.

(** C2: when the message passes every check up to and including the
    loading of the records, and one of its ops is a delete or an update
    without [Prev], [VerifyCommitMessage] returns the repo fragment and
    nil after logging that op and counting it as "del" or "up"; it does
    so whatever [msg.PrevData] and the [prevData] argument are, and does
    nothing else. *)
Theorem VerifyCommitMessage_legacy
    (val : Validator) (host : Host) (msg : SyncSubscribeRepos_Commit)
    (prevRev : option TID) (prevData : option Cid) (now : Time)
    (s s1 : vstate) (repoFragment : Repo) :
  VerifyCommitMessage_records val host msg prevRev now s = (Ok repoFragment, s1) ->
  has_legacy_op (Ops msg) = true ->
  exists o lbl,
    o ∈ Ops msg /\ Prev o = None
    /\ ((Action o = "delete"%string /\ lbl = "del"%string)
        \/ (Action o = "update"%string /\ lbl = "up"%string))
    /\ VerifyCommitMessage val host msg prevRev prevData now s
       = (Ok repoFragment,
          {| hasWarning := hasWarning s1;
             events := events s1 ++
               [logDebug "can't invert legacy op" (Action o);
                logWarn ("commit " ++ Action o ++ " op") (Seq msg)
                  (Hostname host) (Repo_ msg);
                commitVerifyOkish (Hostname host) lbl] |}).
Proof.
  intros Hrec Hleg.
  destruct (legacyOps_some host msg (Ops msg) s1 Hleg)
    as (o & lbl & Hin & Hprev & Hact & Hrun).
  exists o, lbl. repeat (split; [done |]).
  unfold VerifyCommitMessage. rewrite (bind_run _ _ _ _ _ Hrec).
  unfold VerifyCommitMessage_prevData. by rewrite (bind_run _ _ _ _ _ Hrun).
Qed.

(** C1: when the message passes every check up to and including the
    loading of the records, none of its ops is a delete or update without
    [Prev], and [msg.PrevData] is [c]: the value returned does not depend
    on the [prevData] argument; a [prevData] argument other than [c] sets
    [hasWarning] and counts the warning "pr"; and when the root of the
    copied tree after inverting the normalized ops is not [c], the call
    fails with "inverted tree root didn't match prevData". *)
Theorem VerifyCommitMessage_prevData_mismatch
    (val : Validator) (host : Host) (msg : SyncSubscribeRepos_Commit)
    (prevRev : option TID) (prevData : option Cid) (now : Time)
    (s s1 : vstate) (repoFragment : Repo) (c : Cid) :
  VerifyCommitMessage_records val host msg prevRev now s = (Ok repoFragment, s1) ->
  has_legacy_op (Ops msg) = false ->
  PrevData msg = Some c ->
  (forall prevData',
     fst (VerifyCommitMessage val host msg prevRev prevData now s)
     = fst (VerifyCommitMessage val host msg prevRev prevData' now s))
  /\ (forall p, prevData = Some p -> c <> p ->
      let s' := snd (VerifyCommitMessage val host msg prevRev prevData now s) in
      hasWarning s' = true
      /\ commitVerifyWarnings (Hostname host) "pr" ∈ events s')
  /\ (forall ops nops invTree computed,
      ParseCommitOps (Ops msg) = Ok ops ->
      NormalizeOps ops = Ok nops ->
      invert_all (Tree_Copy (MST repoFragment)) nops = Ok invTree ->
      Tree_RootCID invTree = Ok computed ->
      computed <> c ->
      fst (VerifyCommitMessage val host msg prevRev prevData now s)
      = Err (Errorf "inverted tree root didn't match prevData" [])).
Proof.
  intros Hrec Hleg Hpd. split; [|split].
  - intros prevData'.
    by rewrite !(VerifyCommitMessage_result _ _ _ _ _ _ _ _ _ Hrec).
  - intros p -> Hne s'. subst s'.
    unfold VerifyCommitMessage. rewrite (bind_run _ _ _ _ _ Hrec).
    unfold VerifyCommitMessage_prevData.
    rewrite (bind_run _ _ _ _ _ (legacyOps_none host msg _ s1 Hleg)).
    rewrite Hpd, (Cid_eqb_neq c p Hne). simpl negb. cbv iota.
    match goal with
    | |- context [bind ?w ?k s1] =>
        assert (Hk : keeps_warning (k tt)
                     /\ follows any_error other_event (k tt));
        [split | erewrite (bind_run w k s1 tt) by reflexivity]
    end.
    + apply keeps_warning_bind.
      { destruct (ParseCommitOps (Ops msg)); follows_auto. }
      intros ops. apply keeps_warning_bind; [follows_auto | intros nops].
      apply keeps_warning_bind; [apply keeps_warning_invertOps | intros invTree].
      follows_auto.
    + apply follows_bind.
      { destruct (ParseCommitOps (Ops msg)); follows_auto. }
      intros ops. apply follows_bind; [follows_auto | intros nops].
      apply follows_bind; [|intros invTree; follows_auto].
      eapply follows_weaken; [apply follows_invertOps | done..].
    + destruct Hk as [Hkw Hkf]. split; [by apply Hkw |].
      match goal with
      | |- context [snd (_ ?s2)] =>
          destruct (Hkf s2) as [(evs & -> & _) _]
      end.
      simpl. rewrite !elem_of_app, !elem_of_cons. auto.
  - intros ops nops invTree computed Hops Hnops Hinv Hroot Hne.
    rewrite (VerifyCommitMessage_result _ _ _ _ _ _ _ _ _ Hrec).
    unfold prevData_outcome.
    by rewrite Hleg, Hpd, Hops, Hnops, Hinv, Hroot, (Cid_eqb_neq _ _ Hne).
Qed.

(** *** [HandleCommit] and [HandleSync] *)

Lemma follows_HandleSync val host msg now :
  follows any_error other_event (HandleSync val host msg now).
Proof.
  unfold HandleSync. repeat (follows_step || follows_call).
Qed.

Lemma HandleCommit_events val host account commit prevRev prevData now s :
  exists body,
    events (snd (HandleCommit val host account commit prevRev prevData now s))
    = events s ++ [userLocked (UID account)] ++ body
        ++ [userUnlocked (UID account)]
    /\ Forall other_event body.
Proof.
  unfold HandleCommit, lockUser.
  match goal with
  | |- context [defer _ ?body] =>
      assert (Hbody : follows any_error other_event body)
  end.
  { apply follows_bind; [apply follows_VerifyCommitMessage | intros rf].
    follows_auto. }
  unfold bind at 1. simpl. unfold defer.
  match goal with
  | |- context [bind ?m ?f ?s0] =>
      destruct (Hbody s0) as [(body & Hev & Hall) _];
      destruct (bind m f s0) as [r s'] eqn:Hrun
  end.
  simpl in *. exists body. rewrite Hev, <- !app_assoc. done.
Qed.

(** *** What an accepted message has passed *)

Lemma bind_Ok {A B} (m : M A) (f : A -> M B) s b s' :
  bind m f s = (Ok b, s') ->
  exists a s1, m s = (Ok a, s1) /\ f a s1 = (Ok b, s').
Proof.
  unfold bind. destruct (m s) as [[a | e] s1]; [eauto | done].
Qed.

Lemma orFail_Ok {A} (r : result ExtErr A) counter wrap s a s' :
  orFail r counter wrap s = (Ok a, s') -> r = Ok a /\ s' = s.
Proof. destruct r as [a' | e]; simpl; [by intros [= -> ->] | done]. Qed.

Lemma guard_Ok (b : bool) (m : M unit) s s' :
  (forall s0, fst (m s0) <> Ok tt) ->
  (if b then m else ret tt) s = (Ok tt, s') -> b = false /\ s' = s.
Proof.
  intros Hm. destruct b; simpl.
  - intros Hrun. destruct (Hm s). by rewrite Hrun.
  - by intros [= ->].
Qed.

Lemma emit_fail_not_Ok {A} ev e s (a : A) :
  fst (bind (emit ev) (fun _ => fail e) s) <> Ok a.
Proof. done. Qed.

Lemma loadRecords_sound hostname repoFragment ops s s' :
  VerifyCommitMessage_loadRecords hostname repoFragment ops s = (Ok tt, s') ->
  Forall (record_checked repoFragment) ops.
Proof.
  revert s. induction ops as [|op ops IH]; intros s; simpl; [by constructor |].
  intros (u & s1 & Hop & Hrest)%bind_Ok. constructor; [|by eapply IH].
  intros Hact c Hc. rewrite Hc in Hop. simpl in Hop.
  assert (Hcond : String.eqb (Action op) "create"
                  || String.eqb (Action op) "update" = true).
  { destruct Hact as [-> | ->]; done. }
  rewrite Hcond in Hop. simpl in Hop.
  apply bind_Ok in Hop as ([nsid rkey] & s2 & [Hpath ->]%orFail_Ok & Hop).
  apply bind_Ok in Hop as (val & s3 & [Hcid ->]%orFail_Ok & Hop).
  apply bind_Ok in Hop as ([] & s4 & Hcmp & Hop).
  apply guard_Ok in Hcmp as [Heq ->]; [|intros s0; apply emit_fail_not_Ok].
  apply bind_Ok in Hop as (bytes & s5 & [Hbytes ->]%orFail_Ok & _).
  apply negb_false_iff, Cid_eqb_spec in Heq. subst val.
  exists nsid, rkey. by rewrite Hbytes.
Qed.

Lemma records_sound val host msg prevRev now s repoFragment s1 :
  VerifyCommitMessage_records val host msg prevRev now s = (Ok repoFragment, s1) ->
  exists did rev commit,
    ParseDID (Repo_ msg) = Ok did
    /\ ParseTID (Rev msg) = Ok rev
    /\ (forall p, prevRev = Some p -> TID_Time p <= TID_Time rev)
    /\ TID_Time rev <= now + maxRevFuture val
    /\ ParseDatetime (Time_ msg) = Ok tt
    /\ LoadRepoFromCAR (Blocks msg) = Ok (commit, repoFragment)
    /\ commit_Rev commit = TID_String rev
    /\ commit_DID commit = DID_String did
    /\ (exists s2 s3,
          VerifyCommitSignature val commit (Hostname host) true s2 = (Ok tt, s3))
    /\ Forall (record_checked repoFragment) (Ops msg).
Proof.
  unfold VerifyCommitMessage_records.
  intros ([] & s2 & _ & Hrun)%bind_Ok.
  apply bind_Ok in Hrun as ([] & s3 & _ & Hrun).
  apply bind_Ok in Hrun as (did & s4 & [Hdid ->]%orFail_Ok & Hrun).
  apply bind_Ok in Hrun as (rev & s5 & [Htid ->]%orFail_Ok & Hrun).
  apply bind_Ok in Hrun as ([] & s6 & Hmono & Hrun).
  apply bind_Ok in Hrun as ([] & s7 & Hfuture & Hrun).
  apply bind_Ok in Hrun as ([] & s8 & [Htime ->]%orFail_Ok & Hrun).
  apply bind_Ok in Hrun as ([] & s9 & _ & Hrun).
  apply bind_Ok in Hrun as ([] & s10 & _ & Hrun).
  apply bind_Ok in Hrun as ([commit rf] & s11 & [Hcar ->]%orFail_Ok & Hrun).
  apply bind_Ok in Hrun as ([] & s12 & Hrev & Hrun).
  apply bind_Ok in Hrun as ([] & s13 & Hdid2 & Hrun).
  apply bind_Ok in Hrun as ([] & s14 & Hsig & Hrun).
  apply bind_Ok in Hrun as ([] & s15 & Hrecs & Hrun).
  injection Hrun as -> ->.
  apply guard_Ok in Hfuture as [Hfuture ->]; [|intros s0; apply emit_fail_not_Ok].
  apply guard_Ok in Hrev as [Hrev ->]; [|intros s0; apply emit_fail_not_Ok].
  apply guard_Ok in Hdid2 as [Hdid2 ->]; [|intros s0; apply emit_fail_not_Ok].
  apply negb_false_iff, String.eqb_eq in Hrev, Hdid2.
  unfold Time_After, Time_Add in Hfuture. apply Z.ltb_ge in Hfuture.
  exists did, rev, commit. repeat (split; [done |]).
  split; [|split; [done |]].
  { intros p ->. unfold Time_Before in Hmono.
    destruct (Z.ltb_spec (TID_Time rev) (TID_Time p)); [done | lia]. }
  repeat (split; [done |]).
  split; [eauto | by eapply loadRecords_sound].
Qed.

(** X1: a commit message that [VerifyCommitMessage] accepts has a
    well-formed DID, rev and timestamp; its rev is not before [prevRev]
    and not beyond [now + maxRevFuture]; its CAR file loads to the repo
    fragment returned, whose commit has the rev and DID of the message;
    the signature step passed; and every create or update op with a CID
    names a record that the fragment holds under that CID. *)
Theorem VerifyCommitMessage_sound
    (val : Validator) (host : Host) (msg : SyncSubscribeRepos_Commit)
    (prevRev : option TID) (prevData : option Cid) (now : Time)
    (s s' : vstate) (repoFragment : Repo) :
  VerifyCommitMessage val host msg prevRev prevData now s = (Ok repoFragment, s') ->
  exists did rev commit,
    ParseDID (Repo_ msg) = Ok did
    /\ ParseTID (Rev msg) = Ok rev
    /\ (forall p, prevRev = Some p -> TID_Time p <= TID_Time rev)
    /\ TID_Time rev <= now + maxRevFuture val
    /\ ParseDatetime (Time_ msg) = Ok tt
    /\ LoadRepoFromCAR (Blocks msg) = Ok (commit, repoFragment)
    /\ commit_Rev commit = TID_String rev
    /\ commit_DID commit = DID_String did
    /\ (exists s2 s3,
          VerifyCommitSignature val commit (Hostname host) true s2 = (Ok tt, s3))
    /\ Forall (record_checked repoFragment) (Ops msg).
Proof.
  unfold VerifyCommitMessage.
  intros (rf & s1 & Hrec & Hpd)%bind_Ok.
  assert (rf = repoFragment) as ->; [|by eapply records_sound].
  unfold VerifyCommitMessage_prevData in Hpd.
  apply bind_Ok in Hpd as (returned & s2 & _ & Hpd).
  destruct returned; [by injection Hpd |].
  destruct (PrevData msg) as [c|].
  - repeat (apply bind_Ok in Hpd as (? & ? & _ & Hpd)). by injection Hpd.
  - apply bind_Ok in Hpd as (? & ? & _ & Hpd). by injection Hpd.
Qed.

(** X2: when [VerifyCommitMessage] accepts a message that carries
    [prevData] and has no delete or update without [Prev], the ops of the
    message parse and normalize, inverting them one after the other on a
    copy of the fragment's tree succeeds, and the root of the tree so
    obtained is [msg.PrevData]. *)
Theorem VerifyCommitMessage_prevData_sound
    (val : Validator) (host : Host) (msg : SyncSubscribeRepos_Commit)
    (prevRev : option TID) (prevData : option Cid) (now : Time)
    (s s' : vstate) (repoFragment : Repo) (c : Cid) :
  VerifyCommitMessage val host msg prevRev prevData now s = (Ok repoFragment, s') ->
  PrevData msg = Some c ->
  has_legacy_op (Ops msg) = false ->
  exists ops nops invTree,
    ParseCommitOps (Ops msg) = Ok ops
    /\ NormalizeOps ops = Ok nops
    /\ invert_all (Tree_Copy (MST repoFragment)) nops = Ok invTree
    /\ Tree_RootCID invTree = Ok c.
Proof.
  intros Hrun Hpd Hleg.
  assert (Hres : fst (VerifyCommitMessage val host msg prevRev prevData now s)
                 = Ok repoFragment) by (by rewrite Hrun).
  unfold VerifyCommitMessage in Hrun.
  apply bind_Ok in Hrun as (rf & s1 & Hrec & _).
  rewrite (VerifyCommitMessage_result _ _ _ _ _ _ _ _ _ Hrec) in Hres.
  unfold prevData_outcome in Hres. rewrite Hleg, Hpd in Hres.
  destruct (ParseCommitOps (Ops msg)) as [ops | e] eqn:Hops; [|done].
  destruct (NormalizeOps ops) as [nops | e] eqn:Hnops; [|done].
  destruct (invert_all _ nops) as [invTree | e] eqn:Hinv; [|done].
  destruct (Tree_RootCID invTree) as [computed | e] eqn:Hroot; [|done].
  destruct (Cid_eqb computed c) eqn:Heq; [|done].
  injection Hres as ->. apply Cid_eqb_spec in Heq as ->.
  exists ops, nops, invTree. auto.
Qed.

(** X3: a message without [prevData] and without a delete or update
    lacking [Prev] is accepted as soon as its records are loaded: the ops
    are neither parsed nor inverted, the message counts as "old", and the
    flag [hasWarning] is left as the earlier steps set it. *)
Theorem VerifyCommitMessage_old_protocol
    (val : Validator) (host : Host) (msg : SyncSubscribeRepos_Commit)
    (prevRev : option TID) (prevData : option Cid) (now : Time)
    (s s1 : vstate) (repoFragment : Repo) :
  VerifyCommitMessage_records val host msg prevRev now s = (Ok repoFragment, s1) ->
  has_legacy_op (Ops msg) = false ->
  PrevData msg = None ->
  VerifyCommitMessage val host msg prevRev prevData now s
  = (Ok repoFragment,
     {| hasWarning := hasWarning s1;
        events := events s1 ++ [commitVerifyOkish (Hostname host) "old"] |}).
Proof.
  intros Hrec Hleg Hpd.
  unfold VerifyCommitMessage. rewrite (bind_run _ _ _ _ _ Hrec).
  unfold VerifyCommitMessage_prevData.
  rewrite (bind_run _ _ _ _ _ (legacyOps_none host msg _ s1 Hleg)).
  by rewrite Hpd.
Qed.

(** X4: an op list with a delete or update that lacks [Prev] is rejected
    by [ParseCommitOps]. The loop over legacy ops of [VerifyCommitMessage]
    returns before such a list reaches it. *)
Theorem legacy_op_fails_ParseCommitOps (ops : list RepoOp) :
  has_legacy_op ops = true -> exists e, ParseCommitOps ops = Err e.
Proof.
  intros Hleg. pose proof (ParseCommitOps_loop_spec ops []) as Hspec.
  unfold ParseCommitOps.
  destruct (ParseCommitOps_loop ops []) as [out | e]; [|by eexists].
  destruct Hspec as [Hall _]. exfalso.
  apply existsb_exists in Hleg as (o & Hin & Ho).
  rewrite Forall_forall in Hall. specialize (Hall o).
  rewrite <- list_elem_of_In in Hin. specialize (Hall Hin).
  unfold legacy_op in Ho. apply andb_prop in Ho as [Hact Hprev].
  destruct (Prev o) eqn:Hp; [done |].
  apply orb_prop in Hact. unfold RepoOp_invariant in Hall.
  rewrite !String.eqb_eq in Hact.
  destruct Hact as [Hact | Hact], Hall as [(Ha & _) | [(_ & _ & ?) | (_ & _ & ?)]];
    congruence.
Qed.

(** *** [VerifyCommitSignature] *)

(** X5: with a directory configured, [VerifyCommitSignature] returns nil
    in two cases only: the DID of the commit resolves, the identity has a
    public key and the signature of the commit verifies under that key;
    or [AllowSignatureNotFound] is set and the lookup failed, and then the
    warning flag is set (through a non-nil pointer) and "nok" is counted.
    So with [AllowSignatureNotFound] off, nil means a verified signature. *)
Theorem VerifyCommitSignature_sound
    (val : Validator) (commit : Commit) (hostname : string)
    (hasWarning_nonnil : bool) (s s' : vstate) dir :
  directory val = Some dir ->
  VerifyCommitSignature val commit hostname hasWarning_nonnil s = (Ok tt, s') ->
  exists xdid,
    ParseDID (commit_DID commit) = Ok xdid
    /\ ((exists ident pk,
           LookupDID dir xdid = Ok ident
           /\ Identity_PublicKey ident = Ok pk
           /\ Commit_VerifySignature commit pk = Ok tt
           /\ s' = {| hasWarning := hasWarning s;
                      events := events s ++
                        [callLookupDID xdid; callVerifySignature commit] |})
        \/ (AllowSignatureNotFound val = true
            /\ (exists err, LookupDID dir xdid = Err err)
            /\ (hasWarning_nonnil = true -> hasWarning s' = true)
            /\ events s' = events s ++
                 [callLookupDID xdid; commitVerifyWarnings hostname "nok"])).
Proof.
  intros Hdir. unfold VerifyCommitSignature. rewrite Hdir.
  intros (xdid & s1 & [Hdid ->]%orFail_Ok & Hrun)%bind_Ok.
  exists xdid. split; [done |].
  apply bind_Ok in Hrun as ([] & s2 & [= <-] & Hrun).
  destruct (LookupDID dir xdid) as [ident | err] eqn:Hlookup.
  - left.
    apply bind_Ok in Hrun as (pk & s3 & [Hpk ->]%orFail_Ok & Hrun).
    apply bind_Ok in Hrun as ([] & s4 & [= <-] & Hrun).
    apply bind_Ok in Hrun as ([] & s5 & [Hsig ->]%orFail_Ok & [= <-]).
    exists ident, pk. simpl. by rewrite <- app_assoc.
  - right. destruct (AllowSignatureNotFound val); [|done].
    split; [done |]. split; [by eexists |].
    apply bind_Ok in Hrun as ([] & s3 & [= <-] & Hrun).
    apply bind_Ok in Hrun as ([] & s4 & Hset & [= <-]).
    destruct hasWarning_nonnil; injection Hset as <-; simpl;
      by rewrite <- app_assoc.
Qed.

(** *** [HandleSync] and [HandleCommit] *)

(** X6: a #sync message that [HandleSync] accepts has a well-formed DID,
    rev and timestamp, a rev not beyond [now + maxRevFuture], and a CAR
    file whose commit has the rev and DID of the message and passed the
    signature step; the CID returned is the data CID of that commit. *)
Theorem HandleSync_sound
    (val : Validator) (host : Host) (msg : SyncSubscribeRepos_Sync)
    (now : Time) (s s' : vstate) (newRoot : Cid) :
  HandleSync val host msg now s = (Ok newRoot, s') ->
  exists did rev commit,
    ParseDID (sync_Did msg) = Ok did
    /\ ParseTID (sync_Rev msg) = Ok rev
    /\ TID_Time rev <= now + maxRevFuture val
    /\ ParseDatetime (sync_Time msg) = Ok tt
    /\ LoadCommitFromCAR (sync_Blocks msg) = Ok commit
    /\ commit_Rev commit = TID_String rev
    /\ commit_DID commit = DID_String did
    /\ (exists s2 s3,
          VerifyCommitSignature val commit (Hostname host) true s2 = (Ok tt, s3))
    /\ newRoot = commit_Data commit.
Proof.
  unfold HandleSync.
  intros ([] & s2 & _ & Hrun)%bind_Ok.
  apply bind_Ok in Hrun as (did & s4 & [Hdid ->]%orFail_Ok & Hrun).
  apply bind_Ok in Hrun as (rev & s5 & [Htid ->]%orFail_Ok & Hrun).
  apply bind_Ok in Hrun as ([] & s7 & Hfuture & Hrun).
  apply bind_Ok in Hrun as ([] & s8 & [Htime ->]%orFail_Ok & Hrun).
  apply bind_Ok in Hrun as (commit & s11 & [Hcar ->]%orFail_Ok & Hrun).
  apply bind_Ok in Hrun as ([] & s12 & Hrev & Hrun).
  apply bind_Ok in Hrun as ([] & s13 & Hdid2 & Hrun).
  apply bind_Ok in Hrun as ([] & s14 & Hsig & Hrun).
  injection Hrun as <- <-.
  apply guard_Ok in Hfuture as [Hfuture ->]; [|intros s0; apply emit_fail_not_Ok].
  apply guard_Ok in Hrev as [Hrev ->]; [|intros s0; apply emit_fail_not_Ok].
  apply guard_Ok in Hdid2 as [Hdid2 ->]; [|intros s0; apply emit_fail_not_Ok].
  apply negb_false_iff, String.eqb_eq in Hrev, Hdid2.
  unfold Time_After, Time_Add in Hfuture. apply Z.ltb_ge in Hfuture.
  exists did, rev, commit. repeat (split; [done |]). split; [eauto | done].
Qed.

(** X7: what [HandleCommit] returns is what [VerifyCommitMessage] decides
    under the user lock: an error of [VerifyCommitMessage] or of
    [RootCID] is returned as it is, and a CID returned is the root of the
    tree of the fragment that [VerifyCommitMessage] accepted. In every
    case the lock has been released when the call returns. *)
Theorem HandleCommit_result
    (val : Validator) (host : Host) (account : Account)
    (commit : SyncSubscribeRepos_Commit) (prevRev : option TID)
    (prevData : option Cid) (now : Time) (s : vstate) :
  let s0 := {| hasWarning := hasWarning s;
               events := events s ++ [userLocked (UID account)] |} in
  let verified := VerifyCommitMessage val host commit prevRev prevData now s0 in
  fst (HandleCommit val host account commit prevRev prevData now s)
  = match fst verified with
    | Ok repoFragment =>
        match Tree_RootCID (MST repoFragment) with
        | Ok newRootCid => Ok newRootCid
        | Err err => Err (External err)
        end
    | Err err => Err err
    end
  /\ events (snd (HandleCommit val host account commit prevRev prevData now s))
     = events (snd verified) ++ [userUnlocked (UID account)].
Proof.
  intros s0 verified. subst verified s0.
  unfold HandleCommit, lockUser, defer, bind. simpl.
  destruct (VerifyCommitMessage _ _ _ _ _ _ _) as [[rf | e] s1]; simpl; [|done].
  by destruct (Tree_RootCID (MST rf)).
Qed.

(** *** The flags [tooBig] and [rebase] *)

Lemma agree_ret {A} (a : A) : agree (ret a) (ret a).
Proof. by intros s s'. Qed.

Lemma agree_fail {A} e : agree (A := A) (fail e) (fail e).
Proof. by intros s s'. Qed.

Lemma agree_emit ev ev' : agree (emit ev) (emit ev').
Proof. by intros s s'. Qed.

Lemma agree_setWarning b b' : agree (setWarning b) (setWarning b').
Proof. by intros s s'. Qed.

Lemma agree_bind {A B} (m m' : M A) (f f' : A -> M B) :
  agree m m' -> (forall a, agree (f a) (f' a)) -> agree (bind m f) (bind m' f').
Proof.
  intros Hm Hf s s'. unfold bind. specialize (Hm s s').
  destruct (m s) as [[a | e] s1], (m' s') as [[a' | e'] s1'];
    simplify_eq/=; [apply Hf | done].
Qed.

Lemma agree_orFail {A} (r : result ExtErr A) counter wrap :
  agree (orFail r counter wrap) (orFail r counter wrap).
Proof. destruct r; by intros s s'. Qed.

Lemma agree_unit (m m' : M unit) :
  (forall s, fst (m s) = Ok tt) -> (forall s, fst (m' s) = Ok tt) -> agree m m'.
Proof. intros Hm Hm' s s'. by rewrite Hm, Hm'. Qed.

Ltac agree_step :=
  match goal with
  | |- agree (bind _ _) (bind _ _) => apply agree_bind; [| intros ?]
  | |- agree (ret _) (ret _) => apply agree_ret
  | |- agree (fail _) (fail _) => apply agree_fail
  | |- agree (emit _) (emit _) => apply agree_emit
  | |- agree (setWarning _) (setWarning _) => apply agree_setWarning
  | |- agree (orFail _ _ _) (orFail _ _ _) => apply agree_orFail
  | |- agree (if ?b then _ else _) (if ?b then _ else _) => destruct b
  | |- agree (match ?x with _ => _ end) (match ?x with _ => _ end) => destruct x
  | |- agree (if ?b then _ else ret tt) (ret tt) =>
      apply agree_unit; [intros ?; by destruct b | done]
  end.

Lemma agree_VerifyCommitSignature val commit hostname ptr :
  agree (VerifyCommitSignature val commit hostname ptr)
        (VerifyCommitSignature val commit hostname ptr).
Proof. unfold VerifyCommitSignature. repeat agree_step. Qed.

Lemma agree_loadRecords hostname repoFragment ops :
  agree (VerifyCommitMessage_loadRecords hostname repoFragment ops)
        (VerifyCommitMessage_loadRecords hostname repoFragment ops).
Proof. induction ops as [|op ops IH]; simpl; repeat agree_step; exact IH. Qed.

Lemma agree_prevData_flags val host msg prevData repoFragment :
  agree (VerifyCommitMessage_prevData val host msg prevData repoFragment)
        (VerifyCommitMessage_prevData val host (clear_flags msg) prevData
           repoFragment).
Proof. intros s s'. by rewrite !prevData_result. Qed.

Lemma keeps_warning_VerifyCommitSignature val commit hostname ptr :
  keeps_warning (VerifyCommitSignature val commit hostname ptr).
Proof. unfold VerifyCommitSignature. follows_auto. Qed.

Lemma keeps_warning_loadRecords hostname repoFragment ops :
  keeps_warning (VerifyCommitMessage_loadRecords hostname repoFragment ops).
Proof. induction ops as [|op ops IH]; simpl; follows_auto; exact IH. Qed.

Lemma keeps_warning_legacyOps host msg ops :
  keeps_warning (VerifyCommitMessage_legacyOps host msg ops).
Proof. induction ops as [|o ops IH]; simpl; follows_auto; exact IH. Qed.

Lemma keeps_warning_prevData val host msg prevData repoFragment :
  keeps_warning (VerifyCommitMessage_prevData val host msg prevData repoFragment).
Proof.
  unfold VerifyCommitMessage_prevData.
  apply keeps_warning_bind; [apply keeps_warning_legacyOps | intros returned].
  destruct returned; [apply keeps_warning_ret |].
  destruct (PrevData msg) as [c|]; [|follows_auto].
  apply keeps_warning_bind; [follows_auto | intros _].
  apply keeps_warning_bind; [follows_auto | intros ops].
  apply keeps_warning_bind; [follows_auto | intros nops].
  apply keeps_warning_bind; [apply keeps_warning_invertOps | intros invTree].
  follows_auto.
Qed.

Lemma flag_block (b : bool) ev1 ev2 s s' :
  (if b then bind (emit ev1) (fun _ => bind (emit ev2) (fun _ => setWarning true))
   else ret tt) s = (Ok tt, s') ->
  hasWarning s' = b || hasWarning s.
Proof. destruct b; by intros [= <-]. Qed.

(** X8: the flags [tooBig] and [rebase] of a message never change what
    [VerifyCommitMessage] returns: it returns the same repo fragment or
    the same error as for the message with both flags cleared. And when
    a message with one of the flags set is accepted, [hasWarning] is set
    when the call returns. *)
Theorem VerifyCommitMessage_flags
    (val : Validator) (host : Host) (msg : SyncSubscribeRepos_Commit)
    (prevRev : option TID) (prevData : option Cid) (now : Time)
    (s s0 : vstate) :
  fst (VerifyCommitMessage val host msg prevRev prevData now s)
  = fst (VerifyCommitMessage val host (clear_flags msg) prevRev prevData now s0)
  /\ (TooBig msg || Rebase msg = true ->
      forall repoFragment s',
        VerifyCommitMessage val host msg prevRev prevData now s
        = (Ok repoFragment, s') ->
        hasWarning s' = true).
Proof.
  split.
  - revert s s0.
    change (agree (VerifyCommitMessage val host msg prevRev prevData now)
              (VerifyCommitMessage val host (clear_flags msg) prevRev prevData
                 now)).
    unfold VerifyCommitMessage, VerifyCommitMessage_records. simpl.
    apply agree_bind; [|intros rf; apply agree_prevData_flags].
    repeat first [ agree_step
                 | apply agree_VerifyCommitSignature
                 | apply agree_loadRecords ].
  - intros Hflag repoFragment s'. unfold VerifyCommitMessage.
    intros (rf & s1 & Hrec & Hpd)%bind_Ok.
    assert (Hs1 : hasWarning s1 = true).
    { unfold VerifyCommitMessage_records in Hrec.
      apply bind_Ok in Hrec as ([] & s2 & _ & Hrun).
      apply bind_Ok in Hrun as ([] & s3 & _ & Hrun).
      apply bind_Ok in Hrun as (did & s4 & _ & Hrun).
      apply bind_Ok in Hrun as (rev & s5 & _ & Hrun).
      apply bind_Ok in Hrun as ([] & s6 & _ & Hrun).
      apply bind_Ok in Hrun as ([] & s7 & _ & Hrun).
      apply bind_Ok in Hrun as ([] & s8 & _ & Hrun).
      apply bind_Ok in Hrun as ([] & s9 & Hbig & Hrun).
      apply bind_Ok in Hrun as ([] & s10 & Hreb & Hrun).
      assert (Hs10 : hasWarning s10 = true).
      { apply flag_block in Hbig, Hreb. rewrite Hreb, Hbig.
        destruct (TooBig msg), (Rebase msg); done. }
      apply bind_Ok in Hrun as ([commit rf'] & s11 & [_ ->]%orFail_Ok & Hrun).
      apply bind_Ok in Hrun as ([] & s12 & Hrev & Hrun).
      apply bind_Ok in Hrun as ([] & s13 & Hdid2 & Hrun).
      apply bind_Ok in Hrun as ([] & s14 & Hsig & Hrun).
      apply bind_Ok in Hrun as ([] & s15 & Hrecs & Hrun).
      injection Hrun as _ <-.
      apply guard_Ok in Hrev as [_ ->]; [|intros ?; apply emit_fail_not_Ok].
      apply guard_Ok in Hdid2 as [_ ->]; [|intros ?; apply emit_fail_not_Ok].
      pose proof (keeps_warning_VerifyCommitSignature val commit
                    (Hostname host) true s10 Hs10) as Hw.
      rewrite Hsig in Hw.
      pose proof (keeps_warning_loadRecords (Hostname host) rf' (Ops msg)
                    s14 Hw) as Hw'.
      by rewrite Hrecs in Hw'. }
    pose proof (keeps_warning_prevData val host msg prevData rf s1 Hs1) as Hw.
    by rewrite Hpd in Hw.
Qed.

End ValidatorProofs.

(** ** The lock table *)

Section LockTable.

Import Locks.

Lemma wrap32_small z : - 2 ^ 31 <= z < 2 ^ 31 -> wrap32 z = z.
Proof.
  intros Hz. unfold wrap32.
  rewrite Z.mod_small by lia. lia.
Qed.

Lemma count_app f cs1 cs2 : count f (cs1 ++ cs2) = count f cs1 + count f cs2.
Proof. induction cs1 as [|c cs1 IH]; simpl; [done | rewrite IH; lia]. Qed.

Lemma count_nonneg f cs : 0 <= count f cs.
Proof. induction cs as [|c cs IH]; simpl; [done | destruct (f c); lia]. Qed.

Lemma count_insert f cs i c c' :
  cs !! i = Some c ->
  count f (<[i := c']> cs)
  = count f cs - (if f c then 1 else 0) + (if f c' then 1 else 0).
Proof.
  revert i. induction cs as [|d cs IH]; intros [|i] Hi; simplify_eq/=.
  - lia.
  - rewrite (IH i Hi). lia.
Qed.

Lemma count_elem f cs c : c ∈ cs -> f c = true -> 0 < count f cs.
Proof.
  induction 1 as [c cs | c d cs _ IH]; intros Hf; simpl.
  - rewrite Hf. pose proof (count_nonneg f cs). lia.
  - specialize (IH Hf). destruct (f d); lia.
Qed.

Lemma count_le f g cs :
  (forall c, f c = true -> g c = true) -> count f cs <= count g cs.
Proof.
  intros Hfg. induction cs as [|c cs IH]; simpl; [done |].
  destruct (f c) eqn:Hf; [rewrite (Hfg c Hf) | destruct (g c)]; lia.
Qed.

Lemma count_balanced f cs :
  Forall (fun c => c = Released) cs -> f Released = false -> count f cs = 0.
Proof.
  intros Hall Hf. induction Hall as [|c cs -> _ IH]; simpl; [done |].
  rewrite Hf. lia.
Qed.

Lemma elem_of_insert_inv (cs : list call) i c c' :
  c ∈ <[i := c']> cs -> c = c' \/ c ∈ cs.
Proof.
  revert i. induction cs as [|d cs IH]; intros i Hc.
  - by right.
  - destruct i as [|i]; simpl in Hc; apply elem_of_cons in Hc as [->|Hc];
      rewrite elem_of_cons.
    + by left.
    + right; by right.
    + right; by left.
    + destruct (IH i Hc) as [->|Hin]; [by left | right; by right].
Qed.

Lemma waits_on_in_flight uid c : waits_on uid c = true -> in_flight c = true.
Proof. by destruct c. Qed.

Lemma holds_waits_on uid c : holds uid c = true -> waits_on uid c = true.
Proof. by destruct c. Qed.

Lemma waits_on_ref uid c :
  waits_on uid c = true <-> exists p, call_ref c = Some (uid, p).
Proof.
  destruct c as [u p|u p|u p|]; simpl; split;
    try (intros ->%Z.eqb_eq; by eexists);
    try (intros [q [= -> _]]; apply Z.eqb_refl);
    try done; by intros [q ?].
Qed.

Lemma Inv_init : Inv init.
Proof.
  split; simpl; try done.
  intros c uid p Hc. by apply elem_of_nil in Hc.
Qed.

Lemma Inv_enter uid ulk val' s :
  Inv s ->
  lockUser_enter uid (validator s) = Done (ulk, val') ->
  count in_flight (calls s ++ [Entered uid ulk]) < 2 ^ 31 ->
  Inv {| validator := val'; calls := calls s ++ [Entered uid ulk] |}.
Proof.
  destruct s as [v cs]. intros [Hb Hl Hfree Hentry Href Hinj] Henter Hbound.
  simpl in *. unfold lockUser_enter in Henter.
  destruct (lklk v) eqn:Hlklk; [done |].
  assert (Hw : count (waits_on uid) (cs ++ [Entered uid ulk])
               = count (waits_on uid) cs + 1).
  { rewrite count_app. simpl. rewrite Z.eqb_refl. lia. }
  assert (Hwb : count (waits_on uid) (cs ++ [Entered uid ulk]) < 2 ^ 31).
  { eapply Z.le_lt_trans; [apply count_le, waits_on_in_flight | done]. }
  assert (Hother : forall u, u <> uid ->
            count (waits_on u) (cs ++ [Entered uid ulk]) = count (waits_on u) cs).
  { intros u Hu. rewrite count_app. simpl.
    destruct (uid =? u) eqn:E; [apply Z.eqb_eq in E; congruence | lia]. }
  assert (Hholds : forall u,
            count (holds u) (cs ++ [Entered uid ulk]) = count (holds u) cs).
  { intros u. rewrite count_app. simpl. lia. }
  pose proof (count_nonneg (waits_on uid) cs) as Hnn.
  destruct (userLocks v !! uid) as [p|] eqn:Hlook; simplify_eq/=.
  - (* the user already has a lock struct *)
    split; simpl.
    + done.
    + rewrite count_app. simpl. lia.
    + intros u Hu. rewrite Hother; [by apply Hfree | congruence].
    + intros u q Hu. destruct (decide (u = uid)) as [-> | Hne].
      * assert (q = ulk) by congruence. subst q.
        destruct (Hentry uid ulk Hlook) as (l & Hh & Hwl & Hpos & Hhl).
        exists (add_waiters 1 l). rewrite lookup_alter_eq, Hh. simpl.
        rewrite Hw, Hholds, <- Hwl in *.
        rewrite wrap32_small by lia. repeat split; [lia | done].
      * destruct (Hentry u q Hu) as (l & Hh & Hwl & Hpos & Hhl).
        exists l. rewrite lookup_alter_ne by (intros ->; eauto).
        rewrite Hother, Hholds by done. done.
    + intros c u q [Hc | ->%list_elem_of_singleton]%elem_of_app Hr.
      * by eapply Href.
      * by simplify_eq/=.
    + done.
  - (* a new lock struct is allocated *)
    pose proof (is_fresh (dom (heap v))) as Hfresh.
    set (ulk := fresh (dom (heap v))) in *.
    assert (Hnew : forall u q, userLocks v !! u = Some q -> q <> ulk).
    { intros u q Hu ->. destruct (Hentry u ulk Hu) as (l & Hh & _).
      apply Hfresh. by eapply elem_of_dom_2. }
    pose proof (Hfree uid Hlook) as Hw0.
    assert (Hh0 : count (holds uid) cs = 0).
    { pose proof (count_le (holds uid) (waits_on uid) cs (holds_waits_on uid)).
      pose proof (count_nonneg (holds uid) cs). lia. }
    split; simpl.
    + done.
    + rewrite count_app. simpl. lia.
    + intros u [Hne Hu]%lookup_insert_None.
      rewrite Hother; [by apply Hfree | done].
    + intros u q Hu. destruct (decide (u = uid)) as [-> | Hne].
      * rewrite lookup_insert_eq in Hu. simplify_eq.
        eexists. rewrite lookup_alter_eq, lookup_insert_eq. simpl.
        split; [done |]. rewrite Hw, Hholds, Hh0, Hw0. by vm_compute.
      * rewrite lookup_insert_ne in Hu by done.
        destruct (Hentry u q Hu) as (l & Hh & Hwl & Hpos & Hhl).
        exists l. rewrite lookup_alter_ne, lookup_insert_ne by (symmetry; eauto).
        rewrite Hother, Hholds by done. done.
    + intros c u q [Hc | ->%list_elem_of_singleton]%elem_of_app Hr.
      * pose proof (Href c u q Hc Hr) as Hu.
        rewrite lookup_insert_ne; [done | congruence].
      * simplify_eq/=. apply lookup_insert_eq.
    + intros u1 u2 p [[-> <-] | [Hn1 H1]]%lookup_insert_Some
        [[-> E] | [Hn2 H2]]%lookup_insert_Some; try done.
      * by destruct (Hnew u2 ulk H2).
      * by destruct (Hnew u1 _ H1).
      * eauto.
Qed.

Lemma Inv_lock i uid ulk val' s :
  Inv s ->
  calls s !! i = Some (Entered uid ulk) ->
  lockUser_lock ulk (validator s) = Done val' ->
  Inv {| validator := val'; calls := <[i := Locked uid ulk]> (calls s) |}.
Proof.
  destruct s as [v cs]. intros [Hb Hl Hfree Hentry Href Hinj] Hi Hlock.
  simpl in *. unfold lockUser_lock in Hlock.
  destruct (heap v !! ulk) as [l|] eqn:Hh; [|done].
  destruct (lk l) eqn:Hlk; simplify_eq/=.
  assert (Hu : userLocks v !! uid = Some ulk).
  { eapply Href; [by eapply list_elem_of_lookup_2 | done]. }
  split; simpl.
  - rewrite (count_insert _ _ _ _ _ Hi). simpl. lia.
  - rewrite (count_insert _ _ _ _ _ Hi). simpl. lia.
  - intros u Hnone. rewrite (count_insert _ _ _ _ _ Hi). simpl.
    rewrite (Hfree u Hnone). lia.
  - intros u q Hq. rewrite !(count_insert _ _ _ _ _ Hi). simpl.
    destruct (decide (u = uid)) as [-> | Hne].
    + assert (q = ulk) by congruence. subst q.
      destruct (Hentry uid ulk Hu) as (l' & Hh' & Hwl & Hpos & Hhl).
      assert (l' = l) by congruence. subst l'. rewrite Hlk in Hhl.
      exists (set_lk true l). rewrite lookup_insert_eq, Z.eqb_refl. simpl.
      repeat split; [lia | done | lia].
    + destruct (Hentry u q Hq) as (l' & Hh' & Hwl & Hpos & Hhl).
      exists l'. rewrite lookup_insert_ne by (intros ->; eauto).
      destruct (uid =? u) eqn:E; [apply Z.eqb_eq in E; congruence |].
      repeat split; [done | lia | done | lia].
  - intros c u q [-> | Hc]%elem_of_insert_inv Hr.
    + by simplify_eq/=.
    + by eapply Href.
  - done.
Qed.

Lemma Inv_unlock i uid ulk val' s :
  Inv s ->
  calls s !! i = Some (Locked uid ulk) ->
  release_unlock ulk (validator s) = Done val' ->
  Inv {| validator := val'; calls := <[i := Unlocking uid ulk]> (calls s) |}.
Proof.
  destruct s as [v cs]. intros [Hb Hl Hfree Hentry Href Hinj] Hi Hrel.
  simpl in *. unfold release_unlock in Hrel.
  destruct (lklk v) eqn:Hlklk; [done |].
  destruct (heap v !! ulk) as [l|] eqn:Hh; [|done].
  destruct (lk l) eqn:Hlk; simplify_eq/=.
  assert (Hu : userLocks v !! uid = Some ulk).
  { eapply Href; [by eapply list_elem_of_lookup_2 | done]. }
  split; simpl.
  - rewrite (count_insert _ _ _ _ _ Hi). simpl. lia.
  - rewrite (count_insert _ _ _ _ _ Hi). simpl. lia.
  - intros u Hnone. rewrite (count_insert _ _ _ _ _ Hi). simpl.
    rewrite (Hfree u Hnone). lia.
  - intros u q Hq. rewrite !(count_insert _ _ _ _ _ Hi). simpl.
    destruct (decide (u = uid)) as [-> | Hne].
    + assert (q = ulk) by congruence. subst q.
      destruct (Hentry uid ulk Hu) as (l' & Hh' & Hwl & Hpos & Hhl).
      assert (l' = l) by congruence. subst l'. rewrite Hlk in Hhl.
      exists (set_lk false l). rewrite lookup_insert_eq, Z.eqb_refl. simpl.
      repeat split; [lia | done | lia].
    + destruct (Hentry u q Hq) as (l' & Hh' & Hwl & Hpos & Hhl).
      exists l'. rewrite lookup_insert_ne by (intros ->; eauto).
      destruct (uid =? u) eqn:E; [apply Z.eqb_eq in E; congruence |].
      repeat split; [done | lia | done | lia].
  - intros c u q [-> | Hc]%elem_of_insert_inv Hr.
    + by simplify_eq/=.
    + by eapply Href.
  - done.
Qed.

Lemma Inv_finish i uid ulk s :
  Inv s ->
  calls s !! i = Some (Unlocking uid ulk) ->
  Inv {| validator := release_finish uid ulk (validator s);
         calls := <[i := Released]> (calls s) |}.
Proof.
  destruct s as [v cs]. intros [Hb Hl Hfree Hentry Href Hinj] Hi.
  simpl in *.
  assert (Hin : Unlocking uid ulk ∈ cs) by (by eapply list_elem_of_lookup_2).
  assert (Hu : userLocks v !! uid = Some ulk) by (by eapply Href).
  destruct (Hentry uid ulk Hu) as (l & Hh & Hwl & Hpos & Hhl).
  pose proof (count_elem unlocking cs _ Hin eq_refl) as Hunl.
  pose proof (count_le (waits_on uid) in_flight cs (waits_on_in_flight uid)) as Hle.
  assert (Hnv : alter (add_waiters (-1)) ulk (heap v) !! ulk
                = Some (add_waiters (-1) l)).
  { by rewrite lookup_alter_eq, Hh. }
  assert (Hwrap : waiters (add_waiters (-1) l) = waiters l - 1).
  { simpl. rewrite wrap32_small; lia. }
  unfold release_finish. rewrite Hnv, Hwrap.
  assert (Hcw : count (waits_on uid) (<[i := Released]> cs) = waiters l - 1).
  { rewrite (count_insert _ _ _ _ _ Hi). simpl. rewrite Z.eqb_refl. lia. }
  assert (Hother : forall u q, u <> uid -> userLocks v !! u = Some q ->
            exists l', alter (add_waiters (-1)) ulk (heap v) !! q = Some l'
              /\ waiters l' = count (waits_on u) (<[i := Released]> cs)
              /\ 0 < waiters l'
              /\ count (holds u) (<[i := Released]> cs) = if lk l' then 1 else 0).
  { intros u q Hne Hq.
    destruct (Hentry u q Hq) as (l' & Hh' & Hwl' & Hpos' & Hhl').
    exists l'. rewrite lookup_alter_ne by (intros ->; eauto).
    rewrite !(count_insert _ _ _ _ _ Hi). simpl.
    destruct (uid =? u) eqn:E; [apply Z.eqb_eq in E; congruence |].
    repeat split; [done | lia | done | lia]. }
  split; simpl.
  - rewrite (count_insert _ _ _ _ _ Hi). simpl. lia.
  - rewrite (count_insert _ _ _ _ _ Hi). simpl. destruct (lklk v); lia.
  - intros u Hnone. destruct (decide (u = uid)) as [-> | Hne].
    + destruct (Z.eqb_spec (waiters l - 1) 0) as [E | E]; [lia |].
      congruence.
    + rewrite (count_insert _ _ _ _ _ Hi). simpl.
      destruct (uid =? u) eqn:E; [apply Z.eqb_eq in E; congruence |].
      rewrite Hfree; [lia |].
      destruct (waiters l - 1 =? 0); [|done].
      by rewrite lookup_delete_ne in Hnone.
  - intros u q Hq. destruct (decide (u = uid)) as [-> | Hne].
    + destruct (Z.eqb_spec (waiters l - 1) 0) as [E | E].
      * by rewrite lookup_delete_eq in Hq.
      * assert (q = ulk) by congruence. subst q.
        exists (add_waiters (-1) l). rewrite Hnv, Hwrap, Hcw.
        rewrite (count_insert _ _ _ _ _ Hi). simpl.
        repeat split; [lia | lia].
    + apply Hother; [done |].
      destruct (waiters l - 1 =? 0); [|done].
      by rewrite lookup_delete_ne in Hq.
  - intros c u q Hc' Hr.
    destruct (elem_of_insert_inv _ _ _ _ Hc') as [-> | Hc]; [done |].
    pose proof (Href c u q Hc Hr) as Hq.
    destruct (Z.eqb_spec (waiters l - 1) 0) as [E | E]; [|done].
    destruct (decide (u = uid)) as [-> | Hne].
    + assert (Hwc : waits_on uid c = true) by (apply waits_on_ref; eauto).
      pose proof (count_elem _ _ _ Hc' Hwc). lia.
    + by rewrite lookup_delete_ne.
  - intros u1 u2 p H1 H2.
    destruct (waiters l - 1 =? 0); [|eauto].
    apply lookup_delete_Some in H1 as [_ H1].
    apply lookup_delete_Some in H2 as [_ H2]. eauto.
Qed.

Lemma reachable_Inv s : reachable s -> Inv s.
Proof.
  induction 1 as [|s s' _ IH Hstep Hbound]; [apply Inv_init |].
  destruct Hstep; eauto using Inv_enter, Inv_lock, Inv_unlock, Inv_finish.
Qed.

Lemma exec_step a s s' : exec a s = Some s' -> step s s'.
Proof.
  destruct a as [uid | i | i | i]; simpl; intros Hexec.
  - destruct (lockUser_enter uid (validator s)) as [[ulk val'] | |] eqn:E;
      simplify_eq. by constructor.
  - destruct (calls s !! i) as [[uid ulk | | |]|] eqn:Hi; try done.
    destruct (lockUser_lock ulk (validator s)) eqn:E; simplify_eq.
    by econstructor.
  - destruct (calls s !! i) as [[| uid ulk | |]|] eqn:Hi; try done.
    destruct (release_unlock ulk (validator s)) eqn:E; simplify_eq.
    by econstructor.
  - destruct (calls s !! i) as [[| | uid ulk |]|] eqn:Hi; simplify_eq.
    by econstructor.
Qed.

Lemma run_reachable sched s s' :
  reachable s -> run sched s = Some s' -> reachable s'.
Proof.
  revert s. induction sched as [|a sched IH]; simpl; intros s Hs Hrun.
  - by simplify_eq.
  - destruct (exec a s) as [s1|] eqn:Hexec; [|done].
    destruct (Z.ltb_spec (count in_flight (calls s1)) (2 ^ 31)); [|done].
    eapply IH; [|done]. eapply reachable_step; eauto using exec_step.
Qed.

(** In an execution the runtime never aborts: the mutex a call is about
    to unlock is locked, and the struct it is about to lock exists. *)
Lemma release_unlock_not_fatal s i uid ulk :
  reachable s -> calls s !! i = Some (Locked uid ulk) ->
  release_unlock ulk (validator s) <> Fatal.
Proof.
  intros [_ _ _ Hentry Href _]%reachable_Inv Hi.
  assert (Hin : Locked uid ulk ∈ calls s) by (by eapply list_elem_of_lookup_2).
  destruct (Hentry uid ulk (Href _ _ _ Hin eq_refl)) as (l & Hh & _ & _ & Hhl).
  unfold release_unlock. rewrite Hh.
  pose proof (count_elem (holds uid) _ _ Hin) as Hpos.
  simpl in Hpos. rewrite Z.eqb_refl in Hpos. specialize (Hpos eq_refl).
  destruct (lklk (validator s)); [done |].
  destruct (lk l); [done | lia].
Qed.

Lemma lockUser_lock_not_fatal s i uid ulk :
  reachable s -> calls s !! i = Some (Entered uid ulk) ->
  lockUser_lock ulk (validator s) <> Fatal.
Proof.
  intros [_ _ _ Hentry Href _]%reachable_Inv Hi.
  assert (Hin : Entered uid ulk ∈ calls s) by (by eapply list_elem_of_lookup_2).
  destruct (Hentry uid ulk (Href _ _ _ Hin eq_refl)) as (l & Hh & _).
  unfold lockUser_lock. rewrite Hh. by destruct (lk l).
Qed.

(** At most one call holds the lock of a user at any time. *)
Lemma user_lock_exclusive s uid :
  reachable s -> count (holds uid) (calls s) <= 1.
Proof.
  intros [_ _ Hfree Hentry _ _]%reachable_Inv.
  destruct (userLocks (validator s) !! uid) as [p|] eqn:Hu.
  - destruct (Hentry uid p Hu) as (l & _ & _ & _ & ->). destruct (lk l); lia.
  - pose proof (count_le (holds uid) (waits_on uid) (calls s)
                  (holds_waits_on uid)).
    rewrite (Hfree uid Hu) in *. lia.
Qed.

(** C7: in every execution of concurrent [lockUser] calls and release
    functions on a new validator, the table has an entry for a user
    exactly while calls that entered [lockUser] for that user have not
    finished their release, and the [waiters] of that entry is their
    number; so the entry is gone once the count is back to zero, and
    when every call has been released the table is empty. *)
Theorem userLocks_clean (s : state) :
  reachable s ->
  (forall uid,
     userLocks (validator s) !! uid = None
     <-> count (waits_on uid) (calls s) = 0)
  /\ (forall uid ulk,
      userLocks (validator s) !! uid = Some ulk ->
      exists l, heap (validator s) !! ulk = Some l
                /\ waiters l = count (waits_on uid) (calls s))
  /\ (balanced s -> userLocks (validator s) = ∅).
Proof.
  intros [_ _ Hfree Hentry _ _]%reachable_Inv.
  assert (Hiff : forall uid,
            userLocks (validator s) !! uid = None
            <-> count (waits_on uid) (calls s) = 0).
  { intros uid. split; [apply Hfree |]. intros Hzero.
    destruct (userLocks (validator s) !! uid) as [p|] eqn:Hu; [|done].
    destruct (Hentry uid p Hu) as (l & _ & Hw & Hpos & _). lia. }
  split; [done |]. split.
  - intros uid ulk Hu.
    destruct (Hentry uid ulk Hu) as (l & Hh & Hw & _). eauto.
  - intros Hbal. apply map_empty. intros uid. apply Hiff.
    by apply count_balanced.
Qed.

Lemma userLocks_clean_witness :
  reachable demo_state /\ balanced demo_state
  /\ userLocks (validator demo_state) = ∅.
Proof.
  assert (Hreach : reachable demo_state).
  { apply (run_reachable demo_schedule init); [constructor | by vm_compute]. }
  assert (Hbal : balanced demo_state).
  { unfold balanced. vm_compute. repeat constructor. }
  split; [done |]. split; [done |].
  exact (proj2 (proj2 (userLocks_clean demo_state Hreach)) Hbal).
Defined.

(** A call that finds the table of a new validator empty takes the lock at
    once, and its release leaves the table empty again. *)
Lemma lockUser_release_new uid :
  exists ulk val val',
    lockUser uid NewValidator = Done (ulk, val)
    /\ userLocks val !! uid = Some ulk
    /\ release uid ulk val = Done val'
    /\ userLocks val' = ∅.
Proof.
  unfold lockUser, release, lockUser_enter, lockUser_lock, release_unlock,
    release_finish. simpl.
  rewrite lookup_empty. simpl.
  rewrite lookup_alter_eq, lookup_insert_eq. simpl.
  eexists _, _, _. split; [done |]. simpl.
  split; [apply lookup_insert_eq |].
  rewrite lookup_insert_eq. simpl. split; [done |]. simpl.
  rewrite lookup_alter_eq, lookup_insert_eq. simpl.
  by rewrite delete_insert_eq, delete_empty.
Qed.

(** *** Contention, progress and the runtime checks of the mutexes *)

Lemma count_zero_not_elem f cs c :
  count f cs = 0 -> c ∈ cs -> f c = false.
Proof.
  intros Hzero Hin. destruct (f c) eqn:Hf; [|done].
  pose proof (count_elem f cs c Hin Hf). lia.
Qed.

Lemma count_pos_elem f cs :
  0 < count f cs -> exists i c, cs !! i = Some c /\ f c = true.
Proof.
  induction cs as [|c cs IH]; simpl; [lia |].
  destruct (f c) eqn:Hf.
  - intros _. by exists 0%nat, c.
  - intros Hpos. destruct IH as (i & c' & Hi & Hc'); [lia |].
    by exists (S i), c'.
Qed.

(** X9: a call that waits in [ulk.lk.Lock()] for the lock of a user is
    held up exactly while another call holds the lock of the same user:
    it can proceed when no call holds that user's lock, whatever calls
    for other users are doing, and it cannot while one does. *)
Theorem lockUser_contends_per_user (s : state) i uid ulk :
  reachable s ->
  calls s !! i = Some (Entered uid ulk) ->
  (count (holds uid) (calls s) = 0 ->
   exists val', lockUser_lock ulk (validator s) = Done val')
  /\ (count (holds uid) (calls s) <> 0 ->
      lockUser_lock ulk (validator s) = Blocked).
Proof.
  intros [_ _ _ Hentry Href _]%reachable_Inv Hi.
  assert (Hin : Entered uid ulk ∈ calls s) by (by eapply list_elem_of_lookup_2).
  destruct (Hentry uid ulk (Href _ _ _ Hin eq_refl)) as (l & Hh & _ & _ & Hhl).
  unfold lockUser_lock. rewrite Hh.
  destruct (lk l); split; intros Hc; try done; try lia; by eexists.
Qed.

Lemma not_balanced_in_flight cs :
  ~ Forall (fun c => c = Released) cs -> 0 < count in_flight cs.
Proof.
  induction cs as [|c cs IH]; intros Hnot.
  - destruct Hnot. constructor.
  - simpl. pose proof (count_nonneg in_flight cs).
    destruct c; simpl; try lia.
    apply IH. intros Hall. apply Hnot. by constructor.
Qed.

(** X10: the lock table never deadlocks: in every state of an execution
    in which some call has not yet been released, one of the calls under
    way can take its next step, and the state it leads to is again a
    state of an execution. *)
Theorem lockUser_no_deadlock (s : state) :
  reachable s -> ~ balanced s ->
  exists s', step s s' /\ reachable s' /\ length (calls s') = length (calls s).
Proof.
  intros Hreach Hnot.
  pose proof (reachable_Inv s Hreach) as [Hb Hl Hfree Hentry Href Hinj].
  assert (Hstep : exists i c s',
            calls s !! i = Some c /\ in_flight c = true /\ step s s'
            /\ calls s' = <[i := match c with
                                 | Entered u p => Locked u p
                                 | Locked u p => Unlocking u p
                                 | _ => Released
                                 end]> (calls s)).
  { destruct (Z.eq_dec (count unlocking (calls s)) 0) as [Hun | Hun].
    - (* nobody is inside the release function: [lklk] is free *)
      assert (Hlklk : lklk (validator s) = false).
      { destruct (lklk (validator s)); [lia | done]. }
      set (locked := fun c => match c with Locked _ _ => true | _ => false end).
      destruct (Z.eq_dec (count locked (calls s)) 0) as [Hlo | Hlo].
      + (* nobody holds a lock: any waiting call can take its lock *)
        apply not_balanced_in_flight, count_pos_elem in Hnot
          as (i & c & Hi & Hc).
        assert (Hin : c ∈ calls s) by (by eapply list_elem_of_lookup_2).
        pose proof (count_zero_not_elem _ _ _ Hun Hin) as Hcu.
        pose proof (count_zero_not_elem _ _ _ Hlo Hin) as Hcl.
        destruct c as [uid ulk | | |]; try done.
        destruct (Hentry uid ulk (Href _ _ _ Hin eq_refl))
          as (l & Hh & _ & _ & Hhl).
        assert (Hk : lk l = false).
        { destruct (lk l); [|done].
          assert (0 < count (holds uid) (calls s)) as Hpos by lia.
          apply count_pos_elem in Hpos as (j & c' & Hj & Hc').
          apply list_elem_of_lookup_2 in Hj.
          pose proof (count_zero_not_elem _ _ _ Hlo Hj) as Hc''.
          by destruct c'. }
        exists i, (Entered uid ulk). eexists.
        split; [done |]. split; [done |]. split.
        { eapply step_lock; [done |]. unfold lockUser_lock. by rewrite Hh, Hk. }
        reflexivity.
      + (* a call holds a lock: it can enter its release *)
        pose proof (count_nonneg locked (calls s)).
        assert (Hpos : 0 < count locked (calls s)) by lia.
        apply count_pos_elem in Hpos as (i & c & Hi & Hc).
        destruct c as [| uid ulk | |]; try done.
        assert (Hin : Locked uid ulk ∈ calls s)
          by (by eapply list_elem_of_lookup_2).
        destruct (Hentry uid ulk (Href _ _ _ Hin eq_refl))
          as (l & Hh & _ & _ & Hhl).
        assert (Hk : lk l = true).
        { destruct (lk l); [done |].
          pose proof (count_elem (holds uid) _ _ Hin) as Hpos. simpl in Hpos.
          rewrite Z.eqb_refl in Hpos. specialize (Hpos eq_refl). lia. }
        exists i, (Locked uid ulk). eexists.
        split; [done |]. split; [done |]. split.
        { eapply step_unlock; [done |].
          unfold release_unlock. by rewrite Hlklk, Hh, Hk. }
        reflexivity.
    - (* a call is inside the release function: it can finish *)
      pose proof (count_nonneg unlocking (calls s)).
      assert (Hpos : 0 < count unlocking (calls s)) by lia.
      apply count_pos_elem in Hpos as (i & c & Hi & Hc).
      destruct c as [| | uid ulk |]; try done.
      exists i, (Unlocking uid ulk). eexists.
      split; [done |]. split; [done |]. split; [by eapply step_finish |].
      reflexivity. }
  destruct Hstep as (i & c & s' & Hi & Hc & Hstep & Hcalls).
  exists s'. split; [done |]. split.
  - eapply reachable_step; [done.. |]. rewrite Hcalls.
    rewrite (count_insert _ _ _ _ _ Hi). rewrite Hc.
    destruct c; simpl; lia.
  - by rewrite Hcalls, length_insert.
Qed.

(** X11: the Go runtime never aborts a call in an execution: the release
    function only unlocks a mutex that is locked, and the struct a call
    locks or unlocks is one the validator allocated. *)
Theorem lockUser_never_fatal (s : state) i uid ulk :
  reachable s ->
  (calls s !! i = Some (Entered uid ulk) ->
   lockUser_lock ulk (validator s) <> Fatal)
  /\ (calls s !! i = Some (Locked uid ulk) ->
      release_unlock ulk (validator s) <> Fatal).
Proof.
  intros Hreach. split; intros Hi.
  - by eapply lockUser_lock_not_fatal.
  - by eapply release_unlock_not_fatal.
Qed.

End LockTable.

(** ** The user lock around a validation *)

Section UserLock.

Import Relay.

Context `{Packages}.

(** C8, for [HandleCommit]: every call of [HandleCommit] takes the user
    lock of [account.UID] before anything else and releases it as its
    last action, with no other lock or release in between; at most one
    call holds the lock of a user at a time, so two [HandleCommit] calls
    for one UID do not overlap. [HandleSync], which is given no account,
    takes no lock. *)
Theorem HandleCommit_holds_user_lock :
  (forall val host account commit prevRev prevData now s,
     exists body,
       events (snd (HandleCommit val host account commit prevRev prevData now s))
       = events s ++ [userLocked (UID account)] ++ body
           ++ [userUnlocked (UID account)]
       /\ Forall other_event body)
  /\ (forall st uid,
        Locks.reachable st ->
        Locks.count (Locks.holds uid) (Locks.calls st) <= 1)
  /\ (forall val host msg now s,
        exists evs,
          events (snd (HandleSync val host msg now s)) = events s ++ evs
          /\ Forall other_event evs).
Proof.
  split; [apply HandleCommit_events |]. split.
  - intros st uid Hst. by apply user_lock_exclusive.
  - intros val host msg now s.
    apply (follows_HandleSync val host msg now s).
Qed.

End UserLock.

(** ** The statements on concrete inputs *)

Section Witnesses.

Import Relay.

Lemma VerifyCommitSignature_lookup_error_witness :
  VerifyCommitSignature (H := demo_packages) demo_validator demo_commit
    "pds.example" true demo_state
  = (Ok tt,
     {| hasWarning := true;
        events := [callLookupDID ("did:plc:alice"%string : @DID demo_packages);
                   commitVerifyWarnings "pds.example" "nok"] |}).
Proof.
  apply (proj2 (VerifyCommitSignature_lookup_error (H := demo_packages)
                  demo_validator demo_commit "pds.example" true demo_state
                  [] "did:plc:alice"%string "DID not found"%string));
    reflexivity.
Defined.

Lemma VerifyCommitMessage_rev_order_witness :
  fst (VerifyCommitMessage (H := demo_packages) demo_validator_alice demo_host
         demo_msg (Some ("aaaa"%string : @TID demo_packages)) None 0 demo_state)
  = Err (revOutOfOrderError 1000000000).
Proof.
  apply (proj1 (VerifyCommitMessage_rev_order (H := demo_packages)
                  demo_validator_alice demo_host demo_msg "aaaa"%string None 0
                  demo_state "did:plc:alice"%string "aaa"%string
                  eq_refl eq_refl)).
  by vm_compute.
Defined.

Lemma VerifyCommitMessage_future_bound_witness :
  fst (VerifyCommitMessage (H := demo_packages) demo_validator_alice demo_host
         demo_msg (Some ("aa"%string : @TID demo_packages)) None
         (- 3597000000001) demo_state)
  = Err (ErrRevTooFarFuture demo_validator_alice).
Proof.
  apply (proj2 (proj1 (proj2 (VerifyCommitMessage_future_bound
                                (H := demo_packages)
                                (Some ["did:plc:alice"%string]) demo_host
                                demo_msg (Some "aa"%string) None
                                (- 3597000000001) demo_state
                                "did:plc:alice"%string "aaa"%string
                                eq_refl eq_refl)))).
  split.
  - intros p [= <-]. by vm_compute.
  - by vm_compute.
Defined.

(** A rev beyond [now + maxRevFuture] that is also before [prevRev]: the
    validation fails with the out-of-order error, which is not the
    validator's [ErrRevTooFarFuture]. *)
Lemma VerifyCommitMessage_future_rev_out_of_order :
  - 3597000000001 + maxRevFuture demo_validator_alice
  < TID_Time (Packages := demo_packages) "aaa"%string
  /\ fst (VerifyCommitMessage (H := demo_packages) demo_validator_alice
            demo_host demo_msg (Some ("aaaa"%string : @TID demo_packages)) None
            (- 3597000000001) demo_state)
     = Err (revOutOfOrderError 1000000000)
  /\ fst (VerifyCommitMessage (H := demo_packages) demo_validator_alice
            demo_host demo_msg (Some ("aaaa"%string : @TID demo_packages)) None
            (- 3597000000001) demo_state)
     <> Err (ErrRevTooFarFuture demo_validator_alice).
Proof.
  split; [by vm_compute |]. split; [reflexivity |]. discriminate.
Qed.

Lemma VerifyCommitMessage_legacy_witness :
  is_Ok (fst (VerifyCommitMessage (H := demo_packages) demo_validator_alice
                demo_host demo_msg_legacy None None 0 demo_state)) = true.
Proof.
  destruct (VerifyCommitMessage_legacy (H := demo_packages)
              demo_validator_alice demo_host demo_msg_legacy None None 0
              demo_state _ _ eq_refl eq_refl)
    as (o & lbl & _ & _ & _ & ->).
  reflexivity.
Defined.

Lemma VerifyCommitMessage_prevData_mismatch_witness :
  hasWarning
    (snd (VerifyCommitMessage (H := demo_packages) demo_validator_alice
            demo_host demo_msg_bad_prevData None
            (Some (demo_cid "post/1=Z;")) 0 demo_state)) = true
  /\ fst (VerifyCommitMessage (H := demo_packages) demo_validator_alice
            demo_host demo_msg_bad_prevData None
            (Some (demo_cid "post/1=Z;")) 0 demo_state)
     = Err (Errorf "inverted tree root didn't match prevData" []).
Proof.
  pose proof (VerifyCommitMessage_prevData_mismatch (H := demo_packages)
                demo_validator_alice demo_host demo_msg_bad_prevData None
                (Some (demo_cid "post/1=Z;")) 0 demo_state _ _
                (demo_cid "post/1=C;") eq_refl eq_refl eq_refl)
    as (_ & Hwarn & Hroot).
  split.
  - apply (Hwarn (demo_cid "post/1=Z;") eq_refl). discriminate.
  - eapply Hroot; [reflexivity.. | discriminate].
Defined.

Lemma HandleCommit_holds_user_lock_witness :
  Locks.reachable Locks.demo_contended
  /\ Locks.count (Locks.holds 7) (Locks.calls Locks.demo_contended) <= 1.
Proof.
  assert (Hreach : Locks.reachable Locks.demo_contended).
  { apply (run_reachable (take 5 Locks.demo_schedule) Locks.init);
      [constructor | by vm_compute]. }
  split; [done |].
  exact (proj1 (proj2 (HandleCommit_holds_user_lock (H := demo_packages)))
           Locks.demo_contended 7 Hreach).
Defined.

(** [HandleSync] validates this message and returns its data CID without
    taking the lock of any user. *)
Lemma HandleSync_takes_no_lock :
  fst (HandleSync (H := demo_packages) demo_validator_alice demo_host
         demo_sync 0 demo_state)
  = Ok (demo_cid "post/1=B;")
  /\ ~ exists uid,
         userLocked uid
         ∈ events (snd (HandleSync (H := demo_packages) demo_validator_alice
                          demo_host demo_sync 0 demo_state)).
Proof.
  split; [reflexivity |].
  intros [uid Hin]. vm_compute in Hin.
  repeat (apply elem_of_cons in Hin as [Hin | Hin]; [discriminate |]).
  by apply elem_of_nil in Hin.
Qed.

(** The update of post/1 with the right [prevData] is accepted: inverting
    the update on the tree of the commit gives the claimed previous root.
    With the same CID as accumulated state the commit counts as "ok". *)
Example VerifyCommitMessage_prevData_match :
  VerifyCommitMessage (H := demo_packages) demo_validator_alice demo_host
    demo_msg (Some ("aaa"%string : @TID demo_packages))
    (Some (demo_cid "post/1=A;")) 0 demo_state
  = (Ok [("post/1"%string, demo_cid "B")],
     {| hasWarning := false;
        events := [commitVerifyStarts;
                   callLookupDID ("did:plc:alice"%string : @DID demo_packages);
                   callVerifySignature demo_commit;
                   commitVerifyOk "pds.example"] |}).
Proof. reflexivity. Qed.

(** [HandleCommit] on the same message: the lock of user 7 is taken
    first and released last, and the new root is returned. *)
Example HandleCommit_demo :
  HandleCommit (H := demo_packages) demo_validator_alice demo_host
    demo_account demo_msg None None 0 demo_state
  = (Ok (demo_cid "post/1=B;"),
     {| hasWarning := false;
        events := [userLocked 7; commitVerifyStarts;
                   callLookupDID ("did:plc:alice"%string : @DID demo_packages);
                   callVerifySignature demo_commit;
                   commitVerifyOkish "pds.example" "new";
                   userUnlocked 7] |}).
Proof. reflexivity. Qed.

(** While the first call for user 7 holds the lock, the second one has to
    wait, and the entry of user 7 counts both. *)
Example lockUser_contended :
  Locks.calls Locks.demo_contended
  = [Locks.Locked 7 1%positive; Locks.Entered 7 1%positive;
     Locks.Locked 9 2%positive]
  /\ Locks.lockUser_lock 1%positive (Locks.validator Locks.demo_contended)
     = Locks.Blocked
  /\ Locks.heap (Locks.validator Locks.demo_contended) !! 1%positive
     = Some {| Locks.lk := true; Locks.waiters := 2 |}.
Proof. by vm_compute. Qed.

End Witnesses.

(** ** The catalog of schemas *)

Section LexiconProofs.

Import Lexicon.

Context `{SchemaOps}.

Lemma prefix_app (a b : string) : String.prefix a (a ++ b) = true.
Proof.
  induction a as [|ch a IH]; simpl; [by destruct b |].
  destruct (Ascii.ascii_dec ch ch); [done | congruence].
Qed.

Lemma Contains_app_r (a b sub : string) :
  Contains b sub = true -> Contains (a ++ b) sub = true.
Proof.
  intros Hb. induction a as [|ch a IH]; simpl; [done |].
  rewrite IH. apply orb_true_r.
Qed.

Lemma Contains_name (base frag : string) :
  Contains (base ++ "#" ++ frag) "#" = true.
Proof. apply Contains_app_r. simpl. by destruct frag. Qed.

Lemma entry_None base c frag def c' :
  AddSchemaFile_entry base c frag def = (c', None) <->
  entry_valid base frag def
  /\ schemas c !! (base ++ "#" ++ frag)%string = None
  /\ c' = {| schemas := <[(base ++ "#" ++ frag)%string := stored base frag def]>
                          (schemas c) |}.
Proof.
  unfold AddSchemaFile_entry, entry_valid, stored, primary.
  destruct frag as [|ch frag]; simpl String.length; cbn [Nat.eqb orb].
  { split; [done | by intros ((? & _) & _)]. }
  destruct (Contains (String ch frag) "#") eqn:Hhash; cbn [orb].
  { split; [done | by intros ((_ & ? & _) & _)]. }
  destruct (Contains (String ch frag) ".") eqn:Hdot; cbn [orb].
  { split; [done | by intros ((_ & _ & ? & _) & _)]. }
  destruct (schemas c !! _) as [old|] eqn:Hold.
  { split; [done | by intros (_ & ? & _)]. }
  destruct def as [inner].
  destruct inner as [p | p | p | p | fullName p | p]; cbn [Inner];
    try (destruct (String.eqb_spec (String ch frag) "main") as [Hmain | Hmain];
         cbn [negb];
         [| split; [done | intros ((_ & _ & _ & Hp & _) & _); by destruct Hmain; auto]]);
    cbn [Inner Def];
    (destruct (CheckSchema _) as [err|] eqn:Hcheck;
     [ split; [done | by intros ((_ & _ & _ & _ & ?) & _)]
     | split; [intros [= <-] | intros (_ & _ & ->)];
       repeat split; try done; auto ]).
Qed.

Lemma entry_Some base c frag def c' e :
  AddSchemaFile_entry base c frag def = (c', Some e) -> c' = c.
Proof.
  unfold AddSchemaFile_entry. repeat case_match; by intros [= <-].
Qed.

Lemma range_None base c defs c' :
  AddSchemaFile_range base c defs = (c', None) <->
  Forall (fun fd => entry_valid base (fst fd) (snd fd)) defs
  /\ NoDup (entries base defs).*1
  /\ (forall name, name ∈ (entries base defs).*1 -> schemas c !! name = None)
  /\ c' = {| schemas := list_to_map (entries base defs) ∪ schemas c |}.
Proof.
  revert c c'. induction defs as [|[frag def] defs IH]; intros c c'; simpl.
  - split.
    + intros [= <-]. split; [constructor |]. split; [constructor |].
      split; [by intros name ?%elem_of_nil |].
      destruct c. simpl. by rewrite (left_id_L ∅ (∪)).
    + intros (_ & _ & _ & ->). destruct c. simpl.
      by rewrite (left_id_L ∅ (∪)).
  - destruct (AddSchemaFile_entry base c frag def) as [c1 [e|]] eqn:Hentry.
    + split; [done |]. intros (Hall & Hnd & Hfree & _).
      apply Forall_cons_1 in Hall as [Hv _].
      assert (Hc : AddSchemaFile_entry base c frag def
                   = ({| schemas := <[(base ++ "#" ++ frag)%string :=
                                        stored base frag def]> (schemas c) |},
                      None)).
      { apply entry_None. split; [done |]. split; [|done].
        apply Hfree. apply elem_of_cons. by left. }
      congruence.
    + apply entry_None in Hentry as (Hv & Hnone & ->).
      rewrite IH. simpl. split.
      * intros (Hall & Hnd & Hfree & ->).
        assert (Hnotin : (base ++ "#" ++ frag)%string ∉ (entries base defs).*1).
        { intros Hin. specialize (Hfree _ Hin).
          by rewrite lookup_insert_eq in Hfree. }
        split; [by constructor |]. split; [by constructor |]. split.
        -- intros name [-> | Hin]%elem_of_cons; [done |].
           specialize (Hfree name Hin).
           apply lookup_insert_None in Hfree. tauto.
        -- f_equal. rewrite <- insert_union_l. symmetry. apply insert_union_r.
           by apply not_elem_of_list_to_map_1.
      * intros (Hall & Hnd & Hfree & ->).
        apply Forall_cons_1 in Hall as [_ Hall].
        apply NoDup_cons in Hnd as [Hnotin Hnd].
        split; [done |]. split; [done |]. split.
        -- intros name Hin. apply lookup_insert_None. split.
           ++ apply Hfree. apply elem_of_cons. by right.
           ++ intros <-. done.
        -- f_equal. rewrite <- insert_union_l. apply insert_union_r.
           by apply not_elem_of_list_to_map_1.
Qed.

Lemma entries_lookup base defs frag def :
  NoDup (entries base defs).*1 ->
  (frag, def) ∈ defs ->
  (list_to_map (entries base defs) : gmap string Schema)
    !! (base ++ "#" ++ frag)%string
  = Some (stored base frag def).
Proof.
  intros Hnd Hin. apply elem_of_list_to_map_1; [done |].
  unfold entries. apply list_elem_of_fmap.
  by exists (frag, def).
Qed.

Lemma range_any base c defs c' r :
  AddSchemaFile_range base c defs = (c', r) ->
  schemas c ⊆ schemas c'
  /\ (forall name s,
        schemas c' !! name = Some s -> schemas c !! name = None ->
        exists frag def,
          (frag, def) ∈ defs /\ name = (base ++ "#" ++ frag)%string
          /\ s = stored base frag def).
Proof.
  revert c. induction defs as [|[frag def] defs IH]; intros c; simpl.
  - intros [= <- <-]. split; [done | congruence].
  - destruct (AddSchemaFile_entry base c frag def) as [c1 [e|]] eqn:Hentry.
    + intros [= <- <-]. apply entry_Some in Hentry as ->.
      split; [done | congruence].
    + apply entry_None in Hentry as (Hv & Hnone & ->).
      intros [Hsub Hnew]%IH. simpl in *. split.
      * etrans; [|exact Hsub]. by apply insert_subseteq.
      * intros name s Hs Hc.
        destruct (decide (name = (base ++ "#" ++ frag)%string)) as [-> | Hne].
        -- exists frag, def. split; [apply elem_of_cons; by left |].
           split; [done |].
           assert (Hin : <[(base ++ "#" ++ frag)%string := stored base frag def]>
                           (schemas c) !! (base ++ "#" ++ frag)%string
                         = Some (stored base frag def))
             by apply lookup_insert_eq.
           eapply lookup_weaken in Hin; [|exact Hsub]. congruence.
        -- destruct (Hnew name s Hs) as (frag' & def' & Hin & -> & ->).
           { by rewrite lookup_insert_ne. }
           exists frag', def'. split; [apply elem_of_cons; by right | done].
Qed.

(** X14: when [AddSchemaFile] returns nil, every fragment of the file is
    non-empty and has no '#' and no '.', every definition of a primary
    type is named "main", every definition passed [CheckSchema], no name
    of the file was in the catalog before, and each definition is now in
    the catalog under "ID#fragment", a token with that name as its full
    name. *)
Theorem AddSchemaFile_accepts (c c' : BaseCatalog) (sf : SchemaFile) :
  AddSchemaFile c sf = (c', None) ->
  forall frag def, (frag, def) ∈ Defs sf ->
    entry_valid (sf_ID sf) frag def
    /\ schemas c !! (sf_ID sf ++ "#" ++ frag)%string = None
    /\ schemas c' !! (sf_ID sf ++ "#" ++ frag)%string
       = Some (stored (sf_ID sf) frag def).
Proof.
  unfold AddSchemaFile. intros (Hall & Hnd & Hfree & ->)%range_None frag def Hin.
  split; [|split].
  - rewrite Forall_forall in Hall. by apply (Hall (frag, def)).
  - apply Hfree. unfold entries. rewrite <- list_fmap_compose.
    apply list_elem_of_fmap. by exists (frag, def).
  - simpl. apply lookup_union_Some_l. by apply entries_lookup.
Qed.

Lemma AddSchemaFile_only_adds_aux (c c' : BaseCatalog) (sf : SchemaFile) r :
  AddSchemaFile c sf = (c', r) ->
  forall name s, schemas c !! name = Some s -> schemas c' !! name = Some s.
Proof.
  unfold AddSchemaFile. intros [Hsub _]%range_any name s Hs.
  by eapply lookup_weaken.
Qed.

Lemma AddSchemaFile_order_aux (c c' : BaseCatalog) (sf sf' : SchemaFile) :
  sf_ID sf' = sf_ID sf ->
  Defs sf' ≡ₚ Defs sf ->
  AddSchemaFile c sf = (c', None) ->
  AddSchemaFile c sf' = (c', None).
Proof.
  unfold AddSchemaFile. intros -> Hperm (Hall & Hnd & Hfree & ->)%range_None.
  assert (Hperm' : entries (sf_ID sf) (Defs sf') ≡ₚ entries (sf_ID sf) (Defs sf)).
  { unfold entries. by apply fmap_Permutation. }
  apply range_None. split; [by rewrite Hperm |].
  split; [by rewrite Hperm' |]. split.
  - intros name Hin. apply Hfree. by rewrite <- Hperm'.
  - f_equal. f_equal. by apply list_to_map_proper.
Qed.


(** X16: the order in which the [range] over [sf.Defs] visits the map
    does not matter when [AddSchemaFile] returns nil: in any other order
    it returns nil as well and leaves the same catalog. *)
Theorem AddSchemaFile_order (c c' : BaseCatalog) (sf sf' : SchemaFile) :
  sf_ID sf' = sf_ID sf ->
  Defs sf' ≡ₚ Defs sf ->
  AddSchemaFile c sf = (c', None) ->
  AddSchemaFile c sf' = (c', None).
Proof. apply AddSchemaFile_order_aux. Qed.

(** X17: a file that [AddSchemaFile] has added cannot be added again: with
    at least one definition, and in whatever order the map is visited, the
    second call returns "catalog already contained a schema with name"
    and leaves the catalog as it is. *)
Theorem AddSchemaFile_twice (c c' : BaseCatalog) (sf sf' : SchemaFile) :
  sf_ID sf' = sf_ID sf ->
  Defs sf' ≡ₚ Defs sf ->
  Defs sf <> [] ->
  AddSchemaFile c sf = (c', None) ->
  exists name, AddSchemaFile c' sf' = (c', Some (ErrAlreadyContained name)).
Proof.
  intros Hid Hperm Hne Hadd.
  pose proof (AddSchemaFile_order_aux c c' sf sf' Hid Hperm Hadd) as Hadd'.
  unfold AddSchemaFile in *. rewrite Hid in *.
  destruct (Defs sf') as [|[frag def] rest] eqn:Hdefs.
  { apply Permutation_nil_l in Hperm. congruence. }
  apply range_None in Hadd' as (Hall & Hnd & Hfree & ->).
  apply Forall_cons_1 in Hall as [(Hfrag & Hhash & Hdot & _) _].
  exists (sf_ID sf ++ "#" ++ frag)%string. simpl.
  unfold AddSchemaFile_entry. simpl in *.
  destruct frag as [|ch frag]; [done |]. simpl String.length. cbn [Nat.eqb orb].
  rewrite Hhash, Hdot. cbn [orb].
  assert (Hin : (list_to_map (entries (sf_ID sf) ((String ch frag, def) :: rest))
                 ∪ schemas c) !! (sf_ID sf ++ "#" ++ String ch frag)%string
                = Some (stored (sf_ID sf) (String ch frag) def)).
  { apply lookup_union_Some_l. apply entries_lookup; [done |].
    apply elem_of_cons. by left. }
  simpl in Hin. by rewrite Hin.
Qed.

Lemma Resolve_main_aux (c : BaseCatalog) (ref : string) :
  Resolve c "" = Err ErrEmptyName
  /\ (ref <> ""%string -> Contains ref "#" = false ->
      Resolve c ref = Resolve c (ref ++ "#main")).
Proof.
  split; [done |]. intros Href Hhash. unfold Resolve.
  destruct (String.eqb_spec ref "") as [-> | _]; [done |].
  destruct (String.eqb_spec (ref ++ "#main") "") as [Hempty | _].
  { by destruct ref. }
  rewrite Hhash. simpl negb. cbv iota.
  by rewrite (Contains_app_r ref "#main" "#" eq_refl).
Qed.

(** X18: [Resolve] reads a reference without '#' as the reference to its
    "main" definition: for a non-empty [ref] without '#', [Resolve] gives
    for [ref] what it gives for [ref#main]; for the empty reference it
    returns an error whatever the catalog holds. *)
Theorem Resolve_main (c : BaseCatalog) (ref : string) :
  Resolve c "" = Err ErrEmptyName
  /\ (ref <> ""%string -> Contains ref "#" = false ->
      Resolve c ref = Resolve c (ref ++ "#main")).
Proof. apply Resolve_main_aux. Qed.

(** X19: every definition of a file that [AddSchemaFile] has added is
    found by [Resolve] under "ID#fragment", with that name as the [ID] of
    the schema returned; and the definition "main" is also found under
    the bare ID of the file when that ID has no '#'. *)
Theorem AddSchemaFile_Resolve (c c' : BaseCatalog) (sf : SchemaFile) frag def :
  AddSchemaFile c sf = (c', None) ->
  (frag, def) ∈ Defs sf ->
  Resolve c' (sf_ID sf ++ "#" ++ frag) = Ok (stored (sf_ID sf) frag def)
  /\ ID (stored (sf_ID sf) frag def) = (sf_ID sf ++ "#" ++ frag)%string
  /\ (frag = "main"%string -> sf_ID sf <> ""%string ->
      Contains (sf_ID sf) "#" = false ->
      Resolve c' (sf_ID sf) = Ok (stored (sf_ID sf) frag def)).
Proof.
  unfold AddSchemaFile. intros (Hall & Hnd & Hfree & ->)%range_None Hin.
  assert (Hfound : Resolve
                     {| schemas := list_to_map (entries (sf_ID sf) (Defs sf))
                                   ∪ schemas c |}
                     (sf_ID sf ++ "#" ++ frag)
                   = Ok (stored (sf_ID sf) frag def)).
  { unfold Resolve.
    destruct (String.eqb_spec (sf_ID sf ++ "#" ++ frag) "") as [Hempty | _].
    { by destruct (sf_ID sf). }
    rewrite Contains_name. simpl.
    by rewrite (lookup_union_Some_l _ _ _ _ (entries_lookup _ _ _ _ Hnd Hin)). }
  split; [done |]. split; [done |].
  intros -> Hid Hhash.
  by rewrite (proj2 (Resolve_main_aux _ _) Hid Hhash).
Qed.

(** X20: [AddSchemaFile] keeps every schema of the catalog stored under
    its own [ID], whether it returns nil or an error; so a schema that
    [Resolve] returns for a reference with '#' has that reference as its
    [ID]. *)
Theorem AddSchemaFile_well_keyed (c c' : BaseCatalog) (sf : SchemaFile) r :
  well_keyed c ->
  AddSchemaFile c sf = (c', r) ->
  well_keyed c'
  /\ (forall ref s, Contains ref "#" = true -> Resolve c' ref = Ok s -> ID s = ref).
Proof.
  intros Hwk Hadd.
  assert (Hwk' : well_keyed c').
  { intros name s Hs.
    destruct (schemas c !! name) as [old|] eqn:Hold.
    - apply (AddSchemaFile_only_adds_aux _ _ _ _ Hadd) in Hold as Hs'.
      rewrite Hs in Hs'. injection Hs' as ->. by apply Hwk.
    - unfold AddSchemaFile in Hadd. apply range_any in Hadd as [_ Hnew].
      by destruct (Hnew name s Hs Hold) as (frag & def & _ & -> & ->). }
  split; [done |]. intros ref s Hhash. unfold Resolve.
  destruct (String.eqb ref ""); [done |]. rewrite Hhash. simpl.
  destruct (schemas c' !! ref) as [s'|] eqn:Hs; [|done].
  intros [= <-]. by apply Hwk'.
Qed.

End LexiconProofs.

(** ** De-duplication and circuit breakers of actions *)

Section EngineProofs.

Import Engine.

Context `{Deps}.

Lemma range_match_spec val es b :
  range_match val es b = true <-> (val ∈ es) \/ b = true.
Proof.
  induction es as [|e es IH]; simpl.
  - rewrite elem_of_nil. tauto.
  - rewrite elem_of_cons.
    destruct (String.eqb_spec val e) as [-> | Hne]; [tauto |].
    rewrite IH. tauto.
Qed.

Lemma dedupeLabelActions_range_spec vals existing existingNegated newLabels :
  dedupeLabelActions_range vals existing existingNegated newLabels
  = newLabels ++
    List.filter (fun val => negb (range_match val existing
                                    (range_match val existingNegated false)))
      vals.
Proof.
  revert newLabels. induction vals as [|val vals IH]; intros newLabels; simpl.
  - by rewrite app_nil_r.
  - rewrite IH. destruct (range_match val existing _); simpl; [done |].
    by rewrite <- app_assoc.
Qed.

Lemma dedupeFlagActions_range_spec vals existing newFlags :
  dedupeFlagActions_range vals existing newFlags
  = dedupeLabelActions_range vals existing [] newFlags.
Proof.
  revert newFlags. induction vals as [|val vals IH]; intros newFlags; simpl;
    [done | apply IH].
Qed.

Lemma filter_sublist {A} (f : A -> bool) (l : list A) :
  sublist (List.filter f l) l.
Proof.
  induction l as [|x l IH]; simpl; [constructor |].
  destruct (f x); by constructor.
Qed.

(** X21: [dedupeLabelActions] returns the labels of [dedupeStrings(labels)]
    that are in neither [existing] nor [existingNegated], and no other, in
    the order [dedupeStrings] gave them. *)
Theorem dedupeLabelActions_new (labels existing existingNegated : list string) :
  (forall val,
     val ∈ dedupeLabelActions labels existing existingNegated
     <-> (val ∈ dedupeStrings labels)
         /\ (val ∉ existing) /\ (val ∉ existingNegated))
  /\ sublist (dedupeLabelActions labels existing existingNegated)
       (dedupeStrings labels).
Proof.
  unfold dedupeLabelActions. rewrite dedupeLabelActions_range_spec. simpl.
  split; [|apply filter_sublist].
  intros val. rewrite list_elem_of_In, filter_In, <- list_elem_of_In.
  rewrite negb_true_iff, <- not_true_iff_false, !range_match_spec.
  intuition congruence.
Qed.

(** X22: [dedupeFlagActions] is [dedupeLabelActions] without negated
    labels: it returns the flags of [dedupeStrings(flags)] that are not in
    [existing], in the same order. *)
Theorem dedupeFlagActions_as_labels (flags existing : list string) :
  dedupeFlagActions flags existing = dedupeLabelActions flags existing []
  /\ (forall val,
        val ∈ dedupeFlagActions flags existing
        <-> (val ∈ dedupeStrings flags) /\ (val ∉ existing)).
Proof.
  unfold dedupeFlagActions, dedupeLabelActions.
  rewrite dedupeFlagActions_range_spec. split; [done |].
  rewrite dedupeLabelActions_range_spec. simpl.
  intros val. rewrite list_elem_of_In, filter_In, <- list_elem_of_In.
  rewrite negb_true_iff, <- not_true_iff_false, range_match_spec.
  intuition congruence.
Qed.

(** X23: [circuitBreakReports] lets through all the reports or none. It
    lets them all through only when there is at least one, the count of
    the day is below [QuotaModReportDay] and the count was incremented;
    when it lets none through, the counters are as they were. *)
Theorem circuitBreakReports_all_or_nothing
    (reports out : list ModReport) (eng eng' : Engine) :
  circuitBreakReports reports eng = (eng', Ok out) ->
  (out = reports /\ reports <> []
   /\ exists c,
        GetCount (Counters eng) "automod-quota" "report" PeriodDay = Ok c
        /\ c < QuotaModReportDay
        /\ Increment (Counters eng) "automod-quota" "report"
           = (Counters eng', None))
  \/ (out = [] /\ Counters eng' = Counters eng).
Proof.
  unfold circuitBreakReports.
  destruct reports as [|r reports]; simpl; [intros [= <- <-]; by right |].
  destruct (GetCount _ _ _ _) as [c | err] eqn:Hget; [|done].
  destruct (Z.leb_spec QuotaModReportDay c); [intros [= <- <-]; by right |].
  destruct (Increment _ _ _) as [st [err|]] eqn:Hinc; [done |].
  intros [= <- <-]. left. split; [done |]. split; [done |].
  by exists c.
Qed.

(** X24: [circuitBreakEscalation] and [circuitBreakTakedown] never turn a
    false into a true. They answer true only when asked with true while
    the count of the day is below the quota, and then they have
    incremented the count; when they answer false, the counters are as
    they were. *)
Theorem circuitBreak_never_escalates (ask answer : bool) (eng eng' : Engine) :
  (circuitBreakEscalation ask eng = (eng', Ok answer) ->
   if answer then
     ask = true
     /\ exists c,
          GetCount (Counters eng) "automod-quota" "escalate" PeriodDay = Ok c
          /\ c < QuotaModEscalationDay
          /\ Increment (Counters eng) "automod-quota" "escalate"
             = (Counters eng', None)
   else Counters eng' = Counters eng)
  /\ (circuitBreakTakedown ask eng = (eng', Ok answer) ->
      if answer then
        ask = true
        /\ exists c,
             GetCount (Counters eng) "automod-quota" "takedown" PeriodDay = Ok c
             /\ c < QuotaModTakedownDay
             /\ Increment (Counters eng) "automod-quota" "takedown"
                = (Counters eng', None)
      else Counters eng' = Counters eng).
Proof.
  unfold circuitBreakEscalation, circuitBreakTakedown.
  split; (destruct ask; simpl; [|by intros [= <- <-]]);
    (destruct (GetCount _ _ _ _) as [c | err] eqn:Hget; [|done]);
    [ destruct (Z.leb_spec QuotaModEscalationDay c)
    | destruct (Z.leb_spec QuotaModTakedownDay c) ];
    try (by intros [= <- <-]);
    (destruct (Increment _ _ _) as [st [err|]] eqn:Hinc; [done |]);
    intros [= <- <-]; (split; [done |]); by exists c.
Qed.

Section ReportCounters.

Hypothesis laws : store_laws.

Lemma dedupeReportActions_range_spec subject reports :
  forall newReports eng eng' out,
  dedupeReportActions_range subject reports newReports eng = (eng', Ok out) ->
  exists kept,
    out = newReports ++ kept
    /\ sublist kept reports
    /\ NoDup (counterName <$> kept)
    /\ (forall r, r ∈ kept ->
        GetCount (Counters eng) (counterName r) subject PeriodDay = Ok 0)
    /\ (forall r, r ∈ reports ->
        exists k, GetCount (Counters eng') (counterName r) subject PeriodDay = Ok k
                  /\ 0 < k)
    /\ (forall r, r ∈ reports ->
        GetCount (Counters eng) (counterName r) subject PeriodDay = Ok 0 ->
        counterName r ∈ counterName <$> kept)
    /\ (forall name k,
        GetCount (Counters eng) name subject PeriodDay = Ok k ->
        exists k', GetCount (Counters eng') name subject PeriodDay = Ok k'
                   /\ k <= k').
Proof.
  induction reports as [|r reports IH]; intros newReports eng eng' out; simpl.
  - intros [= <- <-]. exists []. rewrite app_nil_r.
    repeat split; try constructor; try (intros r Hr; by apply elem_of_nil in Hr).
    intros name k Hk. exists k. split; [done | lia].
  - destruct (GetCount (Counters eng) (counterName r) subject PeriodDay)
      as [existing | err] eqn:Hget; [|done].
    destruct (Z.ltb_spec 0 existing) as [Hpos | Hnpos].
    + intros Hrun.
      apply IH in Hrun as (kept & -> & Hsub & Hnd & Hzero & Hfin & Hfresh & Hmono).
      simpl in *. exists kept. repeat split; auto.
      * by constructor.
      * intros r' [-> | Hr']%elem_of_cons; [|by apply Hfin].
        destruct (Hmono _ _ Hget) as (k' & Hk' & Hle).
        exists k'. split; [done | lia].
      * intros r' [-> | Hr']%elem_of_cons Hz; [|by apply Hfresh].
        rewrite Hget in Hz. injection Hz as ->. lia.
    + destruct (Increment (Counters eng) (counterName r) subject)
        as [st [err|]] eqn:Hinc; [done |].
      intros Hrun.
      apply IH in Hrun as (kept & -> & Hsub & Hnd & Hzero & Hfin & Hfresh & Hmono).
      simpl in *.
      pose proof (law_nonneg laws _ _ _ _ Hget) as Hnn.
      pose proof (law_incr laws _ _ _ _ _ Hinc Hget) as Hr1.
      assert (Hother : forall name, name <> counterName r ->
                GetCount st name subject PeriodDay
                = GetCount (Counters eng) name subject PeriodDay).
      { intros name Hne. apply (law_frame laws _ _ _ _ _ _ Hinc). congruence. }
      assert (Hnotin : counterName r ∉ counterName <$> kept).
      { intros (r' & Heq & Hr')%list_elem_of_fmap.
        apply Hzero in Hr'. rewrite <- Heq, Hr1 in Hr'.
        injection Hr' as Hr'. lia. }
      exists (r :: kept). rewrite <- app_assoc. simpl. repeat split.
      * by constructor.
      * by constructor.
      * intros r' [-> | Hr']%elem_of_cons.
        { rewrite Hget. f_equal. lia. }
        rewrite <- Hother; [by apply Hzero |].
        intros Heq. apply Hnotin. rewrite <- Heq.
        apply list_elem_of_fmap. by exists r'.
      * intros r' [-> | Hr']%elem_of_cons; [|by apply Hfin].
        destruct (Hmono _ _ Hr1) as (k' & Hk' & Hle).
        exists k'. split; [done | lia].
      * intros r' [-> | Hr']%elem_of_cons Hz; [by left |].
        destruct (decide (counterName r' = counterName r)) as [-> | Hne];
          [by left |].
        right. apply Hfresh; [done |]. by rewrite Hother.
      * intros name k Hk.
        destruct (decide (name = counterName r)) as [-> | Hne].
        { rewrite Hget in Hk. injection Hk as <-.
          destruct (Hmono _ _ Hr1) as (k' & Hk' & Hle).
          exists k'. split; [done | lia]. }
        apply Hmono. by rewrite Hother.
Qed.

Lemma dedupeReportActions_range_skip subject reports :
  forall newReports eng,
  (forall r, r ∈ reports ->
     exists k, GetCount (Counters eng) (counterName r) subject PeriodDay = Ok k
               /\ 0 < k) ->
  exists eng',
    dedupeReportActions_range subject reports newReports eng
    = (eng', Ok newReports)
    /\ Counters eng' = Counters eng.
Proof.
  induction reports as [|r reports IH]; intros newReports eng Hall; simpl.
  - by exists eng.
  - destruct (Hall r) as (k & -> & Hk); [by left |].
    destruct (Z.ltb_spec 0 k); [|lia].
    destruct (IH newReports
                (logged (Debug "skipping account report due to counter") eng))
      as (eng' & Hrun & Hsame).
    { intros r' Hr'. simpl. apply Hall. by right. }
    by exists eng'.
Qed.

(** X25: when the count store keeps its laws and [dedupeReportActions]
    succeeds, the reports it returns are reports of its input in their
    order, no two of them with the same reason counter, each with a counter
    that was at zero for the subject; every reason whose counter was at
    zero is reported, and afterwards the counter of every report of the
    input is above zero. *)
Theorem dedupeReportActions_once (subject : string) (reports out : list ModReport)
    (eng eng' : Engine) :
  dedupeReportActions subject reports eng = (eng', Ok out) ->
  sublist out reports
  /\ NoDup (counterName <$> out)
  /\ (forall r, r ∈ out ->
      GetCount (Counters eng) (counterName r) subject PeriodDay = Ok 0)
  /\ (forall r, r ∈ reports ->
      GetCount (Counters eng) (counterName r) subject PeriodDay = Ok 0 ->
      counterName r ∈ counterName <$> out)
  /\ (forall r, r ∈ reports ->
      exists k, GetCount (Counters eng') (counterName r) subject PeriodDay = Ok k
                /\ 0 < k).
Proof.
  unfold dedupeReportActions. intros Hrun.
  apply dedupeReportActions_range_spec in Hrun
    as (kept & -> & Hsub & Hnd & Hzero & Hfin & Hfresh & _).
  simpl. auto.
Qed.

(** X26: when the count store keeps its laws, after a successful
    [dedupeReportActions] a second call for the same subject, with reports
    whose reasons were all in the first call, returns no report and leaves
    the counters as they are. *)
Theorem dedupeReportActions_again (subject : string)
    (reports out reports' : list ModReport) (eng eng' : Engine) :
  dedupeReportActions subject reports eng = (eng', Ok out) ->
  (forall r, r ∈ reports' -> counterName r ∈ counterName <$> reports) ->
  exists eng'',
    dedupeReportActions subject reports' eng' = (eng'', Ok [])
    /\ Counters eng'' = Counters eng'.
Proof.
  unfold dedupeReportActions. intros Hrun Hsame.
  apply dedupeReportActions_range_spec in Hrun
    as (kept & _ & _ & _ & _ & Hfin & _).
  apply dedupeReportActions_range_skip.
  intros r (r0 & -> & Hr0)%Hsame%list_elem_of_fmap. by apply Hfin.
Qed.

End ReportCounters.

End EngineProofs.

(** ** The theorems at the small instances *)

Section ValidatorInstances.

Import Relay.

Lemma VerifyCommitMessage_sound_witness :
  Forall (record_checked (H := demo_packages) [("post/1"%string, demo_cid "B")])
    (Ops demo_msg).
Proof.
  destruct (VerifyCommitMessage_sound (H := demo_packages) demo_validator_alice
              demo_host demo_msg (Some "aaa"%string)
              (Some (demo_cid "post/1=A;")) 0 demo_state _ _ eq_refl)
    as (did & rev & commit & _ & _ & _ & _ & _ & _ & _ & _ & _ & Hall).
  exact Hall.
Defined.

Lemma VerifyCommitMessage_prevData_sound_witness :
  exists ops nops invTree,
    ParseCommitOps (H := demo_packages) (Ops demo_msg) = Ok ops
    /\ NormalizeOps (Packages := demo_packages) ops = Ok nops
    /\ invert_all (H := demo_packages)
         (Tree_Copy (MST (Packages := demo_packages)
                       [("post/1"%string, demo_cid "B")])) nops = Ok invTree
    /\ Tree_RootCID invTree = Ok (demo_cid "post/1=A;").
Proof.
  exact (VerifyCommitMessage_prevData_sound (H := demo_packages)
           demo_validator_alice demo_host demo_msg (Some "aaa"%string)
           (Some (demo_cid "post/1=A;")) 0 demo_state _ _
           (demo_cid "post/1=A;") eq_refl eq_refl eq_refl).
Defined.

Lemma VerifyCommitMessage_old_protocol_witness :
  fst (VerifyCommitMessage (H := demo_packages) demo_validator_alice demo_host
         demo_msg_old None None 0 demo_state)
  = Ok [("post/1"%string, demo_cid "B")].
Proof.
  rewrite (VerifyCommitMessage_old_protocol (H := demo_packages)
             demo_validator_alice demo_host demo_msg_old None None 0
             demo_state _ _ eq_refl eq_refl eq_refl).
  reflexivity.
Defined.

Lemma legacy_op_fails_ParseCommitOps_witness :
  exists e, ParseCommitOps (H := demo_packages) (Ops demo_msg_legacy) = Err e.
Proof.
  apply (legacy_op_fails_ParseCommitOps (H := demo_packages)). reflexivity.
Defined.

Lemma VerifyCommitSignature_sound_witness :
  exists ident pk,
    LookupDID (Packages := demo_packages) ["did:plc:alice"%string]
      "did:plc:alice"%string = Ok ident
    /\ Identity_PublicKey ident = Ok pk
    /\ Commit_VerifySignature demo_commit pk = Ok tt.
Proof.
  destruct (VerifyCommitSignature_sound (H := demo_packages)
              demo_validator_alice demo_commit "pds.example" true demo_state
              _ ["did:plc:alice"%string] eq_refl eq_refl)
    as (xdid & Hdid & [(ident & pk & Hlookup & Hpk & Hsig & _)
                      | (_ & [err Herr] & _)]);
    injection Hdid as <-.
  - by exists ident, pk.
  - discriminate Herr.
Defined.

Lemma HandleSync_sound_witness :
  exists commit,
    LoadCommitFromCAR (Packages := demo_packages) (sync_Blocks demo_sync)
    = Ok commit
    /\ demo_cid "post/1=B;" = commit_Data commit.
Proof.
  destruct (HandleSync_sound (H := demo_packages) demo_validator_alice
              demo_host demo_sync 0 demo_state _ (demo_cid "post/1=B;") eq_refl)
    as (did & rev & commit & _ & _ & _ & _ & Hcar & _ & _ & _ & Hroot).
  by exists commit.
Defined.

Lemma VerifyCommitMessage_flags_witness :
  hasWarning
    (snd (VerifyCommitMessage (H := demo_packages) demo_validator_alice
            demo_host demo_msg_tooBig (Some "aaa"%string)
            (Some (demo_cid "post/1=A;")) 0 demo_state)) = true.
Proof.
  exact (proj2 (VerifyCommitMessage_flags (H := demo_packages)
                  demo_validator_alice demo_host demo_msg_tooBig
                  (Some "aaa"%string) (Some (demo_cid "post/1=A;")) 0
                  demo_state demo_state)
           eq_refl _ _ eq_refl).
Defined.

End ValidatorInstances.

Section LockInstances.

Import Locks.

Lemma demo_contended_reachable : reachable demo_contended.
Proof.
  apply (run_reachable (take 5 demo_schedule) init);
    [constructor | by vm_compute].
Qed.

Lemma lockUser_contends_per_user_witness :
  reachable demo_contended
  /\ lockUser_lock 1%positive (validator demo_contended) = Blocked.
Proof.
  split; [exact demo_contended_reachable |].
  apply (proj2 (lockUser_contends_per_user demo_contended 1%nat 7 1%positive
                  demo_contended_reachable ltac:(by vm_compute))).
  by vm_compute.
Defined.

Lemma lockUser_no_deadlock_witness :
  exists s', step demo_contended s' /\ reachable s'
             /\ length (calls s') = length (calls demo_contended).
Proof.
  apply (lockUser_no_deadlock demo_contended demo_contended_reachable).
  intros Hbal. unfold balanced in Hbal.
  apply (Forall_inv (l := [Entered 7 1%positive; Locked 9 2%positive])) in Hbal.
  discriminate Hbal.
Defined.

Lemma lockUser_never_fatal_witness :
  reachable demo_contended
  /\ release_unlock 1%positive (validator demo_contended) <> Fatal.
Proof.
  split; [exact demo_contended_reachable |].
  apply (proj2 (lockUser_never_fatal demo_contended 0%nat 7 1%positive
                  demo_contended_reachable)).
  by vm_compute.
Defined.

End LockInstances.

Section P256Instances.

Import Crypto.

Lemma HashAndVerify_not_malleable_witness :
  HashAndVerify (H := demo_ecdsa) demo_pub demo_content demo_low_sig = Ok tt
  /\ HashAndVerify demo_pub demo_content
       (take 32 demo_low_sig
        ++ be_digits 32 (curveP256Order - SetBytes (drop 32 demo_low_sig)))
     = Err ErrInvalidSignature.
Proof.
  assert (Hok : HashAndVerify (H := demo_ecdsa) demo_pub demo_content
                  demo_low_sig = Ok tt) by (by vm_compute).
  split; [exact Hok |].
  exact (HashAndVerify_not_malleable (H := demo_ecdsa) demo_pub demo_content
           demo_low_sig Hok).
Defined.

Lemma demo_ecdsa_Sign_range rand priv hash r s :
  ecdsa_Sign (ECDSA := demo_ecdsa) rand priv hash = Some (r, s) ->
  0 < r < curveP256Order /\ 0 < s < curveP256Order.
Proof.
  simpl. intros Hsign.
  destruct (_ && _) eqn:E in Hsign; simplify_eq.
  repeat (apply andb_prop in E as [E ?]). lia.
Qed.

Lemma HashAndSign_low_S_witness :
  HashAndSign (H := demo_ecdsa) (curveP256Order - 1) demo_key demo_content
  = Signed demo_low_sig
  /\ SetBytes (drop 32 demo_low_sig) <= curveP256Order / 2.
Proof.
  assert (Hsig : HashAndSign (H := demo_ecdsa) (curveP256Order - 1) demo_key
                   demo_content = Signed demo_low_sig) by (by vm_compute).
  split; [exact Hsig |].
  destruct (HashAndSign_low_S (H := demo_ecdsa) demo_ecdsa_Sign_range
              (curveP256Order - 1) demo_key demo_content demo_low_sig Hsig)
    as (r & s & _ & _ & _ & _ & Hlow).
  exact Hlow.
Defined.

End P256Instances.

Section LexiconInstances.

Import Lexicon.

Lemma demo_catalog_added :
  AddSchemaFile (H := demo_ops) NewBaseCatalog demo_file = (demo_catalog, None).
Proof. by vm_compute. Qed.

Lemma AddSchemaFile_accepts_witness :
  schemas demo_catalog !! "app.bsky.feed.post#pinned"%string
  = Some (stored (H := demo_ops) "app.bsky.feed.post" "pinned"
            (@Build_SchemaDef demo_ops (SchemaToken "" 3))).
Proof.
  refine (proj2 (proj2 (AddSchemaFile_accepts (H := demo_ops) NewBaseCatalog
                          demo_catalog demo_file demo_catalog_added
                          "pinned"%string _ _))).
  apply (list_elem_of_lookup_2 _ 2%nat). reflexivity.
Defined.


Lemma AddSchemaFile_order_witness :
  AddSchemaFile (H := demo_ops) NewBaseCatalog demo_file_reordered
  = (demo_catalog, None).
Proof.
  apply (AddSchemaFile_order (H := demo_ops) NewBaseCatalog demo_catalog
           demo_file demo_file_reordered eq_refl);
    [|exact demo_catalog_added].
  apply (Permutation_cons_append
           [("main"%string, @Build_SchemaDef demo_ops (SchemaRecord 1));
            ("replyRef"%string, @Build_SchemaDef demo_ops (SchemaOther 2))]).
Defined.

Lemma AddSchemaFile_twice_witness :
  exists name,
    AddSchemaFile (H := demo_ops) demo_catalog demo_file
    = (demo_catalog, Some (ErrAlreadyContained name)).
Proof.
  apply (AddSchemaFile_twice (H := demo_ops) NewBaseCatalog demo_catalog
           demo_file demo_file eq_refl);
    [reflexivity | discriminate | exact demo_catalog_added].
Defined.

Lemma Resolve_main_witness :
  Resolve (H := demo_ops) demo_catalog "app.bsky.feed.post"
  = Resolve demo_catalog "app.bsky.feed.post#main".
Proof.
  apply (proj2 (Resolve_main (H := demo_ops) demo_catalog "app.bsky.feed.post"));
    [discriminate | reflexivity].
Defined.

Lemma AddSchemaFile_Resolve_witness :
  Resolve (H := demo_ops) demo_catalog "app.bsky.feed.post"
  = Ok (stored "app.bsky.feed.post" "main"
          (@Build_SchemaDef demo_ops (SchemaRecord 1))).
Proof.
  apply (proj2 (proj2 (AddSchemaFile_Resolve (H := demo_ops) NewBaseCatalog
                         demo_catalog demo_file "main"%string _
                         demo_catalog_added
                         ltac:(apply (list_elem_of_lookup_2 _ 0%nat);
                               reflexivity))));
    [reflexivity | discriminate | reflexivity].
Defined.

Lemma AddSchemaFile_well_keyed_witness :
  exists s,
    Resolve (H := demo_ops) demo_catalog "app.bsky.feed.post#pinned" = Ok s
    /\ ID s = "app.bsky.feed.post#pinned"%string.
Proof.
  eexists. split; [by vm_compute |].
  apply (proj2 (AddSchemaFile_well_keyed (H := demo_ops) NewBaseCatalog
                  demo_catalog demo_file None
                  ltac:(intros name s Hs; simpl in Hs;
                        by rewrite lookup_empty in Hs)
                  demo_catalog_added));
    by vm_compute.
Defined.

End LexiconInstances.

Section EngineInstances.

Import Engine.

Lemma demo_store_laws : store_laws (H := demo_deps).
Proof.
  split; simpl.
  - intros st name val k [= <-]. lia.
  - intros st st' name val k [= <-] [= <-].
    unfold demo_count. simpl. rewrite !String.eqb_refl. simpl. f_equal. lia.
  - intros st st' name val name' val' [= <-] Hne.
    unfold demo_count. simpl.
    destruct (String.eqb_spec name name'), (String.eqb_spec val val');
      simpl; congruence.
Qed.

Lemma circuitBreakReports_all_or_nothing_witness :
  exists c,
    GetCount (Deps := demo_deps) (Counters demo_engine) "automod-quota" "report"
      PeriodDay = Ok c
    /\ c < QuotaModReportDay (Deps := demo_deps).
Proof.
  destruct (circuitBreakReports_all_or_nothing (H := demo_deps) demo_reports
              demo_reports demo_engine
              (fst (circuitBreakReports demo_reports demo_engine))
              ltac:(by vm_compute))
    as [(_ & _ & c & Hc & Hlt & _) | (Hout & _)].
  - by exists c.
  - discriminate Hout.
Defined.

Lemma circuitBreak_never_escalates_witness :
  exists c,
    GetCount (Deps := demo_deps) (Counters demo_engine) "automod-quota"
      "escalate" PeriodDay = Ok c
    /\ c < QuotaModEscalationDay (Deps := demo_deps).
Proof.
  destruct (proj1 (circuitBreak_never_escalates (H := demo_deps) true true
                     demo_engine
                     (fst (circuitBreakEscalation true demo_engine)))
              ltac:(by vm_compute))
    as (_ & c & Hc & Hlt & _).
  by exists c.
Defined.

Lemma dedupeReportActions_once_witness :
  sublist (take 2 demo_reports) demo_reports
  /\ NoDup (counterName (H := demo_deps) <$> take 2 demo_reports).
Proof.
  destruct (dedupeReportActions_once (H := demo_deps) demo_store_laws
              "did:plc:bob" demo_reports (take 2 demo_reports) demo_engine
              (fst (dedupeReportActions "did:plc:bob" demo_reports demo_engine))
              ltac:(by vm_compute))
    as (Hsub & Hnd & _).
  by split.
Defined.

Lemma dedupeReportActions_again_witness :
  exists eng'',
    dedupeReportActions (H := demo_deps) "did:plc:bob" demo_reports
      (fst (dedupeReportActions "did:plc:bob" demo_reports demo_engine))
    = (eng'', Ok [])
    /\ Counters eng''
       = Counters (fst (dedupeReportActions "did:plc:bob" demo_reports
                          demo_engine)).
Proof.
  apply (dedupeReportActions_again (H := demo_deps) demo_store_laws
           "did:plc:bob" demo_reports (take 2 demo_reports) demo_reports
           demo_engine _ ltac:(by vm_compute)).
  intros r Hr. apply list_elem_of_fmap. by exists r.
Defined.

End EngineInstances.
